(** * PETS: the simulation set-up and time-stepping driver of [pets/sim.py]

    A shallow embedding of the class [SimPETS]:

    - [__init__]                    (construction, optional checkpoint load),
    - [SetUpParametersAndDomains]   (the domain builder),
    - [SetUpVariables]              (the state initializer),
    - [Run]                         (the time-stepping driver).

    The methods talk to the DAE framework (daetools) only through method
    calls on the model's domains and variables, on the log and on the
    simulation object.  The framework is not part of [sim.py]; it is
    modelled as a recorder: every call the methods issue is appended, in
    order, to a list of [call]s which the theorems talk about.

    The configured and stored quantities the initializer passes on are
    idealised as exact rationals ([Q]); the clock values, report times
    and the horizon the driver computes with are IEEE binary64 floats;
    Python integers are [Z]. *)

From Stdlib Require Import ZArith QArith Qabs Lia Lqa Ascii Floats.SpecFloat.
From stdpp Require Import base list list_numbers strings gmap pretty.

Local Open Scope Z_scope.

(** ** Configuration data *)

(** The electrode labels of [ndD_s["trodes"]]: "a" (anode), "c" (cathode). *)
Inductive trode : Type := Anode | Cathode.

(** The keys of [ndD_s["Nvol"]]: the separator "s" and the electrodes. *)
Inductive region : Type := Sep | Trode (l : trode).

Definition label (l : trode) : string :=
  match l with Anode => "a" | Cathode => "c" end.

Definition region_label (r : region) : string :=
  match r with Sep => "s" | Trode l => label l end.

Global Instance trode_eq_dec : EqDecision trode.
Proof. solve_decision. Defined.

Global Instance region_eq_dec : EqDecision region.
Proof. solve_decision. Defined.

(** An entry of the [psd_num] table is a number that may arrive as a
    Python/numpy integer or as a float. *)
Inductive pynum : Type :=
  | PyInt (z : Z)
  | PyFloat (q : Q).

(** Python's [int(x)]: the identity on integers, truncation toward zero
    on floats. *)
Definition py_int (x : pynum) : Z :=
  match x with
  | PyInt z => z
  | PyFloat q => Z.quot (Qnum q) (Zpos (Qden q))
  end.

(** The system-level dictionary [ndD_s]. *)
Record SystemConfig : Type := {
  Nvol : region → Z;
  Npart : trode → Z;
  trodes : list trode;
  psd_num : trode → Z → Z → pynum;
  cs0 : trode → Q;
  c0 : Q;
  phi_cathode : Q;
  prevDir : string;
  oneVarTypes : list string;      (* ndD_s["1varTypes"] *)
  twoVarTypes : list string;      (* ndD_s["2varTypes"] *)
  currPrev : Q;
  phiPrev : Q
}.

(** The electrode-level dictionary [ndD_e]: only
    [ndD_e[l]["indvPart"][i,j]["type"]] is read here. *)
Record ElectrodeConfig : Type := {
  indvPart_type : trode → Z → Z → string
}.

(** A loaded [output_data.mat]: string keys to two-dimensional arrays. *)
Abbreviation matrix := (list (list Q)).
Abbreviation checkpoint := (gmap string (list (list Q))).

(** ** Exceptions *)

Inductive error : Type :=
  | Exception (msg : string)
  | TypeError
  | ValueError
  | OverflowError
  | KeyError (key : string)
  | IndexError
  | AttributeError
  | IOError
  | ZeroDivisionError
  | SolverError                      (* raised inside the external solver *)
  (* named by the specification; no statement of [sim.py] raises them *)
  | UnknownSolidTypeError
  | PrematureInitializationError.

(** ** Python floats

    A Python [float] is an IEEE binary64 number: [spec_float] at precision
    53 and maximal exponent 1024, with the correctly rounded operations
    of the standard library. *)

Abbreviation float := spec_float.

Definition float_mul : float → float → float := SFmul 53 1024.
Definition float_div : float → float → float := SFdiv 53 1024.

(** The float nearest to [m * 2^e]; [100.] is [dyadic 25 2]. *)
Definition dyadic (m e : Z) : float := binary_normalize 53 1024 m e false.

Definition float_100 : float := Eval cbv in dyadic 25 2.

(** [x / y]: Python raises on a zero divisor, whatever [x] is. *)
Definition py_truediv (x y : float) : error + float :=
  match y with
  | S754_zero _ => inl ZeroDivisionError
  | _ => inr (float_div x y)
  end.

(** [int(x)] on a float: truncation toward zero; [OverflowError] on an
    infinity, [ValueError] on a nan. *)
Definition int_of_float (x : float) : error + Z :=
  match x with
  | S754_nan => inl ValueError
  | S754_infinity _ => inl OverflowError
  | S754_zero _ => inr 0
  | S754_finite s m e =>
      let n := Z.shiftl (Z.pos m) e in inr (if s then - n else n)
  end.

(** ** The framework objects the methods call into *)

Inductive domain : Type :=
  | DmnCell (r : region)                 (* self.m.DmnCell[r] *)
  | DmnPart (l : trode)                  (* self.m.DmnPart[l] *)
  | PartDmn (l : trode) (i j : Z).       (* self.m.particles[l][i,j].Dmn *)

Inductive pfield : Type := F_c | F_cbar | F_c1 | F_c2 | F_c1bar | F_c2bar.

Inductive var : Type :=
  | ffrac (l : trode)
  | R_Vp (l : trode)
  | phi_bulk (l : trode)
  | c_lyte (r : region)
  | phi_lyte (r : region)
  | phi_applied
  | dummyVar
  | part (l : trode) (i j : Z) (f : pfield).   (* self.m.particles[l][i,j].f *)

Inductive call : Type :=
  | CreateArray (d : domain) (n : Z)
  | SetInitialGuess (v : var) (idx : option Z) (x : Q)
  | SetInitialCondition (v : var) (k : Z) (x : Q)
  | AssignValue (v : var) (x : Q)
  | LogMessage (t0 t1 : float)           (* the two numbers of the message *)
  | IntegrateUntilTime (t : float) (reached : option float)
                                         (* request, returned clock *)
  | ReportData (t : float)
  | SetProgress (p : Z).

(** ** The monad of the methods

    A method reads and updates a state [X] (the random generator for the
    initializer, the solver for the driver), appends framework calls, and
    either returns or raises.  The calls made before an exception stay
    recorded. *)

Definition M (X A : Type) : Type := X → X * list call * (error + A).

Definition ret {X A} (v : A) : M X A := λ x, (x, [], inr v).

Definition bind {X A B} (m : M X A) (k : A → M X B) : M X B := λ x,
  match m x with
  | (x1, t1, inl e) => (x1, t1, inl e)
  | (x1, t1, inr v) =>
      match k v x1 with
      | (x2, t2, r) => (x2, t1 ++ t2, r)
      end
  end.

Definition raise {X A} (e : error) : M X A := λ x, (x, [], inl e).

Definition emit {X} (cl : call) : M X unit := λ x, (x, [cl], inr tt).

(** The sequencing notations [x ← m; k] and [m;; k] are stdpp's. *)
Global Instance M_ret {X} : MRet (M X) := λ A v, ret v.
Global Instance M_bind {X} : MBind (M X) := λ A B k m, bind m k.

(** A [for] loop without [break]. *)
Fixpoint for_each {X A} (xs : list A) (body : A → M X unit) : M X unit :=
  match xs with
  | [] => mret tt
  | y :: ys => body y;; for_each ys body
  end.

Definition trace_of {X A} (o : X * list call * (error + A)) : list call := o.1.2.
Definition result_of {X A} (o : X * list call * (error + A)) : error + A := o.2.
Definition state_of {X A} (o : X * list call * (error + A)) : X := o.1.1.

(** Python's [range(n)] for an integer [n]. *)
Definition range (n : Z) : list Z := seqZ 0 n.

(** [range(x)] for a table entry: a float is rejected with [TypeError]. *)
Definition py_range {X} (x : pynum) : M X (list Z) :=
  match x with
  | PyInt n => mret (range n)
  | PyFloat _ => raise TypeError
  end.

(** ** The simulation object *)

Record SimPETS : Type := {
  ndD_s : SystemConfig;
  ndD_e : ElectrodeConfig;
  tScale : option float;            (* None: the constructor's default *)
  dataPrev : option checkpoint      (* None: the attribute was never set *)
}.

(** ** SetUpParametersAndDomains *)

Definition SetUpParametersAndDomains {X} (self : SimPETS) : M X unit :=
  let ndD := ndD_s self in
  (if 1 <=? Nvol ndD Sep
   then emit (CreateArray (DmnCell Sep) (Nvol ndD Sep))
   else mret tt);;
  for_each (trodes ndD) (λ l,
    emit (CreateArray (DmnCell (Trode l)) (Nvol ndD (Trode l)));;
    emit (CreateArray (DmnPart l) (Npart ndD l));;
    for_each (range (Nvol ndD (Trode l))) (λ i,
      for_each (range (Npart ndD l)) (λ j,
        emit (CreateArray (PartDmn l i j) (py_int (psd_num ndD l i j)))))).

(** ** numpy on one-dimensional arrays and on the checkpoint *)

Global Instance Q_inhabited : Inhabited Q := populate 0%Q.

Definition Qsum (xs : list Q) : Q := foldr Qplus 0%Q xs.

(** [np.mean]: the sum over the length.  On the empty array numpy gives
    nan with a warning; here the quotient by zero is [0]; the value is
    never read in that case. *)
Definition np_mean (xs : list Q) : Q :=
  (Qsum xs / inject_Z (Z.of_nat (length xs)))%Q.

Definition epsrnd : Q := 1 # 10000.

(** [epsrnd*(u - 0.5)], elementwise. *)
Definition perturb (us : list Q) : list Q :=
  (λ u, epsrnd * (u - (1 # 2)))%Q <$> us.

(** [rnd -= np.mean(rnd)]. *)
Definition demean (xs : list Q) : list Q :=
  (λ x, x - np_mean xs)%Q <$> xs.

(** [np.random.rand(n)]: [n] fresh uniform samples.  The generator is an
    oracle [tape] (the samples it will produce, in order) and the state
    counts how many were consumed.  A float size is a [TypeError], a
    negative one a [ValueError]. *)
Definition np_random_rand (tape : nat → Q) (n : pynum) : M nat (list Q) :=
  match n with
  | PyFloat _ => raise TypeError
  | PyInt z =>
      if z <? 0 then raise ValueError
      else λ d, ((d + Z.to_nat z)%nat, [], inr (tape <$> seq d (Z.to_nat z)))
  end.

(** [xs[k]] for [k] coming from a [range]. *)
Definition getitem {X} (xs : list Q) (k : Z) : M X Q :=
  match xs !! Z.to_nat k with
  | Some v => mret v
  | None => raise IndexError
  end.

(** [arr[0,-1]] and [arr[-1,i]] on a two-dimensional array. *)
Definition at_0_last (arr : matrix) : option Q :=
  row ← arr !! 0%nat; last row.

Definition at_last (arr : matrix) (i : Z) : option Q :=
  row ← last arr; row !! Z.to_nat i.

(** [dPrev[key][0,-1]] and [dPrev[key][-1,i]]. *)
Definition dPrev_0_last {X} (dPrev : checkpoint) (key : string) : M X Q :=
  match dPrev !! key with
  | None => raise (KeyError key)
  | Some arr =>
      match at_0_last arr with
      | Some v => mret v
      | None => raise IndexError
      end
  end.

Definition dPrev_last {X} (dPrev : checkpoint) (key : string) (i : Z) : M X Q :=
  match dPrev !! key with
  | None => raise (KeyError key)
  | Some arr =>
      match at_last arr i with
      | Some v => mret v
      | None => raise IndexError
      end
  end.

(** ["partTrode{l}vol{i}part{j}_".format(l=l, i=i, j=j)] *)
Definition partStr (l : trode) (i j : Z) : string :=
  "partTrode" +:+ label l +:+ "vol" +:+ pretty i +:+ "part" +:+ pretty j +:+ "_".

(** [osp.join(d, f)] for a relative [f]. *)
Definition ends_with_slash (d : string) : bool :=
  match last (String.list_ascii_of_string d) with
  | Some ch => bool_decide (ch = "/"%char)
  | None => false
  end.

Definition osp_join (d f : string) : string :=
  if bool_decide (d = "") then f
  else if ends_with_slash d then d +:+ f
  else d +:+ "/" +:+ f.

(** ** __init__

    [loadmat] stands for [scipy.io.loadmat] on the file system of the run.
    The construction of the model [mod_cell.ModCell] is outside [sim.py]. *)

Definition set_prev (s : SystemConfig) (cur phi : Q) : SystemConfig :=
  {| Nvol := Nvol s; Npart := Npart s; trodes := trodes s;
     psd_num := psd_num s; cs0 := cs0 s; c0 := c0 s;
     phi_cathode := phi_cathode s; prevDir := prevDir s;
     oneVarTypes := oneVarTypes s; twoVarTypes := twoVarTypes s;
     currPrev := cur; phiPrev := phi |}.

Definition lookup_0_last (d : checkpoint) (key : string) : error + Q :=
  match d !! key with
  | None => inl (KeyError key)
  | Some arr =>
      match at_0_last arr with
      | Some v => inr v
      | None => inl IndexError
      end
  end.

Definition init (loadmat : string → error + checkpoint)
    (ndD_s : option SystemConfig) (ndD_e : option ElectrodeConfig)
    (tScale : option float) : error + SimPETS :=
  match ndD_s, ndD_e with
  | Some s, Some e =>
      if negb (String.eqb (prevDir s) "false") then
        match loadmat (osp_join (prevDir s) "output_data.mat") with
        | inl err => inl err
        | inr d =>
            match lookup_0_last d "current" with
            | inl err => inl err
            | inr cur =>
                match lookup_0_last d "phi_applied" with
                | inl err => inl err
                | inr phi =>
                    inr {| ndD_s := set_prev s cur phi; ndD_e := e;
                           tScale := tScale; dataPrev := Some d |}
                end
            end
        end
      else
        inr {| ndD_s := set_prev s 0%Q 0%Q; ndD_e := e;
               tScale := tScale; dataPrev := None |}
  | _, _ => inl (Exception "Need input parameter dictionaries")
  end.

(** ** SetUpVariables *)

(** Lines 69-90: one particle, fresh start. *)
Definition fresh_particle (tape : nat → Q) (self : SimPETS)
    (l : trode) (i j : Z) : M nat unit :=
  let cs0 := cs0 (ndD_s self) l in
  let Nij := psd_num (ndD_s self) l i j in
  let solidType := indvPart_type (ndD_e self) l i j in
  if bool_decide (solidType ∈ oneVarTypes (ndD_s self)) then
    emit (SetInitialGuess (part l i j F_cbar) None cs0);;
    ks ← py_range Nij;
    for_each ks (λ k, emit (SetInitialCondition (part l i j F_c) k cs0))
  else if bool_decide (solidType ∈ twoVarTypes (ndD_s self)) then
    emit (SetInitialGuess (part l i j F_c1bar) None cs0);;
    emit (SetInitialGuess (part l i j F_c2bar) None cs0);;
    emit (SetInitialGuess (part l i j F_cbar) None cs0);;
    u1 ← np_random_rand tape Nij;
    u2 ← np_random_rand tape Nij;
    let rnd1 := demean (perturb u1) in
    let rnd2 := demean (perturb u2) in
    ks ← py_range Nij;
    for_each ks (λ k,
      r1 ← getitem rnd1 k;
      emit (SetInitialCondition (part l i j F_c1) k (cs0 + r1)%Q);;
      r2 ← getitem rnd2 k;
      emit (SetInitialCondition (part l i j F_c2) k (cs0 + r2)%Q))
  else mret tt.

(** Lines 55-102: the fresh-start branch. *)
Definition SetUpVariables_fresh (tape : nat → Q) (self : SimPETS) : M nat unit :=
  let ndD_s := ndD_s self in
  for_each (trodes ndD_s) (λ l,
    emit (SetInitialGuess (ffrac l) None (cs0 ndD_s l));;
    for_each (range (Nvol ndD_s (Trode l))) (λ i,
      emit (SetInitialGuess (R_Vp l) (Some i) 0%Q);;
      (if bool_decide (l = Anode)
       then emit (SetInitialGuess (phi_bulk l) (Some i) 0%Q)
       else emit (SetInitialGuess (phi_bulk l) (Some i) (phi_cathode ndD_s)));;
      for_each (range (Npart ndD_s l)) (λ j, fresh_particle tape self l i j)));;
  for_each (range (Nvol ndD_s Sep)) (λ i,
    emit (SetInitialCondition (c_lyte Sep) i (c0 ndD_s));;
    emit (SetInitialGuess (phi_lyte Sep) (Some i) 0%Q));;
  for_each (trodes ndD_s) (λ l,
    for_each (range (Nvol ndD_s (Trode l))) (λ i,
      emit (SetInitialCondition (c_lyte (Trode l)) i (c0 ndD_s));;
      emit (SetInitialGuess (phi_lyte (Trode l)) (Some i) 0%Q)));;
  emit (SetInitialGuess phi_applied None 0%Q).

(** Lines 115-137: one particle, restart. *)
Definition restart_particle (self : SimPETS) (dPrev : checkpoint)
    (l : trode) (i j : Z) : M nat unit :=
  let Nij := psd_num (ndD_s self) l i j in
  let solidType := indvPart_type (ndD_e self) l i j in
  let partStr := partStr l i j in
  if bool_decide (solidType ∈ oneVarTypes (ndD_s self)) then
    v ← dPrev_0_last dPrev (partStr +:+ "cbar");
    emit (SetInitialGuess (part l i j F_cbar) None v);;
    ks ← py_range Nij;
    for_each ks (λ k,
      v ← dPrev_last dPrev (partStr +:+ "c") k;
      emit (SetInitialCondition (part l i j F_c) k v))
  else if bool_decide (solidType ∈ twoVarTypes (ndD_s self)) then
    v ← dPrev_0_last dPrev (partStr +:+ "c1bar");
    emit (SetInitialGuess (part l i j F_c1bar) None v);;
    v ← dPrev_0_last dPrev (partStr +:+ "c2bar");
    emit (SetInitialGuess (part l i j F_c2bar) None v);;
    v ← dPrev_0_last dPrev (partStr +:+ "cbar");
    emit (SetInitialGuess (part l i j F_cbar) None v);;
    ks ← py_range Nij;
    for_each ks (λ k,
      v ← dPrev_last dPrev (partStr +:+ "c1") k;
      emit (SetInitialCondition (part l i j F_c1) k v);;
      v ← dPrev_last dPrev (partStr +:+ "c2") k;
      emit (SetInitialCondition (part l i j F_c2) k v))
  else mret tt.

(** Lines 105-151: the restart branch. *)
Definition SetUpVariables_restart (self : SimPETS) : M nat unit :=
  let ndD_s := ndD_s self in
  dPrev ← match dataPrev self with
          | Some d => mret d
          | None => raise AttributeError
          end;
  for_each (trodes ndD_s) (λ l,
    v ← dPrev_0_last dPrev ("ffrac_" +:+ label l);
    emit (SetInitialGuess (ffrac l) None v);;
    for_each (range (Nvol ndD_s (Trode l))) (λ i,
      v ← dPrev_last dPrev ("R_Vp_" +:+ label l) i;
      emit (SetInitialGuess (R_Vp l) (Some i) v);;
      v ← dPrev_last dPrev ("phi_bulk_" +:+ label l) i;
      emit (SetInitialGuess (phi_bulk l) (Some i) v);;
      for_each (range (Npart ndD_s l)) (λ j, restart_particle self dPrev l i j)));;
  for_each (range (Nvol ndD_s Sep)) (λ i,
    v ← dPrev_last dPrev "c_lyte_s" i;
    emit (SetInitialCondition (c_lyte Sep) i v);;
    v ← dPrev_last dPrev "phi_lyte_s" i;
    emit (SetInitialGuess (phi_lyte Sep) (Some i) v));;
  for_each (trodes ndD_s) (λ l,
    for_each (range (Nvol ndD_s (Trode l))) (λ i,
      v ← dPrev_last dPrev ("c_lyte_" +:+ label l) i;
      emit (SetInitialCondition (c_lyte (Trode l)) i v);;
      v ← dPrev_last dPrev ("phi_lyte_" +:+ label l) i;
      emit (SetInitialGuess (phi_lyte (Trode l)) (Some i) v)));;
  v ← dPrev_0_last dPrev "phi_applied";
  emit (SetInitialGuess phi_applied None v).

Definition SetUpVariables (tape : nat → Q) (self : SimPETS) : M nat unit :=
  (if String.eqb (prevDir (ndD_s self)) "false"
   then SetUpVariables_fresh tape self
   else SetUpVariables_restart self);;
  emit (AssignValue dummyVar 0%Q).

(** ** Run

    The solver side of [daeSimulation] (not part of [sim.py]):
    [integrate t] is [IntegrateUntilTime(t, eStopAtModelDiscontinuity, True)]
    acting on the solver state; it returns the clock value reached or
    raises. *)
Record DaeSimulation (S : Type) : Type := {
  integrate : float → S → error + (float * S);
  CurrentTime : S → float;
  TimeHorizon : float;
  ReportingTimes : list float
}.
Arguments integrate {S}.
Arguments CurrentTime {S}.
Arguments TimeHorizon {S}.
Arguments ReportingTimes {S}.

Definition get_CurrentTime {S} (sim : DaeSimulation S) : M S float :=
  λ x, (x, [], inr (CurrentTime sim x)).

Definition call_IntegrateUntilTime {S} (sim : DaeSimulation S) (t : float)
    : M S float :=
  λ x, match integrate sim t x with
       | inl e => (x, [IntegrateUntilTime t None], inl e)
       | inr (time, x') => (x', [IntegrateUntilTime t (Some time)], inr time)
       end.

(** [x * tScale]: a [TypeError] when [tScale] is [None]; a number is
    taken as the float it converts to. *)
Definition times_tScale {S} (x : float) (tScale : option float) : M S float :=
  match tScale with
  | Some ts => mret (float_mul x ts)
  | None => raise TypeError
  end.

(** [int(100. * ct / th)]. *)
Definition percent (ct th : float) : error + Z :=
  match py_truediv (float_mul float_100 ct) th with
  | inl e => inl e
  | inr q => int_of_float q
  end.

Definition progress {S} (ct th : float) : M S Z :=
  λ x, (x, [], percent ct th).

(** The [for nextTime in self.ReportingTimes] loop with its [break]. *)
Fixpoint Run_from {S} (sim : DaeSimulation S) (tScale : option float)
    (times : list float) : M S unit :=
  match times with
  | [] => mret tt
  | nextTime :: rest =>
      ct ← get_CurrentTime sim;
      t0 ← times_tScale ct tScale;
      t1 ← times_tScale nextTime tScale;
      emit (LogMessage t0 t1);;
      time ← call_IntegrateUntilTime sim nextTime;
      ct ← get_CurrentTime sim;
      emit (ReportData ct);;
      ct ← get_CurrentTime sim;
      p ← progress ct (TimeHorizon sim);
      emit (SetProgress p);;
      if SFltb time nextTime then mret tt
      else Run_from sim tScale rest
  end.

Definition Run {S} (sim : DaeSimulation S) (self : SimPETS) : M S unit :=
  Run_from sim (tScale self) (ReportingTimes sim).

(** Projections of a trace used to count the steps of a run. *)
Definition requests (tr : list call) : list float :=
  omap (λ cl, match cl with IntegrateUntilTime t _ => Some t | _ => None end) tr.

Definition is_ReportData (cl : call) : bool :=
  match cl with ReportData _ => true | _ => false end.
Definition is_SetProgress (cl : call) : bool :=
  match cl with SetProgress _ => true | _ => false end.
Definition is_LogMessage (cl : call) : bool :=
  match cl with LogMessage _ _ => true | _ => false end.
Definition is_IntegrateUntilTime (cl : call) : bool :=
  match cl with IntegrateUntilTime _ _ => true | _ => false end.

(** ** Specifications of traces *)

(** [safe m P E Ψ]: whatever the start state, every call [m] issues
    satisfies [P], an exception it raises satisfies [E] and a value it
    returns satisfies [Ψ]. *)
Definition safe {X A} (m : M X A) (P : call → Prop) (E : error → Prop)
    (Ψ : A → Prop) : Prop :=
  ∀ x, Forall P (trace_of (m x)) ∧
       match result_of (m x) with inl e => E e | inr v => Ψ v end.

(** A trace has a contiguous block satisfying [B]. *)
Definition has_block (B : list call → Prop) (tr : list call) : Prop :=
  ∃ pre blk post, tr = pre ++ blk ++ post ∧ B blk.

(** [succeeds m Ψ]: whatever the start state, [m] returns and the value
    satisfies [Ψ]. *)
Definition succeeds {X A} (m : M X A) (Ψ : A → Prop) : Prop :=
  ∀ x, ∃ v, result_of (m x) = inr v ∧ Ψ v.

(** [covers m B]: whatever the start state, [m] returns and its trace
    has a block satisfying [B]. *)
Definition covers {X A} (m : M X A) (B : list call → Prop) : Prop :=
  ∀ x, (∃ v, result_of (m x) = inr v) ∧ has_block B (trace_of (m x)).

(** [pure m]: [m] leaves the state (the random generator) untouched. *)
Definition pure {X A} (m : M X A) : Prop := ∀ x, state_of (m x) = x.

(** The call [cl] initialises variable [v] at index [idx] with [x],
    as a guess or as an initial condition. *)
Definition sets (cl : call) (v : var) (idx : option Z) (x : Q) : Prop :=
  cl = SetInitialGuess v idx x ∨
  ∃ k, idx = Some k ∧ cl = SetInitialCondition v k x.

(** The dispatch on the solid-type tag: the first test that succeeds. *)
Inductive kind : Type := SingleField | TwoField | UnknownKind.

Definition kind_of (self : SimPETS) (l : trode) (i j : Z) : kind :=
  let solidType := indvPart_type (ndD_e self) l i j in
  if bool_decide (solidType ∈ oneVarTypes (ndD_s self)) then SingleField
  else if bool_decide (solidType ∈ twoVarTypes (ndD_s self)) then TwoField
  else UnknownKind.

Definition is_particle (self : SimPETS) (l : trode) (i j : Z) : Prop :=
  l ∈ trodes (ndD_s self) ∧
  0 ≤ i < Nvol (ndD_s self) (Trode l) ∧
  0 ≤ j < Npart (ndD_s self) l.

Definition is_volume (self : SimPETS) (r : region) (i : Z) : Prop :=
  match r with
  | Sep => True
  | Trode l => l ∈ trodes (ndD_s self)
  end ∧ 0 ≤ i < Nvol (ndD_s self) r.

Definition is_point (self : SimPETS) (l : trode) (i j k : Z) : Prop :=
  ∃ n, psd_num (ndD_s self) l i j = PyInt n ∧ 0 ≤ k < n.

(** The variables (with their indices) of the allocated domain. *)
Definition in_domain (self : SimPETS) (v : var) (idx : option Z) : Prop :=
  match v, idx with
  | ffrac l, None => l ∈ trodes (ndD_s self)
  | R_Vp l, Some i => is_volume self (Trode l) i
  | phi_bulk l, Some i => is_volume self (Trode l) i
  | c_lyte r, Some i => is_volume self r i
  | phi_lyte r, Some i => is_volume self r i
  | phi_applied, None => True
  | part l i j f, idx =>
      is_particle self l i j ∧
      match kind_of self l i j, f, idx with
      | SingleField, F_cbar, None => True
      | SingleField, F_c, Some k => is_point self l i j k
      | TwoField, (F_c1bar | F_c2bar | F_cbar), None => True
      | TwoField, (F_c1 | F_c2), Some k => is_point self l i j k
      | _, _, _ => False
      end
  | _, _ => False
  end.

(** The size table holds non-negative integers on the particles. *)
Definition valid_sizes (self : SimPETS) : Prop :=
  ∀ l i j, is_particle self l i j →
    ∃ n, psd_num (ndD_s self) l i j = PyInt n ∧ 0 ≤ n.

(** The configured value of a variable in a fresh start; the per-point
    fields of a two-field particle have none (they are perturbed). *)
Definition fresh_value (self : SimPETS) (v : var) : option Q :=
  match v with
  | ffrac l => Some (cs0 (ndD_s self) l)
  | R_Vp _ => Some 0%Q
  | phi_bulk Anode => Some 0%Q
  | phi_bulk Cathode => Some (phi_cathode (ndD_s self))
  | c_lyte _ => Some (c0 (ndD_s self))
  | phi_lyte _ => Some 0%Q
  | phi_applied => Some 0%Q
  | dummyVar => None
  | part l _ _ (F_c | F_cbar | F_c1bar | F_c2bar) => Some (cs0 (ndD_s self) l)
  | part _ _ _ (F_c1 | F_c2) => None
  end.

(** Which of the two setters a variable receives: an initial condition
    for the differential variables, a guess for the others. *)
Definition is_differential (v : var) : bool :=
  match v with
  | c_lyte _ | part _ _ _ (F_c | F_c1 | F_c2) => true
  | _ => false
  end.

Definition fresh_call (self : SimPETS) (cl : call) : Prop :=
  ∃ v idx x, sets cl v idx x ∧ in_domain self v idx ∧
    (∀ y, fresh_value self v = Some y → x = y) ∧
    (if is_differential v then ∃ k, cl = SetInitialCondition v k x
     else cl = SetInitialGuess v idx x).

(** The checkpoint key and sample a variable is restored from
    (the naming convention of the checkpoint file). *)
Definition field_name (f : pfield) : string :=
  match f with
  | F_c => "c" | F_cbar => "cbar" | F_c1 => "c1" | F_c2 => "c2"
  | F_c1bar => "c1bar" | F_c2bar => "c2bar"
  end.

Definition checkpoint_key (v : var) : string :=
  match v with
  | ffrac l => "ffrac_" +:+ label l
  | R_Vp l => "R_Vp_" +:+ label l
  | phi_bulk l => "phi_bulk_" +:+ label l
  | c_lyte r => "c_lyte_" +:+ region_label r
  | phi_lyte r => "phi_lyte_" +:+ region_label r
  | phi_applied => "phi_applied"
  | dummyVar => "dummyVar"
  | part l i j f => partStr l i j +:+ field_name f
  end.

(** The last time sample: the last column of the single row of a scalar
    quantity, the last row of an array-shaped one. *)
Definition checkpoint_value (d : checkpoint) (v : var) (idx : option Z)
    : option Q :=
  arr ← d !! checkpoint_key v;
  match idx with
  | None => at_0_last arr
  | Some i => at_last arr i
  end.

Definition well_formed_checkpoint (self : SimPETS) (d : checkpoint) : Prop :=
  ∀ v idx, in_domain self v idx → is_Some (checkpoint_value d v idx).

Definition restart_call (self : SimPETS) (d : checkpoint) (cl : call) : Prop :=
  ∃ v idx x, sets cl v idx x ∧ in_domain self v idx ∧
    checkpoint_value d v idx = Some x.

(** The exceptions the statements of [SetUpVariables] can raise. *)
Definition python_error (e : error) : Prop :=
  e = TypeError ∨ e = ValueError ∨ e = IndexError ∨ ∃ key, e = KeyError key.

(** The calls of the initializer on one two-field particle, for the
    perturbations [rnd1] and [rnd2]. *)
Definition two_field_points (self : SimPETS) (l : trode) (i j n : Z)
    (rnd1 rnd2 : list Q) : list call :=
  k ← range n;
  [ SetInitialCondition (part l i j F_c1) k
      (cs0 (ndD_s self) l + rnd1 !!! Z.to_nat k)%Q;
    SetInitialCondition (part l i j F_c2) k
      (cs0 (ndD_s self) l + rnd2 !!! Z.to_nat k)%Q ].

(** [SetUpVariables] does not read the checkpoint at [x]: replacing the
    loaded data changes nothing. *)
Definition with_dataPrev (self : SimPETS) (d : option checkpoint) : SimPETS :=
  {| ndD_s := ndD_s self; ndD_e := ndD_e self; tScale := tScale self;
     dataPrev := d |}.

Definition ignores_checkpoint (tape : nat → Q) (self : SimPETS) (x : nat) : Prop :=
  ∀ d1 d2, SetUpVariables tape (with_dataPrev self d1) x =
           SetUpVariables tape (with_dataPrev self d2) x.

(** ** A small cell used to exercise the definitions

    Two electrodes of one volume each, a one-volume separator; one
    single-field particle in the anode; in the cathode a single-field
    particle, a two-field particle and a particle whose tag is in neither
    kind-set.  Every particle has three points. *)

Definition ex_tape : nat → Q :=
  λ n, match n with
       | 0%nat | 1%nat => 0%Q
       | 2%nat => 9 # 10
       | 3%nat => 1 # 2
       | 4%nat => 1 # 4
       | _ => 3 # 4
       end.

Definition ex_ndD_s (dir : string) : SystemConfig := {|
  Nvol := λ _, 1%Z;
  Npart := λ l, match l with Anode => 1%Z | Cathode => 3%Z end;
  trodes := [Anode; Cathode];
  psd_num := λ _ _ _, PyInt 3;
  cs0 := λ l, match l with Anode => 99 # 100 | Cathode => 1 # 100 end;
  c0 := 1;
  phi_cathode := 17 # 5;
  prevDir := dir;
  oneVarTypes := ["ACR"; "CHR"; "diffn"; "homog"; "homog_sdn"];
  twoVarTypes := ["ACR2"; "CHR2"; "diffn2"; "homog2"; "homog2_sdn"];
  currPrev := 0;
  phiPrev := 0
|}%Q.

Definition ex_ndD_e : ElectrodeConfig := {|
  indvPart_type := λ l _ j,
    match l with
    | Anode => "CHR"
    | Cathode => if j =? 0 then "ACR" else if j =? 1 then "CHR2" else "LiFePO4"
    end
|}.

Definition ex_checkpoint : checkpoint :=
  list_to_map [
    ("current", [[0; 1 # 2]]);
    ("phi_applied", [[0; 33 # 10]]);
    ("ffrac_a", [[99 # 100; 9 # 10]]);
    ("ffrac_c", [[1 # 100; 1 # 10]]);
    ("R_Vp_a", [[0]; [-1 # 50]]);
    ("R_Vp_c", [[0]; [1 # 50]]);
    ("phi_bulk_a", [[0]; [0]]);
    ("phi_bulk_c", [[17 # 5]; [33 # 10]]);
    ("c_lyte_s", [[1]; [101 # 100]]);
    ("phi_lyte_s", [[0]; [-1 # 100]]);
    ("c_lyte_a", [[1]; [11 # 10]]);
    ("phi_lyte_a", [[0]; [-1 # 200]]);
    ("c_lyte_c", [[1]; [9 # 10]]);
    ("phi_lyte_c", [[0]; [-3 # 200]]);
    ("partTrodeavol0part0_cbar", [[99 # 100; 9 # 10]]);
    ("partTrodeavol0part0_c", [[99 # 100; 99 # 100; 99 # 100]; [91 # 100; 9 # 10; 89 # 100]]);
    ("partTrodecvol0part0_cbar", [[1 # 100; 1 # 10]]);
    ("partTrodecvol0part0_c", [[1 # 100; 1 # 100; 1 # 100]; [9 # 100; 1 # 10; 11 # 100]]);
    ("partTrodecvol0part1_c1bar", [[1 # 100; 3 # 20]]);
    ("partTrodecvol0part1_c2bar", [[1 # 100; 1 # 20]]);
    ("partTrodecvol0part1_cbar", [[1 # 100; 1 # 10]]);
    ("partTrodecvol0part1_c1", [[1 # 100; 1 # 100; 1 # 100]; [7 # 50; 3 # 20; 4 # 25]]);
    ("partTrodecvol0part1_c2", [[1 # 100; 1 # 100; 1 # 100]; [1 # 25; 1 # 20; 3 # 50]])
  ]%Q.

Definition ex_fresh : SimPETS :=
  {| ndD_s := ex_ndD_s "false"; ndD_e := ex_ndD_e; tScale := Some (dyadic 1 0);
     dataPrev := None |}.

Definition ex_restart : SimPETS :=
  {| ndD_s := ex_ndD_s "out/prev"; ndD_e := ex_ndD_e; tScale := Some (dyadic 1 0);
     dataPrev := Some ex_checkpoint |}.

(** The restart-directory field holds the word "none". *)
Definition ex_none : SimPETS :=
  {| ndD_s := ex_ndD_s "none"; ndD_e := ex_ndD_e; tScale := Some (dyadic 1 0);
     dataPrev := None |}.

(** Float entries in the size table, for the domain builder. *)
Definition ex_float_sizes : SimPETS :=
  {| ndD_s := {| Nvol := λ r, match r with Sep => 0%Z | _ => 1%Z end;
                 Npart := λ _, 1%Z;
                 trodes := [Cathode];
                 psd_num := λ _ _ _, PyFloat (37 # 10);
                 cs0 := λ _, 1 # 100; c0 := 1; phi_cathode := 17 # 5;
                 prevDir := "false";
                 oneVarTypes := ["ACR"]; twoVarTypes := ["ACR2"];
                 currPrev := 0; phiPrev := 0 |}%Q;
     ndD_e := {| indvPart_type := λ _ _ _, "ACR" |};
     tScale := Some (dyadic 1 0); dataPrev := None |}.

(** Solver stubs over report times 1, 2, 3.  The state is the clock and
    the number of integration calls served. *)
Definition ex_reaching : DaeSimulation (float * nat) := {|
  integrate := λ t x, inr (t, (t, S x.2));
  CurrentTime := λ x, x.1;
  TimeHorizon := dyadic 3 0;
  ReportingTimes := [dyadic 1 0; dyadic 2 0; dyadic 3 0]
|}.

(** The second call stops at a discontinuity, half-way (at 1.5). *)
Definition ex_halting : DaeSimulation (float * nat) := {|
  integrate := λ t x,
    if (x.2 =? 1)%nat then inr (dyadic 3 (-1), (dyadic 3 (-1), S x.2))
    else inr (t, (t, S x.2));
  CurrentTime := λ x, x.1;
  TimeHorizon := dyadic 3 0;
  ReportingTimes := [dyadic 1 0; dyadic 2 0; dyadic 3 0]
|}.


(** A stub that stops short in its first call, with a zero horizon. *)
Definition ex_halting_zero_horizon : DaeSimulation (float * nat) := {|
  integrate := λ t x, inr (dyadic 1 (-1), (dyadic 1 (-1), S x.2));
  CurrentTime := λ x, x.1;
  TimeHorizon := S754_zero false;
  ReportingTimes := [dyadic 1 0; dyadic 2 0]
|}.

(** Large times: the one report time and the horizon are [2^1020], of
    which a hundred times is no longer a finite float. *)
Definition ex_large_times : DaeSimulation (float * nat) := {|
  integrate := λ t x, inr (t, (t, S x.2));
  CurrentTime := λ x, x.1;
  TimeHorizon := dyadic 1 1020;
  ReportingTimes := [dyadic 1 1020]
|}.

(** The example cell built without a time scale. *)
Definition ex_no_tScale : SimPETS :=
  {| ndD_s := ex_ndD_s "false"; ndD_e := ex_ndD_e; tScale := None;
     dataPrev := None |}.

(** What the domain builder is to allocate: the domain and its size. *)
Definition allocated (self : SimPETS) (d : domain) (n : Z) : Prop :=
  match d with
  | DmnCell Sep => 1 ≤ Nvol (ndD_s self) Sep ∧ n = Nvol (ndD_s self) Sep
  | DmnCell (Trode l) =>
      l ∈ trodes (ndD_s self) ∧ n = Nvol (ndD_s self) (Trode l)
  | DmnPart l => l ∈ trodes (ndD_s self) ∧ n = Npart (ndD_s self) l
  | PartDmn l i j =>
      is_particle self l i j ∧ n = py_int (psd_num (ndD_s self) l i j)
  end.

(** The perturbation built from the [n] samples that follow the first
    [d] ones: scaled, then de-meaned. *)
Definition perturbation (tape : nat → Q) (d n : nat) : list Q :=
  demean (perturb (tape <$> seq d n)).

(** The calls of the initializer on one particle in a fresh start. *)
Definition single_field_calls (self : SimPETS) (l : trode) (i j n : Z)
    : list call :=
  SetInitialGuess (part l i j F_cbar) None (cs0 (ndD_s self) l) ::
  ((λ k, SetInitialCondition (part l i j F_c) k (cs0 (ndD_s self) l)) <$> range n).

Definition two_field_guesses (self : SimPETS) (l : trode) (i j : Z) : list call :=
  [ SetInitialGuess (part l i j F_c1bar) None (cs0 (ndD_s self) l);
    SetInitialGuess (part l i j F_c2bar) None (cs0 (ndD_s self) l);
    SetInitialGuess (part l i j F_cbar) None (cs0 (ndD_s self) l) ].

(** The block that restores variable [v] at [idx]: one setter call
    carrying the checkpoint's last-sample value. *)
Definition restores (d : checkpoint) (v : var) (idx : option Z)
    (blk : list call) : Prop :=
  ∃ x cl, checkpoint_value d v idx = Some x ∧ blk = [cl] ∧ sets cl v idx x.


(** The calls of the step taken from solver state [x] when the solver
    answers [time] and moves to [x'], up to the data-recording call, and
    with the progress observation [p]. *)
Definition recorded_calls {S} (sim : DaeSimulation S) (ts : float) (t : float)
    (x : S) (time : float) (x' : S) : list call :=
  [ LogMessage (float_mul (CurrentTime sim x) ts) (float_mul t ts);
    IntegrateUntilTime t (Some time);
    ReportData (CurrentTime sim x') ].

Definition step_calls {S} (sim : DaeSimulation S) (ts : float) (t : float)
    (x : S) (time : float) (x' : S) (p : Z) : list call :=
  recorded_calls sim ts t x time x' ++ [SetProgress p].




(** [m] returns (raises nothing) from the state [x]. *)
Definition returns {X A} (m : M X A) (x : X) : Prop :=
  ∃ v, result_of (m x) = inr v.

(** What a call writes to: the variable and index of a setter or of an
    assignment, the domain of an allocation. *)
Inductive target : Type :=
  | T_var (v : var) (idx : option Z)
  | T_domain (d : domain)
  | T_none.

Definition target_of (cl : call) : target :=
  match cl with
  | CreateArray d _ => T_domain d
  | SetInitialGuess v idx _ => T_var v idx
  | SetInitialCondition v k _ => T_var v (Some k)
  | AssignValue v _ => T_var v None
  | _ => T_none
  end.

(** [distinct m T]: whatever the start state, no two calls of [m] write
    to the same target, and every target written satisfies [T]. *)
Definition distinct {X A} (m : M X A) (T : target → Prop) : Prop :=
  ∀ x, NoDup (target_of <$> trace_of (m x)) ∧
       Forall T (target_of <$> trace_of (m x)).

(** The sizes a fresh start can work with: an integer for a single-field
    particle, a non-negative integer for a two-field one; the size of a
    particle of unknown kind is never read. *)
Definition fresh_sizes_ok (self : SimPETS) : Prop :=
  ∀ l i j, is_particle self l i j →
    match kind_of self l i j with
    | SingleField => ∃ n, psd_num (ndD_s self) l i j = PyInt n
    | TwoField => ∃ n, psd_num (ndD_s self) l i j = PyInt n ∧ 0 ≤ n
    | UnknownKind => True
    end.

(** The sizes a restart can work with: an integer for every particle of
    a known kind. *)
Definition restart_sizes_ok (self : SimPETS) : Prop :=
  ∀ l i j, is_particle self l i j →
    match kind_of self l i j with
    | SingleField | TwoField => ∃ n, psd_num (ndD_s self) l i j = PyInt n
    | UnknownKind => True
    end.

(** The same simulation with other configured initial values. *)
Definition with_initial_values (self : SimPETS) (cs : trode → Q) (c phi : Q)
    : SimPETS :=
  {| ndD_s := {| Nvol := Nvol (ndD_s self); Npart := Npart (ndD_s self);
                 trodes := trodes (ndD_s self);
                 psd_num := psd_num (ndD_s self);
                 cs0 := cs; c0 := c; phi_cathode := phi;
                 prevDir := prevDir (ndD_s self);
                 oneVarTypes := oneVarTypes (ndD_s self);
                 twoVarTypes := twoVarTypes (ndD_s self);
                 currPrev := currPrev (ndD_s self);
                 phiPrev := phiPrev (ndD_s self) |};
     ndD_e := ndD_e self; tScale := tScale self; dataPrev := dataPrev self |}.

(** A file system for the example: the checkpoint sits in "out/prev". *)
Definition ex_loadmat (path : string) : error + checkpoint :=
  if String.eqb path "out/prev/output_data.mat" then inr ex_checkpoint
  else inl IOError.

(** A solver stub that fails in its second call. *)
Definition ex_failing : DaeSimulation (float * nat) := {|
  integrate := λ t x,
    if (x.2 =? 1)%nat then inl SolverError else inr (t, (t, S x.2));
  CurrentTime := λ x, x.1;
  TimeHorizon := dyadic 3 0;
  ReportingTimes := [dyadic 1 0; dyadic 2 0; dyadic 3 0]
|}.

(** The example cell with a single point in every particle. *)
Definition ex_one_point : SimPETS :=
  {| ndD_s := {| Nvol := λ _, 1%Z;
                 Npart := λ l, match l with Anode => 1%Z | Cathode => 3%Z end;
                 trodes := [Anode; Cathode];
                 psd_num := λ _ _ _, PyInt 1;
                 cs0 := λ l, match l with Anode => 99 # 100 | Cathode => 1 # 100 end;
                 c0 := 1; phi_cathode := 17 # 5;
                 prevDir := "false";
                 oneVarTypes := ["ACR"; "CHR"; "diffn"; "homog"; "homog_sdn"];
                 twoVarTypes := ["ACR2"; "CHR2"; "diffn2"; "homog2"; "homog2_sdn"];
                 currPrev := 0; phiPrev := 0 |}%Q;
     ndD_e := ex_ndD_e; tScale := Some (dyadic 1 0); dataPrev := None |}.

(** The block is one setter call on variable [v] at [idx]. *)
Definition writes (v : var) (idx : option Z) (blk : list call) : Prop :=
  ∃ cl y, blk = [cl] ∧ sets cl v idx y.

(** The exceptions of a restart from the checkpoint [d]: a float size
    ([TypeError]), a stored array that is too small ([IndexError]), a
    key the checkpoint does not have ([KeyError], naming the key). *)
Definition restart_error (d : checkpoint) (e : error) : Prop :=
  e = TypeError ∨
  (e = IndexError ∧ ∃ key, is_Some (d !! key)) ∨
  ∃ key, e = KeyError key ∧ d !! key = None.

(** The array a distributed variable is indexed over. *)
Definition domain_of (v : var) : option domain :=
  match v with
  | part l i j _ => Some (PartDmn l i j)
  | R_Vp l | phi_bulk l => Some (DmnCell (Trode l))
  | c_lyte r | phi_lyte r => Some (DmnCell r)
  | _ => None
  end.

(** [silent m]: [m] issues no call. *)
Definition silent {X A} (m : M X A) : Prop := ∀ x, trace_of (m x) = [].

(** Where a target belongs: to the fields [fs] of one particle (at point
    [k]), to a particle, to a volume of an electrode, to an electrode;
    to the electrolyte of a volume or of an electrode. *)
Definition target_fields (l : trode) (i j : Z) (fs : list pfield) (t : target) : Prop :=
  match t with
  | T_var (part l' i' j' f) _ => l' = l ∧ i' = i ∧ j' = j ∧ f ∈ fs
  | _ => False
  end.

Definition target_point (l : trode) (i j : Z) (fs : list pfield) (k : Z)
    (t : target) : Prop :=
  match t with
  | T_var (part l' i' j' f) (Some k') => l' = l ∧ i' = i ∧ j' = j ∧ k' = k ∧ f ∈ fs
  | _ => False
  end.

Definition target_in_particle (l : trode) (i j : Z) (t : target) : Prop :=
  match t with
  | T_var (part l' i' j' _) _ => l' = l ∧ i' = i ∧ j' = j
  | _ => False
  end.

Definition target_in_volume (l : trode) (i : Z) (t : target) : Prop :=
  match t with
  | T_var (R_Vp l') (Some i') | T_var (phi_bulk l') (Some i') => l' = l ∧ i' = i
  | T_var (part l' i' _ _) _ => l' = l ∧ i' = i
  | _ => False
  end.

Definition target_in_trode (l : trode) (t : target) : Prop :=
  match t with
  | T_var (ffrac l') None => l' = l
  | T_var (R_Vp l') (Some _) | T_var (phi_bulk l') (Some _) => l' = l
  | T_var (part l' _ _ _) _ => l' = l
  | _ => False
  end.

Definition target_lyte (r : region) (i : Z) (t : target) : Prop :=
  match t with
  | T_var (c_lyte r') (Some i') | T_var (phi_lyte r') (Some i') => r' = r ∧ i' = i
  | _ => False
  end.

(** The arrays of one electrode, of one of its volumes. *)
Definition domain_in_trode (l : trode) (t : target) : Prop :=
  match t with
  | T_domain (DmnCell (Trode l')) | T_domain (DmnPart l') => l' = l
  | T_domain (PartDmn l' _ _) => l' = l
  | _ => False
  end.

Definition domain_in_volume (l : trode) (i : Z) (t : target) : Prop :=
  match t with
  | T_domain (PartDmn l' i' _) => l' = l ∧ i' = i
  | _ => False
  end.

(** [draws m n]: whatever the start state, [m] returns and has consumed
    [n] samples of the random generator. *)
Definition draws {A} (m : M nat A) (n : nat) : Prop :=
  ∀ x, state_of (m x) = (x + n)%nat ∧ returns m x.

(** The samples one particle takes in a fresh start, and those of the
    whole cell, particle by particle in the order of the traversal. *)
Definition samples_of (self : SimPETS) (l : trode) (i j : Z) : nat :=
  match kind_of self l i j, psd_num (ndD_s self) l i j with
  | TwoField, PyInt n => (2 * Z.to_nat n)%nat
  | _, _ => 0%nat
  end.

Definition samples_drawn (self : SimPETS) : nat :=
  sum_list (l ← trodes (ndD_s self);
            i ← range (Nvol (ndD_s self) (Trode l));
            j ← range (Npart (ndD_s self) l);
            [samples_of self l i j]).

(** ** The sizes and samples the specification speaks of

    [z] is [q] truncated toward zero: the integer next to [q] on the
    side of zero. *)
Definition truncation (q : Q) (z : Z) : Prop :=
  (0 <= q → inject_Z z <= q < inject_Z z + 1)%Q ∧
  (q <= 0 → inject_Z z - 1 < q <= inject_Z z)%Q.

(** A discretization count read as an integer: the count itself when it
    is an integer, its truncation when it is supplied as a float. *)
Definition as_integer (x : pynum) (z : Z) : Prop :=
  match x with
  | PyInt n => z = n
  | PyFloat q => truncation q z
  end.

(** What the specification has the domain builder allocate. *)
Definition to_allocate (self : SimPETS) (d : domain) (n : Z) : Prop :=
  match d with
  | DmnCell Sep => 1 ≤ Nvol (ndD_s self) Sep ∧ n = Nvol (ndD_s self) Sep
  | DmnCell (Trode l) =>
      l ∈ trodes (ndD_s self) ∧ n = Nvol (ndD_s self) (Trode l)
  | DmnPart l => l ∈ trodes (ndD_s self) ∧ n = Npart (ndD_s self) l
  | PartDmn l i j =>
      is_particle self l i j ∧ as_integer (psd_num (ndD_s self) l i j) n
  end.

(** The last time sample of a stored quantity, on the shape of the data.
    A scalar quantity is stored as one row of samples: its last sample is
    the last entry of that row.  An array-shaped quantity is stored one
    row per time sample: its last sample at index [i] is entry [i] of the
    last row. *)
Inductive last_sample : matrix → option Z → Q → Prop :=
  | last_sample_scalar (samples : list Q) (y : Q) (rows : matrix) :
      last_sample ((samples ++ [y]) :: rows) None y
  | last_sample_array (rows : matrix) (row : list Q) (i : Z) (y : Q) :
      0 ≤ i → row !! Z.to_nat i = Some y →
      last_sample (rows ++ [row]) (Some i) y.

(** [y] is the last sample the checkpoint holds under [key]; under the
    key of the variable [v]. *)
Definition stored_last (d : checkpoint) (key : string) (idx : option Z) (y : Q)
    : Prop :=
  ∃ arr, d !! key = Some arr ∧ last_sample arr idx y.

Definition last_sample_of (d : checkpoint) (v : var) (idx : option Z) (y : Q)
    : Prop :=
  stored_last d (checkpoint_key v) idx y.

(** The checkpoint holds a last sample for every variable of the
    domain: all required keys, with matching sizes. *)
Definition complete_checkpoint (self : SimPETS) (d : checkpoint) : Prop :=
  ∀ v idx, in_domain self v idx → ∃ y, last_sample_of d v idx y.

(** * Proofs *)

(** ** Rules for the trace specifications *)

Section rules.
Context {X : Type}.
Implicit Types (P : call → Prop) (E : error → Prop) (x : X).

Lemma run_bind {A B} (m : M X A) (k : A → M X B) x :
    (m ≫= k) x =
    match m x with
    | (x1, t1, inl e) => (x1, t1, inl e)
    | (x1, t1, inr v) =>
        match k v x1 with (x2, t2, r) => (x2, t1 ++ t2, r) end
    end.
  Proof. reflexivity. Qed.

Lemma safe_ret {A} (v : A) P E (Ψ : A → Prop) :
    Ψ v → safe (mret v : M X A) P E Ψ.
  Proof. intros Hv x. split; [constructor | exact Hv]. Qed.

Lemma safe_raise {A} e P E (Ψ : A → Prop) :
    E e → safe (raise e : M X A) P E Ψ.
  Proof. intros He x. split; [constructor | exact He]. Qed.

Lemma safe_emit cl P E (Ψ : unit → Prop) :
    P cl → Ψ tt → safe (emit cl : M X unit) P E Ψ.
  Proof. intros Hc Hv x. split; [repeat constructor; exact Hc | exact Hv]. Qed.

Lemma safe_bind {A B} (m : M X A) (k : A → M X B) P E Ψ1 Ψ2 :
    safe m P E Ψ1 → (∀ v, Ψ1 v → safe (k v) P E Ψ2) →
    safe (m ≫= k) P E Ψ2.
  Proof.
    intros Hm Hk x. specialize (Hm x). rewrite run_bind.
    unfold trace_of, result_of in *.
    destruct (m x) as [[x1 t1] [e|v]]; simpl in *; [exact Hm|].
    destruct Hm as [Ht Hv]. specialize (Hk v Hv x1).
    unfold trace_of, result_of in Hk.
    destruct (k v x1) as [[x2 t2] r]; simpl in *.
    destruct Hk as [Ht2 Hr]. split; [apply Forall_app; split; assumption | exact Hr].
  Qed.

Lemma safe_weaken {A} (m : M X A) P P' E E' (Ψ Ψ' : A → Prop) :
    safe m P E Ψ → (∀ cl, P cl → P' cl) → (∀ e, E e → E' e) →
    (∀ v, Ψ v → Ψ' v) → safe m P' E' Ψ'.
  Proof.
    intros Hm HP HE HV x. destruct (Hm x) as [Ht Hr]. split.
    - eapply Forall_impl; [exact Ht | exact HP].
    - destruct (result_of (m x)); auto.
  Qed.

Lemma safe_for {A} (xs : list A) (body : A → M X unit) P E (Ψ : unit → Prop) :
    (∀ y, y ∈ xs → safe (body y) P E (λ _, True)) → Ψ tt →
    safe (for_each xs body) P E Ψ.
  Proof.
    intros Hbody Hv. induction xs as [|y ys IH]; simpl.
    - apply safe_ret, Hv.
    - eapply safe_bind.
      + apply Hbody. left.
      + intros _ _. apply IH. intros y' Hy'. apply Hbody. right. exact Hy'.
  Qed.

Lemma succeeds_ret {A} (v : A) (Ψ : A → Prop) :
    Ψ v → succeeds (mret v : M X A) Ψ.
  Proof. intros Hv x. exists v. split; [reflexivity | exact Hv]. Qed.

Lemma succeeds_emit cl (Ψ : unit → Prop) :
    Ψ tt → succeeds (emit cl : M X unit) Ψ.
  Proof. intros Hv x. exists tt. split; [reflexivity | exact Hv]. Qed.

Lemma succeeds_bind {A B} (m : M X A) (k : A → M X B) Ψ1 Ψ2 :
    succeeds m Ψ1 → (∀ v, Ψ1 v → succeeds (k v) Ψ2) →
    succeeds (m ≫= k) Ψ2.
  Proof.
    intros Hm Hk x. destruct (Hm x) as (v & Hr & Hv). rewrite run_bind.
    unfold result_of in *.
    destruct (m x) as [[x1 t1] r]; simpl in *; subst r.
    destruct (Hk v Hv x1) as (w & Hr2 & Hw). unfold result_of in Hr2.
    destruct (k v x1) as [[x2 t2] r]; simpl in *. exists w. split; assumption.
  Qed.

Lemma succeeds_weaken {A} (m : M X A) (Ψ Ψ' : A → Prop) :
    succeeds m Ψ → (∀ v, Ψ v → Ψ' v) → succeeds m Ψ'.
  Proof. intros Hm HV x. destruct (Hm x) as (v & Hr & Hv). eauto. Qed.

Lemma succeeds_for {A} (xs : list A) (body : A → M X unit) (Ψ : unit → Prop) :
    (∀ y, y ∈ xs → succeeds (body y) (λ _, True)) → Ψ tt →
    succeeds (for_each xs body) Ψ.
  Proof.
    intros Hbody Hv. induction xs as [|y ys IH]; simpl.
    - apply succeeds_ret, Hv.
    - eapply succeeds_bind.
      + apply Hbody. left.
      + intros _ _. apply IH. intros y' Hy'. apply Hbody. right. exact Hy'.
  Qed.

Lemma covers_succeeds {A} (m : M X A) B : covers m B → succeeds m (λ _, True).
  Proof. intros Hm x. destruct (Hm x) as [[v Hv] _]. eauto. Qed.

Lemma covers_emit cl (B : list call → Prop) :
    B [cl] → covers (emit cl : M X unit) B.
  Proof.
    intros HB x. split; [exists tt; reflexivity|].
    exists [], [cl], []. split; [reflexivity | exact HB].
  Qed.

  (** The block is issued by the first part of a sequence. *)
Lemma covers_bind_l {A C} (m : M X A) (k : A → M X C) B :
    covers m B → (∀ v, succeeds (k v) (λ _, True)) → covers (m ≫= k) B.
  Proof.
    intros Hm Hk x. destruct (Hm x) as [[v Hr] (pre & blk & post & Ht & HB)].
    rewrite run_bind. unfold result_of, trace_of in *.
    destruct (m x) as [[x1 t1] r]; simpl in *; subst r.
    destruct (Hk v x1) as (w & Hr2 & _). unfold result_of in Hr2.
    destruct (k v x1) as [[x2 t2] r]; simpl in *. split; [eauto|].
    exists pre, blk, (post ++ t2). split; [|exact HB].
    rewrite Ht, <- !app_assoc. reflexivity.
  Qed.

  (** The block is issued by the rest of a sequence. *)
Lemma covers_bind_r {A C} (m : M X A) (k : A → M X C) Ψ B :
    succeeds m Ψ → (∀ v, Ψ v → covers (k v) B) → covers (m ≫= k) B.
  Proof.
    intros Hm Hk x. destruct (Hm x) as (v & Hr & Hv).
    rewrite run_bind. unfold result_of, trace_of in *.
    destruct (m x) as [[x1 t1] r]; simpl in *; subst r.
    destruct (Hk v Hv x1) as [[w Hr2] (pre & blk & post & Ht & HB)].
    unfold result_of, trace_of in *.
    destruct (k v x1) as [[x2 t2] r]; simpl in *. split; [eauto|].
    exists (t1 ++ pre), blk, post. split; [|exact HB].
    rewrite Ht, <- !app_assoc. reflexivity.
  Qed.

  (** The block is issued by one iteration of a loop. *)
Lemma covers_for {A} (xs : list A) (body : A → M X unit) y B :
    y ∈ xs → (∀ y', y' ∈ xs → succeeds (body y') (λ _, True)) →
    covers (body y) B → covers (for_each xs body) B.
  Proof.
    intros Hy Hall Hc. induction xs as [|z zs IH]; [inversion Hy|]. simpl.
    assert (Hrest : succeeds (for_each zs body) (λ _, True)).
    { apply succeeds_for; [|exact I]. intros y' Hy'. apply Hall. right. exact Hy'. }
    apply elem_of_cons in Hy as [->|Hy].
    - apply covers_bind_l; [exact Hc | intros _; exact Hrest].
    - eapply covers_bind_r; [apply Hall; left|].
      intros _ _. apply IH; [exact Hy|]. intros y' Hy'. apply Hall. right. exact Hy'.
  Qed.

Lemma pure_ret {A} (v : A) : pure (mret v : M X A).
  Proof. intros x. reflexivity. Qed.

Lemma pure_raise {A} e : pure (raise e : M X A).
  Proof. intros x. reflexivity. Qed.

Lemma pure_emit cl : pure (emit cl : M X unit).
  Proof. intros x. reflexivity. Qed.

Lemma pure_bind {A C} (m : M X A) (k : A → M X C) :
    pure m → (∀ v, pure (k v)) → pure (m ≫= k).
  Proof.
    intros Hm Hk x. specialize (Hm x). rewrite run_bind. unfold state_of in *.
    destruct (m x) as [[x1 t1] [e|v]]; simpl in *; [exact Hm|].
    specialize (Hk v x1). unfold state_of in Hk.
    destruct (k v x1) as [[x2 t2] r]; simpl in *. congruence.
  Qed.

Lemma pure_for {A} (xs : list A) (body : A → M X unit) :
    (∀ y, pure (body y)) → pure (for_each xs body).
  Proof.
    intros Hbody. induction xs as [|y ys IH]; simpl.
    - apply pure_ret.
    - apply pure_bind; [apply Hbody | intros _; exact IH].
  Qed.

  (** A loop whose body only issues calls: the calls of its iterations,
    in order. *)
Lemma for_each_emit {A} (xs : list A) (f : A → list call) (body : A → M X unit) x :
    (∀ y x', y ∈ xs → body y x' = (x', f y, inr tt)) →
    for_each xs body x = (x, xs ≫= f, inr tt).
  Proof.
    intros Hbody. induction xs as [|y ys IH]; [reflexivity|].
    simpl. rewrite run_bind, Hbody by left.
    rewrite IH by (intros; apply Hbody; right; assumption). reflexivity.
  Qed.
End rules.

Section derived_rules.
Context {X : Type}.

Lemma safe_seq {A} (m : M X unit) (k : M X A) P E Ψ :
    safe m P E (λ _, True) → safe k P E Ψ → safe (m;; k) P E Ψ.
  Proof. intros Hm Hk. eapply safe_bind; [exact Hm | intros _ _; exact Hk]. Qed.

Lemma succeeds_seq {A} (m : M X unit) (k : M X A) Ψ :
    succeeds m (λ _, True) → succeeds k Ψ → succeeds (m;; k) Ψ.
  Proof. intros Hm Hk. eapply succeeds_bind; [exact Hm | intros _ _; exact Hk]. Qed.

Lemma covers_seq_l {A} (m : M X unit) (k : M X A) B :
    covers m B → succeeds k (λ _, True) → covers (m;; k) B.
  Proof. intros Hm Hk. apply covers_bind_l; [exact Hm | intros _; exact Hk]. Qed.

Lemma covers_seq_r {A} (m : M X unit) (k : M X A) B :
    succeeds m (λ _, True) → covers k B → covers (m;; k) B.
  Proof. intros Hm Hk. eapply covers_bind_r; [exact Hm | intros _ _; exact Hk]. Qed.

Lemma covers_call {A} (m : M X A) cl x :
    covers m (λ blk, blk = [cl]) → cl ∈ trace_of (m x).
  Proof.
    intros Hm. destruct (Hm x) as [_ (pre & blk & post & -> & ->)].
    apply elem_of_app. right. left.
  Qed.

Lemma safe_never_raises {A} (m : M X A) P Ψ x :
    safe m P (λ _, False) Ψ → ∃ v, result_of (m x) = inr v.
  Proof.
    intros Hm. destruct (Hm x) as [_ Hr].
    destruct (result_of (m x)) as [e|v]; [contradiction | eauto].
  Qed.
End derived_rules.

Lemma elem_of_range (n k : Z) : k ∈ range n ↔ 0 ≤ k < n.
Proof. unfold range. rewrite elem_of_seqZ. lia. Qed.

Create HintDb run.
#[local] Hint Resolve succeeds_emit succeeds_ret : run.
#[local] Hint Extern 1 (True) => exact I : run.

(** ** The domain builder *)

Lemma SetUpParametersAndDomains_safe {X} (self : SimPETS) :
  safe (SetUpParametersAndDomains (X := X) self)
    (λ cl, ∃ d n, cl = CreateArray d n ∧ allocated self d n)
    (λ _, False) (λ _, True).
Proof.
  unfold SetUpParametersAndDomains. apply safe_seq.
  - destruct (1 <=? Nvol (ndD_s self) Sep) eqn:Hs.
    + apply safe_emit; [|exact I]. apply Z.leb_le in Hs.
      eexists _, _. split; [reflexivity|]. simpl. auto.
    + apply safe_ret. exact I.
  - apply safe_for; [|exact I]. intros l Hl.
    apply safe_seq.
    { apply safe_emit; [|exact I]. eexists _, _. split; [reflexivity|]. simpl. auto. }
    apply safe_seq.
    { apply safe_emit; [|exact I]. eexists _, _. split; [reflexivity|]. simpl. auto. }
    apply safe_for; [|exact I]. intros i Hi.
    apply safe_for; [|exact I]. intros j Hj.
    apply safe_emit; [|exact I]. eexists _, _. split; [reflexivity|].
    apply elem_of_range in Hi, Hj. simpl. unfold is_particle. auto.
Qed.

Lemma SetUpParametersAndDomains_sep_succeeds {X} (self : SimPETS) :
  succeeds (X := X)
    (if 1 <=? Nvol (ndD_s self) Sep
     then emit (CreateArray (DmnCell Sep) (Nvol (ndD_s self) Sep))
     else mret tt) (λ _, True).
Proof. destruct (1 <=? _); auto with run. Qed.

Lemma particle_domains_succeed {X} (self : SimPETS) (l : trode) :
  succeeds (X := X)
    (for_each (range (Nvol (ndD_s self) (Trode l))) (λ i,
       for_each (range (Npart (ndD_s self) l)) (λ j,
         emit (CreateArray (PartDmn l i j) (py_int (psd_num (ndD_s self) l i j))))))
    (λ _, True).
Proof.
  apply succeeds_for; [|exact I]. intros i _.
  apply succeeds_for; [|exact I]. intros j _. auto with run.
Qed.

Lemma trode_domains_succeed {X} (self : SimPETS) (l : trode) :
  succeeds (X := X)
    (emit (CreateArray (DmnCell (Trode l)) (Nvol (ndD_s self) (Trode l)));;
     emit (CreateArray (DmnPart l) (Npart (ndD_s self) l));;
     for_each (range (Nvol (ndD_s self) (Trode l))) (λ i,
       for_each (range (Npart (ndD_s self) l)) (λ j,
         emit (CreateArray (PartDmn l i j) (py_int (psd_num (ndD_s self) l i j))))))
    (λ _, True).
Proof.
  apply succeeds_seq; [auto with run|]. apply succeeds_seq; [auto with run|].
  apply particle_domains_succeed.
Qed.

Lemma SetUpParametersAndDomains_covers {X} (self : SimPETS) d n :
  allocated self d n →
  covers (SetUpParametersAndDomains (X := X) self) (λ blk, blk = [CreateArray d n]).
Proof.
  intros Hd. unfold SetUpParametersAndDomains.
  assert (Hloop : ∀ l', l' ∈ trodes (ndD_s self) →
    succeeds (X := X)
      (emit (CreateArray (DmnCell (Trode l')) (Nvol (ndD_s self) (Trode l')));;
       emit (CreateArray (DmnPart l') (Npart (ndD_s self) l'));;
       for_each (range (Nvol (ndD_s self) (Trode l'))) (λ i,
         for_each (range (Npart (ndD_s self) l')) (λ j,
           emit (CreateArray (PartDmn l' i j)
                   (py_int (psd_num (ndD_s self) l' i j)))))) (λ _, True)).
  { intros l' _. apply trode_domains_succeed. }
  destruct d as [[|l]|l|l i j]; simpl in Hd.
  - destruct Hd as [Hs ->]. apply covers_seq_l.
    + apply Z.leb_le in Hs. rewrite Hs. apply covers_emit. reflexivity.
    + apply succeeds_for; [exact Hloop | exact I].
  - destruct Hd as [Hl ->].
    apply covers_seq_r; [apply SetUpParametersAndDomains_sep_succeeds|].
    apply (covers_for _ _ l); [exact Hl | exact Hloop |].
    apply covers_seq_l; [apply covers_emit; reflexivity|].
    apply succeeds_seq; [auto with run | apply particle_domains_succeed].
  - destruct Hd as [Hl ->].
    apply covers_seq_r; [apply SetUpParametersAndDomains_sep_succeeds|].
    apply (covers_for _ _ l); [exact Hl | exact Hloop |].
    apply covers_seq_r; [auto with run|].
    apply covers_seq_l; [apply covers_emit; reflexivity|].
    apply particle_domains_succeed.
  - destruct Hd as [(Hl & Hi & Hj) ->].
    apply covers_seq_r; [apply SetUpParametersAndDomains_sep_succeeds|].
    apply (covers_for _ _ l); [exact Hl | exact Hloop |].
    apply covers_seq_r; [auto with run|]. apply covers_seq_r; [auto with run|].
    apply (covers_for _ _ i); [apply elem_of_range; exact Hi | |].
    { intros i' _. apply succeeds_for; [|exact I]. intros j' _. auto with run. }
    apply (covers_for _ _ j); [apply elem_of_range; exact Hj | |].
    { intros j' _. auto with run. }
    apply covers_emit. reflexivity.
Qed.

(** [int] of a float truncates toward zero. *)
Lemma quot_truncates (a : Z) (b : positive) :
  (0 ≤ a → Z.quot a (Z.pos b) * Z.pos b ≤ a < (Z.quot a (Z.pos b) + 1) * Z.pos b) ∧
  (a ≤ 0 → (Z.quot a (Z.pos b) - 1) * Z.pos b < a ≤ Z.quot a (Z.pos b) * Z.pos b).
Proof.
  pose proof (Pos2Z.is_pos b) as Hb.
  split; intros Ha.
  - rewrite Z.quot_div_nonneg by lia.
    pose proof (Z.mul_div_le a (Z.pos b) Hb).
    pose proof (Z.mul_succ_div_gt a (Z.pos b) Hb). lia.
  - pose proof (Z.quot_opp_l (- a) (Z.pos b) ltac:(lia)) as Hq.
    rewrite Z.opp_involutive in Hq. rewrite Hq.
    rewrite Z.quot_div_nonneg by lia.
    pose proof (Z.mul_div_le (- a) (Z.pos b) Hb).
    pose proof (Z.mul_succ_div_gt (- a) (Z.pos b) Hb). lia.
Qed.

Lemma py_int_truncates (q : Q) :
  (0 <= q → inject_Z (py_int (PyFloat q)) <= q < inject_Z (py_int (PyFloat q)) + 1)%Q ∧
  (q <= 0 → inject_Z (py_int (PyFloat q)) - 1 < q <= inject_Z (py_int (PyFloat q)))%Q.
Proof.
  destruct q as [a b]. unfold py_int. simpl Qnum. simpl Qden.
  destruct (quot_truncates a b) as [Hpos Hneg].
  generalize dependent (Z.quot a (Z.pos b)). intros z Hpos Hneg.
  unfold Qle, Qlt. simpl. split; intros Ha; [specialize (Hpos ltac:(lia)) | specialize (Hneg ltac:(lia))]; lia.
Qed.

(** ** The state initializer: what every call looks like *)

Lemma python_error_TypeError : python_error TypeError.
Proof. left. reflexivity. Qed.
Lemma python_error_ValueError : python_error ValueError.
Proof. right. left. reflexivity. Qed.
Lemma python_error_IndexError : python_error IndexError.
Proof. right. right. left. reflexivity. Qed.
Lemma python_error_KeyError key : python_error (KeyError key).
Proof. right. right. right. eexists. reflexivity. Qed.

#[local] Hint Resolve python_error_TypeError python_error_ValueError
  python_error_IndexError python_error_KeyError : run.

Lemma py_range_safe {X} (n : pynum) P :
  safe (py_range (X := X) n) P python_error (λ ks, ∃ z, n = PyInt z ∧ ks = range z).
Proof.
  destruct n as [z|q]; simpl.
  - apply safe_ret. eauto.
  - apply safe_raise. auto with run.
Qed.

Lemma np_random_rand_safe (tape : nat → Q) (n : pynum) P :
  safe (np_random_rand tape n) P python_error
    (λ us, ∃ z d, n = PyInt z ∧ 0 ≤ z ∧ us = tape <$> seq d (Z.to_nat z)).
Proof.
  destruct n as [z|q]; simpl.
  - destruct (z <? 0) eqn:Hz.
    + apply safe_raise. auto with run.
    + intros d. split; [constructor|]. simpl. apply Z.ltb_ge in Hz. eauto.
  - apply safe_raise. auto with run.
Qed.

Lemma getitem_safe {X} (xs : list Q) (k : Z) P :
  safe (getitem (X := X) xs k) P python_error (λ _, True).
Proof.
  unfold getitem. destruct (xs !! Z.to_nat k).
  - apply safe_ret. exact I.
  - apply safe_raise. auto with run.
Qed.

Lemma fresh_call_guess (self : SimPETS) v idx x :
  in_domain self v idx → is_differential v = false →
  (∀ y, fresh_value self v = Some y → x = y) →
  fresh_call self (SetInitialGuess v idx x).
Proof.
  intros Hd Hv Hx. exists v, idx, x. rewrite Hv.
  repeat split; try assumption. left. reflexivity.
Qed.

Lemma fresh_call_condition (self : SimPETS) v k x :
  in_domain self v (Some k) → is_differential v = true →
  (∀ y, fresh_value self v = Some y → x = y) →
  fresh_call self (SetInitialCondition v k x).
Proof.
  intros Hd Hv Hx. exists v, (Some k), x. rewrite Hv.
  repeat split; try assumption; [|eauto]. right. eauto.
Qed.

Lemma kind_of_single (self : SimPETS) l i j :
  indvPart_type (ndD_e self) l i j ∈ oneVarTypes (ndD_s self) →
  kind_of self l i j = SingleField.
Proof. intros H. unfold kind_of. rewrite bool_decide_eq_true_2; done. Qed.

Lemma kind_of_two (self : SimPETS) l i j :
  indvPart_type (ndD_e self) l i j ∉ oneVarTypes (ndD_s self) →
  indvPart_type (ndD_e self) l i j ∈ twoVarTypes (ndD_s self) →
  kind_of self l i j = TwoField.
Proof.
  intros H1 H2. unfold kind_of.
  rewrite bool_decide_eq_false_2, bool_decide_eq_true_2; done.
Qed.

Lemma kind_of_unknown (self : SimPETS) l i j :
  indvPart_type (ndD_e self) l i j ∉ oneVarTypes (ndD_s self) →
  indvPart_type (ndD_e self) l i j ∉ twoVarTypes (ndD_s self) →
  kind_of self l i j = UnknownKind.
Proof.
  intros H1 H2. unfold kind_of. rewrite !bool_decide_eq_false_2; done.
Qed.

(** The three cases of the dispatch. *)
Lemma kind_of_cases (self : SimPETS) l i j :
  (indvPart_type (ndD_e self) l i j ∈ oneVarTypes (ndD_s self) ∧
   kind_of self l i j = SingleField) ∨
  ((indvPart_type (ndD_e self) l i j ∉ oneVarTypes (ndD_s self)) ∧
   indvPart_type (ndD_e self) l i j ∈ twoVarTypes (ndD_s self) ∧
   kind_of self l i j = TwoField) ∨
  ((indvPart_type (ndD_e self) l i j ∉ oneVarTypes (ndD_s self)) ∧
   (indvPart_type (ndD_e self) l i j ∉ twoVarTypes (ndD_s self)) ∧
   kind_of self l i j = UnknownKind).
Proof.
  destruct (decide (indvPart_type (ndD_e self) l i j ∈ oneVarTypes (ndD_s self))) as [H1|H1].
  { left. split; [exact H1 | apply kind_of_single, H1]. }
  destruct (decide (indvPart_type (ndD_e self) l i j ∈ twoVarTypes (ndD_s self))) as [H2|H2].
  - right. left. repeat split; [exact H1 | exact H2 | apply kind_of_two; assumption].
  - right. right. repeat split; [exact H1 | exact H2 | apply kind_of_unknown; assumption].
Qed.

Lemma fresh_particle_safe (tape : nat → Q) (self : SimPETS) l i j :
  is_particle self l i j →
  safe (fresh_particle tape self l i j) (fresh_call self) python_error (λ _, True).
Proof.
  intros Hp. unfold fresh_particle.
  destruct (kind_of_cases self l i j) as [[H1 Hk]|[(H1 & H2 & Hk)|(H1 & H2 & Hk)]].
  - rewrite bool_decide_eq_true_2 by exact H1.
    apply safe_seq.
    { apply safe_emit; [|exact I]. apply fresh_call_guess; simpl; [|done|congruence].
      rewrite Hk. auto. }
    eapply safe_bind; [apply py_range_safe|].
    intros ks (z & Hz & ->). apply safe_for; [|exact I]. intros k Hk'.
    apply elem_of_range in Hk'. apply safe_emit; [|exact I].
    apply fresh_call_condition; simpl; [|done|congruence].
    rewrite Hk. split; [exact Hp|]. exists z. auto.
  - rewrite bool_decide_eq_false_2, bool_decide_eq_true_2 by assumption.
    do 3 (apply safe_seq;
      [apply safe_emit; [|exact I]; apply fresh_call_guess; simpl;
         [rewrite Hk; auto | done | congruence] |]).
    eapply safe_bind; [apply np_random_rand_safe|]. intros u1 _.
    eapply safe_bind; [apply np_random_rand_safe|]. intros u2 _.
    eapply safe_bind; [apply py_range_safe|].
    intros ks (z & Hz & ->). apply safe_for; [|exact I]. intros k Hk'.
    apply elem_of_range in Hk'.
    eapply safe_bind; [apply getitem_safe|]. intros r1 _.
    apply safe_seq.
    { apply safe_emit; [|exact I]. apply fresh_call_condition; simpl; [|done|congruence].
      rewrite Hk. split; [exact Hp|]. exists z. auto. }
    eapply safe_bind; [apply getitem_safe|]. intros r2 _.
    apply safe_emit; [|exact I]. apply fresh_call_condition; simpl; [|done|congruence].
    rewrite Hk. split; [exact Hp|]. exists z. auto.
  - rewrite !bool_decide_eq_false_2 by assumption. apply safe_ret. exact I.
Qed.

Lemma SetUpVariables_fresh_safe (tape : nat → Q) (self : SimPETS) :
  safe (SetUpVariables_fresh tape self) (fresh_call self) python_error (λ _, True).
Proof.
  unfold SetUpVariables_fresh. apply safe_seq.
  { apply safe_for; [|exact I]. intros l Hl. apply safe_seq.
    { apply safe_emit; [|exact I]. apply fresh_call_guess; simpl; [done|done|congruence]. }
    apply safe_for; [|exact I]. intros i Hi. apply elem_of_range in Hi.
    apply safe_seq.
    { apply safe_emit; [|exact I].
      apply fresh_call_guess; simpl; [split; done|done|congruence]. }
    apply safe_seq.
    { destruct (bool_decide (l = Anode)) eqn:Hla.
      - apply bool_decide_eq_true_1 in Hla. subst l.
        apply safe_emit; [|exact I].
        apply fresh_call_guess; simpl; [split; done|done|congruence].
      - apply bool_decide_eq_false_1 in Hla. destruct l; [done|].
        apply safe_emit; [|exact I].
        apply fresh_call_guess; simpl; [split; done|done|congruence]. }
    apply safe_for; [|exact I]. intros j Hj. apply elem_of_range in Hj.
    apply fresh_particle_safe. split; [exact Hl | split; assumption]. }
  apply safe_seq.
  { apply safe_for; [|exact I]. intros i Hi. apply elem_of_range in Hi.
    apply safe_seq.
    - apply safe_emit; [|exact I].
      apply fresh_call_condition; simpl; [split; done|done|congruence].
    - apply safe_emit; [|exact I].
      apply fresh_call_guess; simpl; [split; done|done|congruence]. }
  apply safe_seq.
  { apply safe_for; [|exact I]. intros l Hl.
    apply safe_for; [|exact I]. intros i Hi. apply elem_of_range in Hi.
    apply safe_seq.
    - apply safe_emit; [|exact I].
      apply fresh_call_condition; simpl; [split; done|done|congruence].
    - apply safe_emit; [|exact I].
      apply fresh_call_guess; simpl; [split; done|done|congruence]. }
  apply safe_emit; [|exact I].
  apply fresh_call_guess; simpl; [done|done|congruence].
Qed.

(** ** The state initializer, fresh start: one particle *)

Lemma fresh_particle_single (tape : nat → Q) (self : SimPETS) l i j n d :
  indvPart_type (ndD_e self) l i j ∈ oneVarTypes (ndD_s self) →
  psd_num (ndD_s self) l i j = PyInt n →
  fresh_particle tape self l i j d = (d, single_field_calls self l i j n, inr tt).
Proof.
  intros H1 Hn. unfold fresh_particle.
  rewrite bool_decide_eq_true_2 by exact H1. rewrite Hn. simpl py_range.
  rewrite run_bind. simpl. rewrite run_bind. simpl.
  rewrite (for_each_emit _
    (λ k, [SetInitialCondition (part l i j F_c) k (cs0 (ndD_s self) l)]))
    by reflexivity.
  unfold single_field_calls.
  replace (range n ≫= λ k,
             [SetInitialCondition (part l i j F_c) k (cs0 (ndD_s self) l)])
    with ((λ k, SetInitialCondition (part l i j F_c) k (cs0 (ndD_s self) l))
            <$> range n); [reflexivity|].
  induction (range n) as [|k ks IH]; [reflexivity|]. simpl. f_equal; exact IH.
Qed.

Lemma length_perturbation tape d n : length (perturbation tape d n) = n.
Proof.
  unfold perturbation, demean, perturb.
  rewrite !length_fmap, length_seq. reflexivity.
Qed.

Lemma getitem_in_range {X} (xs : list Q) (k : Z) (x : X) :
  (Z.to_nat k < length xs)%nat →
  getitem xs k x = (x, [], inr (xs !!! Z.to_nat k)).
Proof.
  intros Hk. unfold getitem.
  rewrite (list_lookup_lookup_total_lt xs (Z.to_nat k)) by exact Hk. reflexivity.
Qed.

Lemma fresh_particle_two (tape : nat → Q) (self : SimPETS) l i j n d :
  indvPart_type (ndD_e self) l i j ∉ oneVarTypes (ndD_s self) →
  indvPart_type (ndD_e self) l i j ∈ twoVarTypes (ndD_s self) →
  psd_num (ndD_s self) l i j = PyInt n → 0 ≤ n →
  fresh_particle tape self l i j d =
    ((d + Z.to_nat n + Z.to_nat n)%nat,
     two_field_guesses self l i j ++
     two_field_points self l i j n
       (perturbation tape d (Z.to_nat n))
       (perturbation tape (d + Z.to_nat n) (Z.to_nat n)),
     inr tt).
Proof.
  intros H1 H2 Hn Hpos. unfold fresh_particle.
  rewrite bool_decide_eq_false_2, bool_decide_eq_true_2 by assumption.
  rewrite Hn. simpl py_range. unfold np_random_rand.
  replace (n <? 0) with false by (symmetry; apply Z.ltb_ge; exact Hpos).
  do 6 (rewrite run_bind; simpl).
  fold (perturbation tape d (Z.to_nat n)).
  fold (perturbation tape (d + Z.to_nat n) (Z.to_nat n)).
  rewrite (for_each_emit _
    (λ k, [SetInitialCondition (part l i j F_c1) k
             (cs0 (ndD_s self) l + perturbation tape d (Z.to_nat n) !!! Z.to_nat k)%Q;
           SetInitialCondition (part l i j F_c2) k
             (cs0 (ndD_s self) l +
              perturbation tape (d + Z.to_nat n) (Z.to_nat n) !!! Z.to_nat k)%Q])).
  - reflexivity.
  - intros k x' Hk. apply elem_of_range in Hk.
    rewrite run_bind, getitem_in_range by (rewrite length_perturbation; lia).
    rewrite run_bind. simpl.
    rewrite run_bind, getitem_in_range by (rewrite length_perturbation; lia).
    reflexivity.
Qed.

Lemma fresh_particle_unknown (tape : nat → Q) (self : SimPETS) l i j d :
  indvPart_type (ndD_e self) l i j ∉ oneVarTypes (ndD_s self) →
  indvPart_type (ndD_e self) l i j ∉ twoVarTypes (ndD_s self) →
  fresh_particle tape self l i j d = (d, [], inr tt).
Proof.
  intros H1 H2. unfold fresh_particle.
  rewrite !bool_decide_eq_false_2 by assumption. reflexivity.
Qed.

Lemma fresh_particle_succeeds (tape : nat → Q) (self : SimPETS) l i j :
  valid_sizes self → is_particle self l i j →
  succeeds (fresh_particle tape self l i j) (λ _, True).
Proof.
  intros Hv Hp d. destruct (Hv l i j Hp) as (n & Hn & Hpos). exists tt.
  split; [|exact I].
  destruct (kind_of_cases self l i j) as [[H1 _]|[(H1 & H2 & _)|(H1 & H2 & _)]].
  - rewrite (fresh_particle_single _ _ _ _ _ n) by assumption. reflexivity.
  - rewrite (fresh_particle_two _ _ _ _ _ n) by assumption. reflexivity.
  - rewrite fresh_particle_unknown by assumption. reflexivity.
Qed.

(** ** The state initializer, fresh start: the whole traversal *)

Ltac particle_side :=
  match goal with
  | |- is_particle _ _ _ _ =>
      split; [assumption | split; first [assumption | apply elem_of_range; assumption]]
  | |- _ ∈ range _ => apply elem_of_range; assumption
  | |- _ => assumption
  end.

(** Discharges [succeeds] goals of straight-line code and loops whose
    particle bodies are covered by [lem]. *)
Ltac run_succeeds lem :=
  repeat first
    [ exact I
    | apply succeeds_emit
    | apply succeeds_ret
    | apply succeeds_seq
    | apply succeeds_for; [intros ? ?|]
    | match goal with
      | |- succeeds (if ?b then _ else _) _ => destruct b
      end
    | apply lem; particle_side ].

Lemma SetUpVariables_fresh_succeeds (tape : nat → Q) (self : SimPETS) :
  valid_sizes self → succeeds (SetUpVariables_fresh tape self) (λ _, True).
Proof.
  intros Hv. unfold SetUpVariables_fresh.
  run_succeeds (fresh_particle_succeeds tape self).
Qed.

Lemma fresh_particle_lift (tape : nat → Q) (self : SimPETS) l i j B :
  valid_sizes self → is_particle self l i j →
  covers (fresh_particle tape self l i j) B →
  covers (SetUpVariables_fresh tape self) B.
Proof.
  intros Hv (Hl & Hi & Hj) Hc. unfold SetUpVariables_fresh.
  apply covers_seq_l; [|run_succeeds (fresh_particle_succeeds tape self)].
  apply (covers_for _ _ l); [exact Hl | |].
  { intros l' Hl'. run_succeeds (fresh_particle_succeeds tape self). }
  apply covers_seq_r; [run_succeeds (fresh_particle_succeeds tape self)|].
  apply (covers_for _ _ i); [apply elem_of_range; exact Hi | |].
  { intros i' Hi'. run_succeeds (fresh_particle_succeeds tape self). }
  apply covers_seq_r; [run_succeeds (fresh_particle_succeeds tape self)|].
  apply covers_seq_r; [run_succeeds (fresh_particle_succeeds tape self)|].
  apply (covers_for _ _ j); [apply elem_of_range; exact Hj | |].
  { intros j' Hj'. run_succeeds (fresh_particle_succeeds tape self). }
  exact Hc.
Qed.

(** A particle-level equation gives the block it issues. *)
Lemma covers_of_run {X A} (m : M X A) (B : list call → Prop) :
  (∀ x, ∃ x' pre blk post v, m x = (x', pre ++ blk ++ post, inr v) ∧ B blk) →
  covers m B.
Proof.
  intros Hm x. destruct (Hm x) as (x' & pre & blk & post & v & Heq & HB).
  rewrite Heq. split; [exists v; reflexivity|].
  exists pre, blk, post. split; [reflexivity | exact HB].
Qed.

(** Every call of a block of the trace is in the trace. *)
Lemma has_block_incl (blk tr : list call) cl :
  has_block (λ b, b = blk) tr → cl ∈ blk → cl ∈ tr.
Proof.
  intros (pre & b & post & -> & ->) Hin.
  apply elem_of_app. right. apply elem_of_app. left. exact Hin.
Qed.

(** ** Arithmetic of the perturbations *)

Lemma inject_Z_length_cons {A} (x : A) (xs : list A) :
  (inject_Z (Z.of_nat (length (x :: xs))) == inject_Z (Z.of_nat (length xs)) + 1)%Q.
Proof.
  simpl length. rewrite Nat2Z.inj_succ, <- Z.add_1_r, inject_Z_plus. reflexivity.
Qed.

Lemma inject_Z_length_pos {A} (xs : list A) :
  xs ≠ [] → (0 < inject_Z (Z.of_nat (length xs)))%Q.
Proof.
  intros Hne. destruct xs as [|x xs]; [done|].
  unfold Qlt. simpl. lia.
Qed.

Lemma Qsum_shift (m : Q) (xs : list Q) :
  (Qsum ((λ x, x - m) <$> xs) == Qsum xs - inject_Z (Z.of_nat (length xs)) * m)%Q.
Proof.
  induction xs as [|x xs IH].
  - simpl. ring.
  - rewrite inject_Z_length_cons. simpl. rewrite IH. ring.
Qed.

(** De-meaning makes the sum vanish. *)
Lemma Qsum_demean (xs : list Q) : (Qsum (demean xs) == 0)%Q.
Proof.
  destruct (decide (xs = [])) as [->|Hne]; [reflexivity|].
  unfold demean. rewrite Qsum_shift. unfold np_mean.
  pose proof (inject_Z_length_pos xs Hne) as Hpos.
  field. intros H0. rewrite H0 in Hpos. apply (Qlt_irrefl 0). exact Hpos.
Qed.

(** A sample of the unit interval is scaled into [-0.00005, 0.00005). *)
Lemma perturb_bounds (us : list Q) :
  Forall (λ u, 0 <= u < 1)%Q us →
  Forall (λ r, -(1 # 20000) <= r < 1 # 20000)%Q (perturb us).
Proof.
  intros Hus. unfold perturb. apply Forall_fmap.
  eapply Forall_impl; [exact Hus|]. intros u [H0 H1]. simpl.
  unfold epsrnd. split; lra.
Qed.

Lemma Qsum_bounds (xs : list Q) :
  Forall (λ r, -(1 # 20000) <= r < 1 # 20000)%Q xs →
  (inject_Z (Z.of_nat (length xs)) * -(1 # 20000) <= Qsum xs)%Q ∧
  (Qsum xs <= inject_Z (Z.of_nat (length xs)) * (1 # 20000))%Q ∧
  (xs ≠ [] → Qsum xs < inject_Z (Z.of_nat (length xs)) * (1 # 20000))%Q.
Proof.
  induction 1 as [|x xs [Hlo Hhi] _ (IH1 & IH2 & IH3)].
  - change (inject_Z (Z.of_nat (length (@nil Q)))) with 0%Q. simpl Qsum.
    repeat split; [lra | lra | done].
  - rewrite inject_Z_length_cons. simpl Qsum.
    repeat split; [lra | lra | intros _; lra].
Qed.

Lemma np_mean_bounds (xs : list Q) :
  xs ≠ [] → Forall (λ r, -(1 # 20000) <= r < 1 # 20000)%Q xs →
  (-(1 # 20000) <= np_mean xs < 1 # 20000)%Q.
Proof.
  intros Hne Hxs. destruct (Qsum_bounds xs Hxs) as (Hlo & _ & Hhi).
  specialize (Hhi Hne). pose proof (inject_Z_length_pos xs Hne) as Hpos.
  unfold np_mean. split.
  - apply Qle_shift_div_l; [exact Hpos|]. lra.
  - apply Qlt_shift_div_r; [exact Hpos|]. lra.
Qed.

(** After de-meaning, every element stays strictly within one [epsrnd]. *)
Lemma demean_bounds (xs : list Q) :
  Forall (λ r, -(1 # 20000) <= r < 1 # 20000)%Q xs →
  Forall (λ r, -(1 # 10000) < r < 1 # 10000)%Q (demean xs).
Proof.
  intros Hxs. destruct (decide (xs = [])) as [->|Hne]; [constructor|].
  pose proof (np_mean_bounds xs Hne Hxs) as [Hm1 Hm2].
  unfold demean. apply Forall_fmap.
  eapply Forall_impl; [exact Hxs|]. intros x [H0 H1]. simpl. split; lra.
Qed.

Lemma tape_segment_unit (tape : nat → Q) (d n : nat) :
  (∀ k, 0 <= tape k < 1)%Q → Forall (λ u, 0 <= u < 1)%Q (tape <$> seq d n).
Proof. intros Ht. apply Forall_fmap, Forall_forall. intros k _. apply Ht. Qed.

Lemma perturbation_facts (tape : nat → Q) (d n : nat) :
  (∀ k, 0 <= tape k < 1)%Q →
  length (perturbation tape d n) = n ∧
  (Qsum (perturbation tape d n) == 0)%Q ∧
  Forall (λ r, -(1 # 10000) < r < 1 # 10000)%Q (perturbation tape d n).
Proof.
  intros Ht. split; [apply length_perturbation|].
  split; [apply Qsum_demean|].
  apply demean_bounds, perturb_bounds, tape_segment_unit, Ht.
Qed.

(** ** The state initializer, restart: reading the checkpoint *)

Section checkpoint_reads.
Context {X : Type} (d : checkpoint).

Lemma dPrev_0_last_safe key P :
    safe (dPrev_0_last (X := X) d key) P python_error
      (λ x, d !! key ≫= at_0_last = Some x).
  Proof.
    unfold dPrev_0_last. destruct (d !! key) as [arr|]; simpl.
    - destruct (at_0_last arr) as [x|].
      + apply safe_ret. reflexivity.
      + apply safe_raise. auto with run.
    - apply safe_raise. auto with run.
  Qed.

Lemma dPrev_last_safe key i P :
    safe (dPrev_last (X := X) d key i) P python_error
      (λ x, d !! key ≫= (λ arr, at_last arr i) = Some x).
  Proof.
    unfold dPrev_last. destruct (d !! key) as [arr|]; simpl.
    - destruct (at_last arr i) as [x|].
      + apply safe_ret. reflexivity.
      + apply safe_raise. auto with run.
    - apply safe_raise. auto with run.
  Qed.

Lemma dPrev_0_last_succeeds key :
    is_Some (d !! key ≫= at_0_last) →
    succeeds (dPrev_0_last (X := X) d key) (λ x, d !! key ≫= at_0_last = Some x).
  Proof.
    intros [x Hx]. unfold dPrev_0_last.
    destruct (d !! key) as [arr|]; simpl in *; [|discriminate].
    rewrite Hx. apply succeeds_ret. reflexivity.
  Qed.

Lemma dPrev_last_succeeds key i :
    is_Some (d !! key ≫= (λ arr, at_last arr i)) →
    succeeds (dPrev_last (X := X) d key i)
      (λ x, d !! key ≫= (λ arr, at_last arr i) = Some x).
  Proof.
    intros [x Hx]. unfold dPrev_last.
    destruct (d !! key) as [arr|]; simpl in *; [|discriminate].
    rewrite Hx. apply succeeds_ret. reflexivity.
  Qed.

Lemma dPrev_0_last_pure key : pure (dPrev_0_last (X := X) d key).
  Proof.
    unfold dPrev_0_last. destruct (d !! key) as [arr|]; [|apply pure_raise].
    destruct (at_0_last arr); [apply pure_ret | apply pure_raise].
  Qed.

Lemma dPrev_last_pure key i : pure (dPrev_last (X := X) d key i).
  Proof.
    unfold dPrev_last. destruct (d !! key) as [arr|]; [|apply pure_raise].
    destruct (at_last arr i); [apply pure_ret | apply pure_raise].
  Qed.
End checkpoint_reads.

Lemma py_range_pure {X} (n : pynum) : pure (py_range (X := X) n).
Proof. destruct n; [apply pure_ret | apply pure_raise]. Qed.

Lemma restart_call_guess (self : SimPETS) d v idx x :
  in_domain self v idx → checkpoint_value d v idx = Some x →
  restart_call self d (SetInitialGuess v idx x).
Proof. intros Hd Hx. exists v, idx, x. repeat split; try assumption. left. reflexivity. Qed.

Lemma restart_call_condition (self : SimPETS) d v k x :
  in_domain self v (Some k) → checkpoint_value d v (Some k) = Some x →
  restart_call self d (SetInitialCondition v k x).
Proof. intros Hd Hx. exists v, (Some k), x. repeat split; try assumption. right. eauto. Qed.

(** Reads one value and hands it to a setter. *)
Ltac restore_safe :=
  first
    [ eapply safe_bind; [apply dPrev_0_last_safe|]; intros ? ?
    | eapply safe_bind; [apply dPrev_last_safe|]; intros ? ? ].

Lemma restart_particle_safe (self : SimPETS) d l i j :
  is_particle self l i j →
  safe (restart_particle self d l i j) (restart_call self d) python_error (λ _, True).
Proof.
  intros Hp. unfold restart_particle.
  destruct (kind_of_cases self l i j) as [[H1 Hk]|[(H1 & H2 & Hk)|(H1 & H2 & Hk)]].
  - rewrite bool_decide_eq_true_2 by exact H1.
    restore_safe. apply safe_seq.
    { apply safe_emit; [|exact I]. apply restart_call_guess; [|assumption].
      simpl. rewrite Hk. auto. }
    eapply safe_bind; [apply py_range_safe|].
    intros ks (z & Hz & ->). apply safe_for; [|exact I]. intros k Hk'.
    apply elem_of_range in Hk'. restore_safe. apply safe_emit; [|exact I].
    apply restart_call_condition; [|assumption].
    simpl. rewrite Hk. split; [exact Hp|]. exists z. auto.
  - rewrite bool_decide_eq_false_2, bool_decide_eq_true_2 by assumption.
    do 3 (restore_safe; apply safe_seq;
      [apply safe_emit; [|exact I]; apply restart_call_guess; [|assumption];
       simpl; rewrite Hk; auto |]).
    eapply safe_bind; [apply py_range_safe|].
    intros ks (z & Hz & ->). apply safe_for; [|exact I]. intros k Hk'.
    apply elem_of_range in Hk'.
    restore_safe. apply safe_seq.
    { apply safe_emit; [|exact I]. apply restart_call_condition; [|assumption].
      simpl. rewrite Hk. split; [exact Hp|]. exists z. auto. }
    restore_safe. apply safe_emit; [|exact I].
    apply restart_call_condition; [|assumption].
    simpl. rewrite Hk. split; [exact Hp|]. exists z. auto.
  - rewrite !bool_decide_eq_false_2 by assumption. apply safe_ret. exact I.
Qed.

Lemma SetUpVariables_restart_safe (self : SimPETS) d :
  dataPrev self = Some d →
  safe (SetUpVariables_restart self) (restart_call self d) python_error (λ _, True).
Proof.
  intros Hd. unfold SetUpVariables_restart. rewrite Hd.
  eapply safe_bind; [apply (safe_ret d _ _ (λ d', d' = d)); reflexivity|].
  intros ? ->. apply safe_seq.
  { apply safe_for; [|exact I]. intros l Hl.
    restore_safe. apply safe_seq.
    { apply safe_emit; [|exact I]. apply restart_call_guess; [exact Hl | assumption]. }
    apply safe_for; [|exact I]. intros i Hi. apply elem_of_range in Hi.
    restore_safe. apply safe_seq.
    { apply safe_emit; [|exact I]. apply restart_call_guess; [split; done | assumption]. }
    restore_safe. apply safe_seq.
    { apply safe_emit; [|exact I]. apply restart_call_guess; [split; done | assumption]. }
    apply safe_for; [|exact I]. intros j Hj. apply elem_of_range in Hj.
    apply restart_particle_safe. split; [exact Hl | split; assumption]. }
  apply safe_seq.
  { apply safe_for; [|exact I]. intros i Hi. apply elem_of_range in Hi.
    restore_safe. apply safe_seq.
    - apply safe_emit; [|exact I].
      apply restart_call_condition; [split; done | assumption].
    - restore_safe. apply safe_emit; [|exact I].
      apply restart_call_guess; [split; done | assumption]. }
  apply safe_seq.
  { apply safe_for; [|exact I]. intros l Hl.
    apply safe_for; [|exact I]. intros i Hi. apply elem_of_range in Hi.
    restore_safe. apply safe_seq.
    - apply safe_emit; [|exact I].
      apply restart_call_condition; [split; done | assumption].
    - restore_safe. apply safe_emit; [|exact I].
      apply restart_call_guess; [split; done | assumption]. }
  restore_safe. apply safe_emit; [|exact I].
  apply restart_call_guess; [exact I | assumption].
Qed.

Lemma restart_particle_pure (self : SimPETS) d l i j :
  pure (restart_particle self d l i j).
Proof.
  unfold restart_particle.
  repeat first
    [ apply pure_ret | apply pure_emit | apply dPrev_0_last_pure
    | apply dPrev_last_pure | apply py_range_pure
    | apply pure_for; intros ?
    | apply pure_bind; [|intros ?]
    | match goal with |- pure (if ?b then _ else _) => destruct b end ].
Qed.

Lemma SetUpVariables_restart_pure (self : SimPETS) :
  pure (SetUpVariables_restart self).
Proof.
  unfold SetUpVariables_restart.
  repeat first
    [ apply pure_ret | apply pure_raise | apply pure_emit
    | apply dPrev_0_last_pure | apply dPrev_last_pure
    | apply restart_particle_pure
    | apply pure_for; intros ?
    | apply pure_bind; [|intros ?]
    | match goal with |- pure (match ?o with _ => _ end) => destruct o end ].
Qed.

(** ** The state initializer, restart: success and coverage *)

Lemma py_range_succeeds {X} (n : pynum) z :
  n = PyInt z → succeeds (py_range (X := X) n) (λ ks, ks = range z).
Proof. intros ->. apply succeeds_ret. reflexivity. Qed.

(** Reads a value that the well-formed checkpoint [Hwf] provides for the
    variable [v] at [idx], inside a [succeeds] or a [covers] goal. *)
Ltac read_ok Hwf v idx :=
  eapply succeeds_bind;
  [ first [apply dPrev_0_last_succeeds | apply dPrev_last_succeeds];
    apply (Hwf v idx)
  | intros ? _ ].

Ltac read_skip Hwf v idx :=
  eapply covers_bind_r;
  [ first [apply dPrev_0_last_succeeds | apply dPrev_last_succeeds];
    apply (Hwf v idx)
  | intros ? _ ].

Ltac read_hit Hwf v idx :=
  eapply covers_bind_r;
  [ first [apply dPrev_0_last_succeeds | apply dPrev_last_succeeds];
    apply (Hwf v idx)
  | intros ? ? ].

Ltac emit_ok := apply succeeds_seq; [apply succeeds_emit; exact I|].
Ltac emit_skip := apply covers_seq_r; [apply succeeds_emit; exact I|].

Lemma restores_guess d v idx x :
  checkpoint_value d v idx = Some x → restores d v idx [SetInitialGuess v idx x].
Proof. intros Hx. exists x, (SetInitialGuess v idx x). repeat split; [exact Hx|]. left. reflexivity. Qed.

Lemma restores_condition d v k x :
  checkpoint_value d v (Some k) = Some x →
  restores d v (Some k) [SetInitialCondition v k x].
Proof.
  intros Hx. exists x, (SetInitialCondition v k x). repeat split; [exact Hx|].
  right. eauto.
Qed.

Section restart_particle.
Context (self : SimPETS) (d : checkpoint) (l : trode) (i j : Z).
Hypothesis Hwf : well_formed_checkpoint self d.
Hypothesis Hp : is_particle self l i j.

Lemma single_points_succeed n :
    kind_of self l i j = SingleField →
    psd_num (ndD_s self) l i j = PyInt n →
    succeeds
      (for_each (range n) (λ k,
         v ← dPrev_last d (partStr l i j +:+ "c") k;
         emit (SetInitialCondition (part l i j F_c) k v)) : M nat unit)
      (λ _, True).
  Proof.
    intros Hk Hn. apply succeeds_for; [|exact I]. intros k Hk'.
    apply elem_of_range in Hk'.
    read_ok Hwf (part l i j F_c) (Some k).
    - simpl. rewrite Hk. split; [exact Hp|]. exists n. auto.
    - apply succeeds_emit. exact I.
  Qed.

Lemma two_points_succeed n :
    kind_of self l i j = TwoField →
    psd_num (ndD_s self) l i j = PyInt n →
    succeeds
      (for_each (range n) (λ k,
         v ← dPrev_last d (partStr l i j +:+ "c1") k;
         emit (SetInitialCondition (part l i j F_c1) k v);;
         v ← dPrev_last d (partStr l i j +:+ "c2") k;
         emit (SetInitialCondition (part l i j F_c2) k v)) : M nat unit)
      (λ _, True).
  Proof.
    intros Hk Hn. apply succeeds_for; [|exact I]. intros k Hk'.
    apply elem_of_range in Hk'.
    read_ok Hwf (part l i j F_c1) (Some k).
    { simpl. rewrite Hk. split; [exact Hp|]. exists n. auto. }
    emit_ok. read_ok Hwf (part l i j F_c2) (Some k).
    { simpl. rewrite Hk. split; [exact Hp|]. exists n. auto. }
    apply succeeds_emit. exact I.
  Qed.

Lemma restart_particle_succeeds :
    valid_sizes self → succeeds (restart_particle self d l i j) (λ _, True).
  Proof.
    intros Hv. destruct (Hv l i j Hp) as (n & Hn & _). unfold restart_particle.
    destruct (kind_of_cases self l i j) as [[H1 Hk]|[(H1 & H2 & Hk)|(H1 & H2 & Hk)]].
    - rewrite bool_decide_eq_true_2 by exact H1.
      read_ok Hwf (part l i j F_cbar) (@None Z).
      { simpl. rewrite Hk. auto. }
      emit_ok. eapply succeeds_bind; [apply (py_range_succeeds _ n Hn)|].
      intros ks ->. apply single_points_succeed; assumption.
    - rewrite bool_decide_eq_false_2, bool_decide_eq_true_2 by assumption.
      read_ok Hwf (part l i j F_c1bar) (@None Z).
      { simpl. rewrite Hk. auto. }
      emit_ok. read_ok Hwf (part l i j F_c2bar) (@None Z).
      { simpl. rewrite Hk. auto. }
      emit_ok. read_ok Hwf (part l i j F_cbar) (@None Z).
      { simpl. rewrite Hk. auto. }
      emit_ok. eapply succeeds_bind; [apply (py_range_succeeds _ n Hn)|].
      intros ks ->. apply two_points_succeed; assumption.
    - rewrite !bool_decide_eq_false_2 by assumption. apply succeeds_ret. exact I.
  Qed.

Lemma restart_particle_covers f idx :
    valid_sizes self → in_domain self (part l i j f) idx →
    covers (restart_particle self d l i j) (restores d (part l i j f) idx).
  Proof.
    intros Hv [_ Hdom]. destruct (Hv l i j Hp) as (n & Hn & _).
    unfold restart_particle.
    destruct (kind_of_cases self l i j) as [[H1 Hk]|[(H1 & H2 & Hk)|(H1 & H2 & Hk)]];
      rewrite Hk in Hdom.
    - rewrite bool_decide_eq_true_2 by exact H1.
      assert (Hcbar : in_domain self (part l i j F_cbar) None).
      { simpl. rewrite Hk. auto. }
      destruct f, idx as [k|]; try contradiction.
      + (* c[k] *)
        read_skip Hwf (part l i j F_cbar) (@None Z); [exact Hcbar|].
        emit_skip. eapply covers_bind_r; [apply (py_range_succeeds _ n Hn)|].
        intros ks ->. destruct Hdom as (n' & Hn' & Hk').
        assert (n' = n) as -> by congruence.
        apply (covers_for _ _ k); [apply elem_of_range; exact Hk' | |].
        { intros k' Hk''. apply elem_of_range in Hk''.
          read_ok Hwf (part l i j F_c) (Some k').
          - simpl. rewrite Hk. split; [exact Hp|]. exists n. auto.
          - apply succeeds_emit. exact I. }
        read_hit Hwf (part l i j F_c) (Some k).
        { simpl. rewrite Hk. split; [exact Hp|]. exists n. auto. }
        apply covers_emit, restores_condition. assumption.
      + (* cbar *)
        read_hit Hwf (part l i j F_cbar) (@None Z); [exact Hcbar|].
        apply covers_seq_l; [apply covers_emit, restores_guess; assumption|].
        eapply succeeds_bind; [apply (py_range_succeeds _ n Hn)|].
        intros ks ->. apply single_points_succeed; assumption.
    - rewrite bool_decide_eq_false_2, bool_decide_eq_true_2 by assumption.
      assert (Hbar : ∀ f', f' = F_c1bar ∨ f' = F_c2bar ∨ f' = F_cbar →
                in_domain self (part l i j f') None).
      { intros f' [->|[->| ->]]; simpl; rewrite Hk; auto. }
      assert (Hrest : succeeds
        (ks ← py_range (psd_num (ndD_s self) l i j);
         for_each ks (λ k,
           v ← dPrev_last d (partStr l i j +:+ "c1") k;
           emit (SetInitialCondition (part l i j F_c1) k v);;
           v ← dPrev_last d (partStr l i j +:+ "c2") k;
           emit (SetInitialCondition (part l i j F_c2) k v)) : M nat unit)
        (λ _, True)).
      { eapply succeeds_bind; [apply (py_range_succeeds _ n Hn)|].
        intros ks ->. apply two_points_succeed; assumption. }
      assert (Hpt : ∀ f' k', (f' = F_c1 ∨ f' = F_c2) → 0 ≤ k' < n →
                in_domain self (part l i j f') (Some k')).
      { intros f' k' [->| ->] Hk'; simpl; rewrite Hk;
          (split; [exact Hp | exists n; auto]). }
      destruct f, idx as [k|]; try contradiction.
      + (* cbar *)
        read_skip Hwf (part l i j F_c1bar) (@None Z); [apply Hbar; auto|]. emit_skip.
        read_skip Hwf (part l i j F_c2bar) (@None Z); [apply Hbar; auto|]. emit_skip.
        read_hit Hwf (part l i j F_cbar) (@None Z); [apply Hbar; auto|].
        apply covers_seq_l; [apply covers_emit, restores_guess; assumption | exact Hrest].
      + (* c1[k] *)
        destruct Hdom as (n' & Hn' & Hk'). assert (n' = n) as -> by congruence.
        read_skip Hwf (part l i j F_c1bar) (@None Z); [apply Hbar; auto|]. emit_skip.
        read_skip Hwf (part l i j F_c2bar) (@None Z); [apply Hbar; auto|]. emit_skip.
        read_skip Hwf (part l i j F_cbar) (@None Z); [apply Hbar; auto|]. emit_skip.
        eapply covers_bind_r; [apply (py_range_succeeds _ n Hn)|]. intros ks ->.
        apply (covers_for _ _ k); [apply elem_of_range; exact Hk' | |].
        { intros k' Hk''. apply elem_of_range in Hk''.
          read_ok Hwf (part l i j F_c1) (Some k'); [apply Hpt; auto|]. emit_ok.
          read_ok Hwf (part l i j F_c2) (Some k'); [apply Hpt; auto|].
          apply succeeds_emit. exact I. }
        read_hit Hwf (part l i j F_c1) (Some k); [apply Hpt; auto|].
        apply covers_seq_l; [apply covers_emit, restores_condition; assumption|].
        read_ok Hwf (part l i j F_c2) (Some k); [apply Hpt; auto|].
        apply succeeds_emit. exact I.
      + (* c2[k] *)
        destruct Hdom as (n' & Hn' & Hk'). assert (n' = n) as -> by congruence.
        read_skip Hwf (part l i j F_c1bar) (@None Z); [apply Hbar; auto|]. emit_skip.
        read_skip Hwf (part l i j F_c2bar) (@None Z); [apply Hbar; auto|]. emit_skip.
        read_skip Hwf (part l i j F_cbar) (@None Z); [apply Hbar; auto|]. emit_skip.
        eapply covers_bind_r; [apply (py_range_succeeds _ n Hn)|]. intros ks ->.
        apply (covers_for _ _ k); [apply elem_of_range; exact Hk' | |].
        { intros k' Hk''. apply elem_of_range in Hk''.
          read_ok Hwf (part l i j F_c1) (Some k'); [apply Hpt; auto|]. emit_ok.
          read_ok Hwf (part l i j F_c2) (Some k'); [apply Hpt; auto|].
          apply succeeds_emit. exact I. }
        read_skip Hwf (part l i j F_c1) (Some k); [apply Hpt; auto|]. emit_skip.
        read_hit Hwf (part l i j F_c2) (Some k); [apply Hpt; auto|].
        apply covers_emit, restores_condition. assumption.
      + (* c1bar *)
        read_hit Hwf (part l i j F_c1bar) (@None Z); [apply Hbar; auto|].
        apply covers_seq_l; [apply covers_emit, restores_guess; assumption|].
        read_ok Hwf (part l i j F_c2bar) (@None Z); [apply Hbar; auto|]. emit_ok.
        read_ok Hwf (part l i j F_cbar) (@None Z); [apply Hbar; auto|]. emit_ok.
        exact Hrest.
      + (* c2bar *)
        read_skip Hwf (part l i j F_c1bar) (@None Z); [apply Hbar; auto|]. emit_skip.
        read_hit Hwf (part l i j F_c2bar) (@None Z); [apply Hbar; auto|].
        apply covers_seq_l; [apply covers_emit, restores_guess; assumption|].
        read_ok Hwf (part l i j F_cbar) (@None Z); [apply Hbar; auto|]. emit_ok.
        exact Hrest.
    - destruct f, idx; contradiction.
  Qed.
End restart_particle.

Ltac domain_side :=
  simpl; unfold is_volume;
  try (split; [first [assumption | exact I]|]);
  first [assumption | apply elem_of_range; assumption | exact I].

(** Finds the variable a read of the restart branch belongs to. *)
Ltac read_next tac Hwf :=
  match goal with
  | |- _ (mbind _ (dPrev_0_last _ ("ffrac_" +:+ label ?l))) _ =>
      tac Hwf (ffrac l) (@None Z)
  | |- _ (mbind _ (dPrev_last _ ("R_Vp_" +:+ label ?l) ?i)) _ =>
      tac Hwf (R_Vp l) (Some i)
  | |- _ (mbind _ (dPrev_last _ ("phi_bulk_" +:+ label ?l) ?i)) _ =>
      tac Hwf (phi_bulk l) (Some i)
  | |- _ (mbind _ (dPrev_last _ "c_lyte_s" ?i)) _ =>
      tac Hwf (c_lyte Sep) (Some i)
  | |- _ (mbind _ (dPrev_last _ "phi_lyte_s" ?i)) _ =>
      tac Hwf (phi_lyte Sep) (Some i)
  | |- _ (mbind _ (dPrev_last _ ("c_lyte_" +:+ label ?l) ?i)) _ =>
      tac Hwf (c_lyte (Trode l)) (Some i)
  | |- _ (mbind _ (dPrev_last _ ("phi_lyte_" +:+ label ?l) ?i)) _ =>
      tac Hwf (phi_lyte (Trode l)) (Some i)
  | |- _ (mbind _ (dPrev_0_last _ "phi_applied")) _ =>
      tac Hwf phi_applied (@None Z)
  end.

Section restart_run.
Context (self : SimPETS) (d : checkpoint).
Hypothesis Hwf : well_formed_checkpoint self d.
Hypothesis Hv : valid_sizes self.

Ltac restart_ok :=
    repeat first
      [ exact I
      | apply succeeds_emit
      | apply succeeds_ret
      | apply succeeds_seq
      | apply succeeds_for; [intros ? ?|]
      | read_next read_ok Hwf; [domain_side|]
      | apply (restart_particle_succeeds self d); [exact Hwf | particle_side | exact Hv] ].

Ltac skip_read := read_next read_skip Hwf; [domain_side|].
Ltac hit_read := read_next read_hit Hwf; [domain_side|].

Lemma restart_body_covers v idx :
    in_domain self v idx →
    covers
      (dPrev ← (mret d : M nat checkpoint);
       for_each (trodes (ndD_s self)) (λ l,
         v ← dPrev_0_last dPrev ("ffrac_" +:+ label l);
         emit (SetInitialGuess (ffrac l) None v);;
         for_each (range (Nvol (ndD_s self) (Trode l))) (λ i,
           v ← dPrev_last dPrev ("R_Vp_" +:+ label l) i;
           emit (SetInitialGuess (R_Vp l) (Some i) v);;
           v ← dPrev_last dPrev ("phi_bulk_" +:+ label l) i;
           emit (SetInitialGuess (phi_bulk l) (Some i) v);;
           for_each (range (Npart (ndD_s self) l)) (λ j,
             restart_particle self dPrev l i j)));;
       for_each (range (Nvol (ndD_s self) Sep)) (λ i,
         v ← dPrev_last dPrev "c_lyte_s" i;
         emit (SetInitialCondition (c_lyte Sep) i v);;
         v ← dPrev_last dPrev "phi_lyte_s" i;
         emit (SetInitialGuess (phi_lyte Sep) (Some i) v));;
       for_each (trodes (ndD_s self)) (λ l,
         for_each (range (Nvol (ndD_s self) (Trode l))) (λ i,
           v ← dPrev_last dPrev ("c_lyte_" +:+ label l) i;
           emit (SetInitialCondition (c_lyte (Trode l)) i v);;
           v ← dPrev_last dPrev ("phi_lyte_" +:+ label l) i;
           emit (SetInitialGuess (phi_lyte (Trode l)) (Some i) v)));;
       v ← dPrev_0_last dPrev "phi_applied";
       emit (SetInitialGuess phi_applied None v))
      (restores d v idx).
  Proof.
    intros Hdom.
    eapply covers_bind_r; [apply (succeeds_ret d (λ d', d' = d)); reflexivity|].
    intros ? ->.
    destruct v as [l|l|l|r|r| | |l i j f]; destruct idx as [k|];
      simpl in Hdom; try contradiction.
    - (* ffrac *)
      apply covers_seq_l; [|restart_ok].
      apply (covers_for _ _ l); [exact Hdom | intros ? ?; restart_ok |].
      hit_read.
      apply covers_seq_l; [apply covers_emit, restores_guess; assumption | restart_ok].
    - (* R_Vp *)
      destruct Hdom as [Hl Hk].
      apply covers_seq_l; [|restart_ok].
      apply (covers_for _ _ l); [exact Hl | intros ? ?; restart_ok |].
      skip_read. emit_skip.
      apply (covers_for _ _ k); [apply elem_of_range; exact Hk | intros ? ?; restart_ok |].
      hit_read.
      apply covers_seq_l; [apply covers_emit, restores_guess; assumption | restart_ok].
    - (* phi_bulk *)
      destruct Hdom as [Hl Hk].
      apply covers_seq_l; [|restart_ok].
      apply (covers_for _ _ l); [exact Hl | intros ? ?; restart_ok |].
      skip_read. emit_skip.
      apply (covers_for _ _ k); [apply elem_of_range; exact Hk | intros ? ?; restart_ok |].
      skip_read. emit_skip. hit_read.
      apply covers_seq_l; [apply covers_emit, restores_guess; assumption | restart_ok].
    - (* c_lyte *)
      destruct Hdom as [Hr Hk]. apply covers_seq_r; [restart_ok|].
      destruct r as [|l].
      + apply covers_seq_l; [|restart_ok].
        apply (covers_for _ _ k); [apply elem_of_range; exact Hk | intros ? ?; restart_ok |].
        hit_read.
        apply covers_seq_l; [apply covers_emit, restores_condition; assumption | restart_ok].
      + apply covers_seq_r; [restart_ok|]. apply covers_seq_l; [|restart_ok].
        apply (covers_for _ _ l); [exact Hr | intros ? ?; restart_ok |].
        apply (covers_for _ _ k); [apply elem_of_range; exact Hk | intros ? ?; restart_ok |].
        hit_read.
        apply covers_seq_l; [apply covers_emit, restores_condition; assumption | restart_ok].
    - (* phi_lyte *)
      destruct Hdom as [Hr Hk]. apply covers_seq_r; [restart_ok|].
      destruct r as [|l].
      + apply covers_seq_l; [|restart_ok].
        apply (covers_for _ _ k); [apply elem_of_range; exact Hk | intros ? ?; restart_ok |].
        skip_read. emit_skip. hit_read.
        apply covers_emit, restores_guess. assumption.
      + apply covers_seq_r; [restart_ok|]. apply covers_seq_l; [|restart_ok].
        apply (covers_for _ _ l); [exact Hr | intros ? ?; restart_ok |].
        apply (covers_for _ _ k); [apply elem_of_range; exact Hk | intros ? ?; restart_ok |].
        skip_read. emit_skip. hit_read.
        apply covers_emit, restores_guess. assumption.
    - (* phi_applied *)
      do 3 (apply covers_seq_r; [restart_ok|]).
      hit_read. apply covers_emit, restores_guess. assumption.
    - (* a particle field, per point *)
      destruct Hdom as [Hp Hf]. pose proof Hp as (Hl & Hi & Hj).
      apply covers_seq_l; [|restart_ok].
      apply (covers_for _ _ l); [exact Hl | intros ? ?; restart_ok |].
      skip_read. emit_skip.
      apply (covers_for _ _ i); [apply elem_of_range; exact Hi | intros ? ?; restart_ok |].
      skip_read. emit_skip. skip_read. emit_skip.
      apply (covers_for _ _ j); [apply elem_of_range; exact Hj | intros ? ?; restart_ok |].
      apply restart_particle_covers; [exact Hwf | exact Hp | exact Hv | split; assumption].
    - (* a particle average *)
      destruct Hdom as [Hp Hf]. pose proof Hp as (Hl & Hi & Hj).
      apply covers_seq_l; [|restart_ok].
      apply (covers_for _ _ l); [exact Hl | intros ? ?; restart_ok |].
      skip_read. emit_skip.
      apply (covers_for _ _ i); [apply elem_of_range; exact Hi | intros ? ?; restart_ok |].
      skip_read. emit_skip. skip_read. emit_skip.
      apply (covers_for _ _ j); [apply elem_of_range; exact Hj | intros ? ?; restart_ok |].
      apply restart_particle_covers; [exact Hwf | exact Hp | exact Hv | split; assumption].
  Qed.

Lemma SetUpVariables_restart_covers v idx :
    dataPrev self = Some d → in_domain self v idx →
    covers (SetUpVariables_restart self) (restores d v idx).
  Proof.
    intros Hd Hdom. unfold SetUpVariables_restart. rewrite Hd.
    apply restart_body_covers, Hdom.
  Qed.

Lemma SetUpVariables_restart_succeeds :
    dataPrev self = Some d →
    succeeds (SetUpVariables_restart self) (λ _, True).
  Proof.
    intros Hd. eapply covers_succeeds.
    apply (SetUpVariables_restart_covers phi_applied None Hd). exact I.
  Qed.
End restart_run.

(** ** The time-stepping driver *)


Section driver.
Context {S : Type} (sim : DaeSimulation S).

(** Without a time scale the first message cannot be built: nothing is
    called. *)
Lemma Run_from_None (t : float) (rest : list float) (x : S) :
  Run_from sim None (t :: rest) x = (x, [], inl TypeError).
Proof. reflexivity. Qed.

(** One iteration of the loop, by cases on what the solver answers and
    on the percentage. *)
Lemma Run_from_cons (ts t : float) (rest : list float) (x : S) :
  Run_from sim (Some ts) (t :: rest) x =
  match integrate sim t x with
  | inl e =>
      (x, [LogMessage (float_mul (CurrentTime sim x) ts) (float_mul t ts);
           IntegrateUntilTime t None], inl e)
  | inr (time, x') =>
      match percent (CurrentTime sim x') (TimeHorizon sim) with
      | inl e => (x', recorded_calls sim ts t x time x', inl e)
      | inr p =>
          if SFltb time t then (x', step_calls sim ts t x time x' p, inr tt)
          else match Run_from sim (Some ts) rest x' with
               | (x2, t2, r) => (x2, step_calls sim ts t x time x' p ++ t2, r)
               end
      end
  end.
Proof.
  cbn [Run_from].
  unfold mbind, M_bind, bind, get_CurrentTime, emit, call_IntegrateUntilTime,
    progress, times_tScale, mret, M_ret, ret.
  destruct (integrate sim t x) as [e|[time x']]; [reflexivity|].
  destruct (percent (CurrentTime sim x') (TimeHorizon sim)) as [e|p]; [reflexivity|].
  cbn. destruct (SFltb time t); [reflexivity|].
  destruct (Run_from sim (Some ts) rest x') as [[x2 t2] r]. reflexivity.
Qed.

(** After an integration call that stopped short, the trace holds no
    further request or message: it ends with the record of that step,
    followed by its progress observation if the percentage can be
    computed, and the run ends as the percentage does. *)
Lemma Run_from_halts (tS : option float) (times : list float) :
  ∀ x tr1 t reached tr2,
    trace_of (Run_from sim tS times x) =
      tr1 ++ IntegrateUntilTime t (Some reached) :: tr2 →
    SFltb reached t = true →
    Forall (λ cl, is_IntegrateUntilTime cl = false ∧ is_LogMessage cl = false) tr2 ∧
    let y := state_of (Run_from sim tS times x) in
    match percent (CurrentTime sim y) (TimeHorizon sim) with
    | inr p => tr2 = [ReportData (CurrentTime sim y); SetProgress p] ∧
               result_of (Run_from sim tS times x) = inr tt
    | inl e => tr2 = [ReportData (CurrentTime sim y)] ∧
               result_of (Run_from sim tS times x) = inl e
    end.
Proof.
  destruct tS as [ts|].
  2:{ intros x tr1 t reached tr2 Htr _.
      destruct times; destruct tr1; discriminate Htr. }
  induction times as [|t' rest IH]; intros x tr1 t reached tr2 Htr Hlt.
  { destruct tr1; discriminate Htr. }
  cbv zeta. rewrite Run_from_cons in Htr |- *.
  destruct (integrate sim t' x) as [e|[time x']].
  { unfold trace_of in Htr. simpl in Htr.
    destruct tr1 as [|? [|? [|? ?]]]; simplify_eq/=. }
  destruct (percent (CurrentTime sim x') (TimeHorizon sim)) as [e|p] eqn:Hp.
  { unfold trace_of, recorded_calls in Htr. simpl in Htr.
    destruct tr1 as [|? [|? [|? [|? ?]]]]; simplify_eq/=.
    unfold state_of, result_of. simpl. rewrite Hp.
    split; [repeat constructor | split; reflexivity]. }
  destruct (SFltb time t') eqn:Hhalt.
  { unfold trace_of, step_calls, recorded_calls in Htr. simpl in Htr.
    destruct tr1 as [|? [|? [|? [|? [|? ?]]]]]; simplify_eq/=.
    unfold state_of, result_of. simpl. rewrite Hp.
    split; [repeat constructor | split; reflexivity]. }
  specialize (IH x'). cbv zeta in IH.
  destruct (Run_from sim (Some ts) rest x') as [[x2 t2] r].
  unfold trace_of, result_of, state_of, step_calls, recorded_calls in *. simpl in *.
  destruct tr1 as [|? [|? [|? [|? tr1]]]]; simplify_eq/=.
  - (* the call of this step: it did not stop short *)
    congruence.
  - eapply IH; [reflexivity | exact Hlt].
Qed.

End driver.


(** ** The example cell *)

Lemma ex_tape_unit : ∀ k, (0 <= ex_tape k < 1)%Q.
Proof.
  intros k. do 5 (destruct k as [|k]; [split; [discriminate | reflexivity]|]).
  split; [discriminate | reflexivity].
Qed.

Lemma ex_valid_sizes dir dp :
  valid_sizes {| ndD_s := ex_ndD_s dir; ndD_e := ex_ndD_e; tScale := Some (dyadic 1 0);
                 dataPrev := dp |}.
Proof. intros l i j _. exists 3. split; [reflexivity | lia]. Qed.

Lemma ex_kind_of dir dp l j :
  kind_of {| ndD_s := ex_ndD_s dir; ndD_e := ex_ndD_e; tScale := Some (dyadic 1 0);
             dataPrev := dp |} l 0 j =
  match l with
  | Anode => SingleField
  | Cathode => if j =? 0 then SingleField else if j =? 1 then TwoField
               else UnknownKind
  end.
Proof.
  destruct l; [reflexivity|]. unfold kind_of. simpl.
  destruct (j =? 0); [reflexivity|]. destruct (j =? 1); reflexivity.
Qed.

Lemma ex_checkpoint_well_formed : well_formed_checkpoint ex_restart ex_checkpoint.
Proof.
  assert (Hl : ∀ l, is_Some (checkpoint_value ex_checkpoint (ffrac l) None)
                  ∧ is_Some (checkpoint_value ex_checkpoint (R_Vp l) (Some 0))
                  ∧ is_Some (checkpoint_value ex_checkpoint (phi_bulk l) (Some 0))).
  { intros []; repeat split; vm_compute; eauto. }
  assert (Hr : ∀ r, is_Some (checkpoint_value ex_checkpoint (c_lyte r) (Some 0))
                  ∧ is_Some (checkpoint_value ex_checkpoint (phi_lyte r) (Some 0))).
  { intros [|[]]; repeat split; vm_compute; eauto. }
  intros v idx Hdom.
  destruct v as [l|l|l|r|r| | |l i j f]; destruct idx as [k|];
    simpl in Hdom; try contradiction.
  - apply Hl.
  - destruct Hdom as [_ Hk]. simpl in Hk. assert (k = 0) as -> by lia. apply Hl.
  - destruct Hdom as [_ Hk]. simpl in Hk. assert (k = 0) as -> by lia. apply Hl.
  - destruct Hdom as [_ Hk]. simpl in Hk. assert (k = 0) as -> by lia. apply Hr.
  - destruct Hdom as [_ Hk]. simpl in Hk. assert (k = 0) as -> by lia. apply Hr.
  - vm_compute. eauto.
  - destruct Hdom as [(_ & Hi & Hj) Hf]. simpl in Hi, Hj.
    assert (i = 0) as -> by lia. unfold ex_restart in Hf. rewrite ex_kind_of in Hf.
    assert (Hpt : is_point ex_restart l 0 j k → k = 0 ∨ k = 1 ∨ k = 2).
    { intros (n & Hn & Hk). simpl in Hn. injection Hn as <-. lia. }
    destruct l.
    + assert (j = 0) as -> by lia.
      destruct f; try contradiction;
        destruct (Hpt Hf) as [->|[->| ->]]; vm_compute; eauto.
    + assert (j = 0 ∨ j = 1 ∨ j = 2) as [->|[->| ->]] by lia; simpl in Hf;
        destruct f; try contradiction;
        destruct (Hpt Hf) as [->|[->| ->]]; vm_compute; eauto.
  - destruct Hdom as [(_ & Hi & Hj) Hf]. simpl in Hi, Hj.
    assert (i = 0) as -> by lia. unfold ex_restart in Hf. rewrite ex_kind_of in Hf.
    destruct l.
    + assert (j = 0) as -> by lia.
      destruct f; try contradiction; vm_compute; eauto.
    + assert (j = 0 ∨ j = 1 ∨ j = 2) as [->|[->| ->]] by lia; simpl in Hf;
        destruct f; try contradiction; vm_compute; eauto.
Qed.

(** ** SetUpVariables as a whole *)

Lemma SetUpVariables_run (tape : nat → Q) (self : SimPETS) (x : nat) :
  SetUpVariables tape self x =
  match (if String.eqb (prevDir (ndD_s self)) "false"
         then SetUpVariables_fresh tape self
         else SetUpVariables_restart self) x with
  | (x1, t1, inl e) => (x1, t1, inl e)
  | (x1, t1, inr _) => (x1, t1 ++ [AssignValue dummyVar 0%Q], inr tt)
  end.
Proof.
  unfold SetUpVariables. rewrite run_bind.
  destruct ((if String.eqb (prevDir (ndD_s self)) "false"
             then SetUpVariables_fresh tape self
             else SetUpVariables_restart self) x) as [[x1 t1] [e|[]]]; reflexivity.
Qed.

Lemma sets_inj cl v1 i1 x1 v2 i2 x2 :
  sets cl v1 i1 x1 → sets cl v2 i2 x2 → v1 = v2 ∧ i1 = i2 ∧ x1 = x2.
Proof.
  intros [->|(k1 & -> & ->)] [H|(k2 & -> & H)]; try discriminate H;
    injection H as -> -> ->; auto.
Qed.

Lemma fresh_call_sets (self : SimPETS) cl v idx x :
  fresh_call self cl → sets cl v idx x →
  in_domain self v idx ∧ (∀ y, fresh_value self v = Some y → x = y) ∧
  (if is_differential v then ∃ k, cl = SetInitialCondition v k x
   else cl = SetInitialGuess v idx x).
Proof.
  intros (v' & idx' & x' & Hs' & Hd & Hval & Hkind) Hs.
  destruct (sets_inj _ _ _ _ _ _ _ Hs Hs') as (-> & -> & ->). auto.
Qed.

Lemma restart_call_sets (self : SimPETS) d cl v idx x :
  restart_call self d cl → sets cl v idx x →
  in_domain self v idx ∧ checkpoint_value d v idx = Some x.
Proof.
  intros (v' & idx' & x' & Hs' & Hd & Hval) Hs.
  destruct (sets_inj _ _ _ _ _ _ _ Hs Hs') as (-> & -> & ->). auto.
Qed.

(** Every call of the initializer, in either mode and also when it
    raises, and every exception it can raise. *)
Lemma SetUpVariables_safe (tape : nat → Q) (self : SimPETS) :
  safe (SetUpVariables tape self)
    (λ cl, cl = AssignValue dummyVar 0%Q ∨
           (prevDir (ndD_s self) = "false" ∧ fresh_call self cl) ∨
           (prevDir (ndD_s self) ≠ "false" ∧
            ∃ d, dataPrev self = Some d ∧ restart_call self d cl))
    (λ e, python_error e ∨
          (e = AttributeError ∧ dataPrev self = None ∧
           prevDir (ndD_s self) ≠ "false"))
    (λ _, True).
Proof.
  unfold SetUpVariables. apply safe_seq; [|apply safe_emit; auto].
  destruct (String.eqb_spec (prevDir (ndD_s self)) "false") as [Heq|Hne].
  - eapply safe_weaken; [apply SetUpVariables_fresh_safe | | | auto]; simpl; auto.
  - destruct (dataPrev self) as [d|] eqn:Hd.
    + eapply safe_weaken; [apply (SetUpVariables_restart_safe self d Hd) | | | auto];
        simpl; eauto 10.
    + unfold SetUpVariables_restart. rewrite Hd.
      eapply safe_bind; [apply (safe_raise _ _ _ (λ _, False)); auto|].
      intros ? [].
Qed.

Lemma SetUpVariables_fresh_result (tape : nat → Q) (self : SimPETS) (x : nat) :
  prevDir (ndD_s self) = "false" → valid_sizes self →
  result_of (SetUpVariables tape self x) = inr tt ∧
  ∃ x' tr, SetUpVariables_fresh tape self x = (x', tr, inr tt) ∧
           SetUpVariables tape self x = (x', tr ++ [AssignValue dummyVar 0%Q], inr tt).
Proof.
  intros Hdir Hv. rewrite SetUpVariables_run, Hdir, String.eqb_refl.
  destruct (SetUpVariables_fresh_succeeds tape self Hv x) as ([] & Hr & _).
  unfold result_of in Hr.
  destruct (SetUpVariables_fresh tape self x) as [[x' tr] r]. simpl in Hr. subst r.
  split; [reflexivity | eauto].
Qed.

Lemma SetUpVariables_restart_result (tape : nat → Q) (self : SimPETS) d (x : nat) :
  prevDir (ndD_s self) ≠ "false" → dataPrev self = Some d →
  valid_sizes self → well_formed_checkpoint self d →
  ∃ tr, SetUpVariables_restart self x = (x, tr, inr tt) ∧
        SetUpVariables tape self x = (x, tr ++ [AssignValue dummyVar 0%Q], inr tt).
Proof.
  intros Hdir Hd Hv Hwf. rewrite SetUpVariables_run.
  destruct (String.eqb_spec (prevDir (ndD_s self)) "false") as [Heq|_]; [contradiction|].
  destruct (SetUpVariables_restart_succeeds self d Hwf Hv Hd x) as ([] & Hr & _).
  pose proof (SetUpVariables_restart_pure self x) as Hx.
  unfold result_of, state_of in *.
  destruct (SetUpVariables_restart self x) as [[x' tr] r]. simpl in *. subst.
  eauto.
Qed.

Lemma elem_of_fresh_trace (tape : nat → Q) (self : SimPETS) (x : nat) cl :
  prevDir (ndD_s self) = "false" →
  cl ∈ trace_of (SetUpVariables_fresh tape self x) →
  cl ∈ trace_of (SetUpVariables tape self x).
Proof.
  intros Hdir Hin. rewrite SetUpVariables_run, Hdir, String.eqb_refl.
  unfold trace_of in *.
  destruct (SetUpVariables_fresh tape self x) as [[x' tr] [e|v]]; simpl in *;
    [exact Hin | apply elem_of_app; left; exact Hin].
Qed.

Lemma has_block_fresh_trace (tape : nat → Q) (self : SimPETS) (x : nat) B :
  prevDir (ndD_s self) = "false" →
  has_block B (trace_of (SetUpVariables_fresh tape self x)) →
  has_block B (trace_of (SetUpVariables tape self x)).
Proof.
  intros Hdir (pre & blk & post & Ht & HB). rewrite SetUpVariables_run, Hdir, String.eqb_refl.
  unfold trace_of in *.
  destruct (SetUpVariables_fresh tape self x) as [[x' tr] [e|v]]; simpl in *; subst tr.
  - exists pre, blk, post. auto.
  - exists pre, blk, (post ++ [AssignValue dummyVar 0%Q]).
    split; [rewrite <- !app_assoc; reflexivity | exact HB].
Qed.

Lemma SetUpParametersAndDomains_pure {X} (self : SimPETS) :
  pure (SetUpParametersAndDomains (X := X) self).
Proof.
  unfold SetUpParametersAndDomains.
  repeat first
    [ apply pure_ret | apply pure_emit
    | apply pure_for; intros ?
    | apply pure_bind; [|intros ?]
    | match goal with |- pure (if ?b then _ else _) => destruct b end ].
Qed.

Lemma fresh_particle_single_covers (tape : nat → Q) (self : SimPETS) l i j n :
  indvPart_type (ndD_e self) l i j ∈ oneVarTypes (ndD_s self) →
  psd_num (ndD_s self) l i j = PyInt n →
  covers (fresh_particle tape self l i j) (λ blk, blk = single_field_calls self l i j n).
Proof.
  intros H1 Hn. apply covers_of_run. intros d.
  exists d, [], (single_field_calls self l i j n), [], tt.
  rewrite app_nil_r. split; [apply fresh_particle_single; assumption | reflexivity].
Qed.

Lemma fresh_particle_two_covers (tape : nat → Q) (self : SimPETS) l i j n :
  indvPart_type (ndD_e self) l i j ∉ oneVarTypes (ndD_s self) →
  indvPart_type (ndD_e self) l i j ∈ twoVarTypes (ndD_s self) →
  psd_num (ndD_s self) l i j = PyInt n → 0 ≤ n →
  covers (fresh_particle tape self l i j)
    (λ blk, ∃ d, blk = two_field_guesses self l i j ++
                       two_field_points self l i j n
                         (perturbation tape d (Z.to_nat n))
                         (perturbation tape (d + Z.to_nat n) (Z.to_nat n))).
Proof.
  intros H1 H2 Hn Hpos. apply covers_of_run. intros d.
  eexists _, [], _, [], tt. rewrite app_nil_r.
  split; [apply fresh_particle_two; eassumption | exists d; reflexivity].
Qed.

Lemma SetUpParametersAndDomains_returns {X} (self : SimPETS) (x : X) :
  result_of (SetUpParametersAndDomains self x) = inr tt.
Proof.
  pose proof (SetUpParametersAndDomains_safe (X := X) self x) as [_ Hres].
  destruct (result_of (SetUpParametersAndDomains self x)) as [e|[]];
    [contradiction | reflexivity].
Qed.

(** The builder on a cell without separator volumes and with a float
    size 3.7: no separator array, and the particle's array has size 3. *)
Lemma SetUpParametersAndDomains_float_size :
  SetUpParametersAndDomains ex_float_sizes tt =
    (tt,
     [CreateArray (DmnCell (Trode Cathode)) 1; CreateArray (DmnPart Cathode) 1;
      CreateArray (PartDmn Cathode 0 0) 3],
     inr tt).
Proof. vm_compute. reflexivity. Qed.

(** ** The specification's sizes and samples against the code's *)

Lemma truncation_unique (q : Q) (z z' : Z) :
  truncation q z → truncation q z' → z = z'.
Proof.
  intros [Hp Hn] [Hp' Hn'].
  assert (Hlt : ∀ a b : Z, (inject_Z a < inject_Z b + 1)%Q → a ≤ b).
  { intros a b H. change 1%Q with (inject_Z 1) in H.
    rewrite <- inject_Z_plus, <- Zlt_Qlt in H. lia. }
  destruct (Qlt_le_dec q 0) as [Hq|Hq].
  - destruct (Hn (Qlt_le_weak _ _ Hq)) as [H1 H2].
    destruct (Hn' (Qlt_le_weak _ _ Hq)) as [H1' H2'].
    assert (z' ≤ z) by (apply Hlt; lra).
    assert (z ≤ z') by (apply Hlt; lra). lia.
  - destruct (Hp Hq) as [H1 H2]. destruct (Hp' Hq) as [H1' H2'].
    assert (z ≤ z') by (apply Hlt; lra).
    assert (z' ≤ z) by (apply Hlt; lra). lia.
Qed.

Lemma as_integer_py_int (x : pynum) (z : Z) : as_integer x z ↔ z = py_int x.
Proof.
  destruct x as [n|q]; simpl; [reflexivity|]. split.
  - intros Hz. apply (truncation_unique q); [exact Hz | apply py_int_truncates].
  - intros ->. apply py_int_truncates.
Qed.

Lemma to_allocate_allocated (self : SimPETS) (d : domain) (n : Z) :
  to_allocate self d n ↔ allocated self d n.
Proof.
  destruct d as [[|l]|l|l i j]; simpl; try reflexivity.
  rewrite as_integer_py_int. reflexivity.
Qed.

Lemma at_0_last_sample (arr : matrix) (y : Q) :
  at_0_last arr = Some y ↔ last_sample arr None y.
Proof.
  unfold at_0_last. split.
  - destruct arr as [|row rows]; [discriminate|]. simpl. intros Hl.
    apply last_Some in Hl as [samples ->]. constructor.
  - inversion 1; subst. simpl. apply last_snoc.
Qed.

Lemma at_last_sample (arr : matrix) (i : Z) (y : Q) :
  0 ≤ i → at_last arr i = Some y ↔ last_sample arr (Some i) y.
Proof.
  intros Hi. unfold at_last. split.
  - destruct (last arr) as [row|] eqn:Hl; [|discriminate]. simpl. intros Hy.
    apply last_Some in Hl as [rows ->]. constructor; assumption.
  - inversion 1; subst. rewrite last_snoc. simpl. assumption.
Qed.

Lemma in_domain_index (self : SimPETS) (v : var) (i : Z) :
  in_domain self v (Some i) → 0 ≤ i.
Proof.
  destruct v as [l|l|l|r|r| | |l i' j f]; simpl; try contradiction;
    try (intros [_ Hi]; lia).
  intros [_ Hf]. destruct (kind_of self l i' j), f; try contradiction;
    destruct Hf as (n & _ & Hk); lia.
Qed.

Lemma checkpoint_value_last_sample (self : SimPETS) (d : checkpoint) v idx y :
  in_domain self v idx →
  checkpoint_value d v idx = Some y ↔ last_sample_of d v idx y.
Proof.
  intros Hdom. unfold checkpoint_value, last_sample_of, stored_last.
  destruct (d !! checkpoint_key v) as [arr|]; simpl.
  - destruct idx as [i|].
    + rewrite (at_last_sample arr i y (in_domain_index self v i Hdom)).
      split; [eauto | intros (arr' & Heq & Hl); congruence].
    + rewrite at_0_last_sample.
      split; [eauto | intros (arr' & Heq & Hl); congruence].
  - split; [discriminate | intros (arr' & Heq & _); discriminate].
Qed.

Lemma complete_checkpoint_well_formed (self : SimPETS) (d : checkpoint) :
  complete_checkpoint self d ↔ well_formed_checkpoint self d.
Proof.
  split; intros H v idx Hdom.
  - destruct (H v idx Hdom) as [y Hy]. exists y.
    apply (checkpoint_value_last_sample self); assumption.
  - destruct (H v idx Hdom) as [y Hy]. exists y.
    apply (checkpoint_value_last_sample self); assumption.
Qed.

(** * The claims *)

(** C8: the domain builder returns, and the arrays it creates are exactly
    these: the separator's cell domain, of size [Nvol["s"]], if and only if
    [Nvol["s"] >= 1]; for each electrode of [trodes] its cell domain of size
    [Nvol[l]] and its particle domain of size [Npart[l]]; for each particle
    [(l, i, j)] its own domain, whose size is the discretization count
    [psd_num[l][i,j]] itself when that is an integer and the count
    truncated toward zero when it is a float. *)
Theorem C8_domain_allocation {X} (self : SimPETS) (x : X) :
  let tr := trace_of (SetUpParametersAndDomains self x) in
  result_of (SetUpParametersAndDomains self x) = inr tt ∧
  (∀ cl, cl ∈ tr ↔ ∃ d n, cl = CreateArray d n ∧ to_allocate self d n) ∧
  ((∃ n, CreateArray (DmnCell Sep) n ∈ tr) ↔ 1 ≤ Nvol (ndD_s self) Sep) ∧
  (∀ l, l ∈ trodes (ndD_s self) →
     CreateArray (DmnCell (Trode l)) (Nvol (ndD_s self) (Trode l)) ∈ tr ∧
     CreateArray (DmnPart l) (Npart (ndD_s self) l) ∈ tr) ∧
  (∀ l i j n, is_particle self l i j →
     (psd_num (ndD_s self) l i j = PyInt n → CreateArray (PartDmn l i j) n ∈ tr) ∧
     (∀ q, psd_num (ndD_s self) l i j = PyFloat q →
           (CreateArray (PartDmn l i j) n ∈ tr ↔ truncation q n))).
Proof.
  intros tr. subst tr.
  pose proof (SetUpParametersAndDomains_safe (X := X) self x) as [Hall Hres].
  assert (Hiff : ∀ cl, cl ∈ trace_of (SetUpParametersAndDomains self x) ↔
                       ∃ d n, cl = CreateArray d n ∧ to_allocate self d n).
  { intros cl. split.
    - intros Hin. rewrite Forall_forall in Hall.
      destruct (Hall cl Hin) as (d & n & Heq & Hd).
      exists d, n. split; [exact Heq | apply to_allocate_allocated, Hd].
    - intros (d & n & -> & Hd). apply covers_call.
      apply SetUpParametersAndDomains_covers, to_allocate_allocated, Hd. }
  split; [apply SetUpParametersAndDomains_returns|].
  split; [exact Hiff|]. split; [|split].
  - split.
    + intros (n & Hin). apply Hiff in Hin as (d & n' & Heq & Hd).
      injection Heq as <- <-. apply Hd.
    + intros Hs. exists (Nvol (ndD_s self) Sep). apply Hiff.
      eexists _, _. split; [reflexivity|]. simpl. auto.
  - intros l Hl. split; apply Hiff; eexists _, _;
      (split; [reflexivity|]); simpl; auto.
  - intros l i j n Hp. split.
    + intros Hn. apply Hiff. eexists _, _. split; [reflexivity|].
      simpl. rewrite Hn. split; [exact Hp | reflexivity].
    + intros q Hq. rewrite Hiff. split.
      * intros (d & n' & Heq & Hd). injection Heq as <- <-.
        simpl in Hd. rewrite Hq in Hd. apply Hd.
      * intros Ht. eexists _, _. split; [reflexivity|].
        simpl. rewrite Hq. auto.
Qed.

(** C8, on the example cell (sizes given as the integer 3) and on a cell
    whose one particle has the float size 3.7: both particles get an
    array of size 3, and the float one no array of size 4. *)
Lemma C8_domain_allocation_witness :
  CreateArray (PartDmn Cathode 0 1) 3
    ∈ trace_of (SetUpParametersAndDomains ex_fresh tt) ∧
  CreateArray (PartDmn Cathode 0 0) 3
    ∈ trace_of (SetUpParametersAndDomains ex_float_sizes tt) ∧
  CreateArray (PartDmn Cathode 0 0) 4
    ∉ trace_of (SetUpParametersAndDomains ex_float_sizes tt).
Proof.
  assert (Hp : is_particle ex_fresh Cathode 0 1).
  { split; [right; left | simpl; lia]. }
  assert (Hp' : is_particle ex_float_sizes Cathode 0 0).
  { split; [left | simpl; lia]. }
  destruct (C8_domain_allocation ex_fresh tt) as (_ & _ & _ & _ & Hsize).
  destruct (C8_domain_allocation ex_float_sizes tt) as (_ & _ & _ & _ & Hsize').
  split; [|split].
  - apply (proj1 (Hsize Cathode 0 1 3 Hp)). reflexivity.
  - apply (proj2 (Hsize' Cathode 0 0 3 Hp') (37 # 10)%Q eq_refl).
    split; [intros _; split; [discriminate | reflexivity]|].
    intros Hneg. exfalso. apply Hneg. reflexivity.
  - intros Hin.
    apply (proj2 (Hsize' Cathode 0 0 4 Hp') (37 # 10)%Q eq_refl) in Hin.
    destruct Hin as [Hpos _]. destruct (Hpos ltac:(discriminate)) as [Hle _].
    apply Hle. reflexivity.
Defined.

(** C2: in a fresh start ([prevDir] is "false") with a valid size table,
    for a particle whose tag is in the single-field kind-set and whose
    size is the integer [n], [SetUpVariables] returns; it issues, in a row,
    the guess [cbar := cs0] and the initial conditions [c[k] := cs0] for
    [k = 0 .. n-1]; and every call it makes on a variable of that particle
    is one of these, with exactly the value [cs0]. *)
Theorem C2_single_field_exact (tape : nat → Q) (self : SimPETS)
    (l : trode) (i j n : Z) (x : nat) :
  prevDir (ndD_s self) = "false" →
  valid_sizes self →
  is_particle self l i j →
  indvPart_type (ndD_e self) l i j ∈ oneVarTypes (ndD_s self) →
  psd_num (ndD_s self) l i j = PyInt n →
  let tr := trace_of (SetUpVariables tape self x) in
  let cs0 := cs0 (ndD_s self) l in
  result_of (SetUpVariables tape self x) = inr tt ∧
  has_block (λ blk, blk = single_field_calls self l i j n) tr ∧
  SetInitialGuess (part l i j F_cbar) None cs0 ∈ tr ∧
  (∀ k, 0 ≤ k < n → SetInitialCondition (part l i j F_c) k cs0 ∈ tr) ∧
  (∀ cl f idx v, cl ∈ tr → sets cl (part l i j f) idx v →
     v = cs0 ∧
     ((f = F_cbar ∧ cl = SetInitialGuess (part l i j F_cbar) None cs0) ∨
      (f = F_c ∧ ∃ k, 0 ≤ k < n ∧
                      cl = SetInitialCondition (part l i j F_c) k cs0))).
Proof.
  intros Hdir Hv Hp H1 Hn tr c.
  destruct (SetUpVariables_fresh_result tape self x Hdir Hv) as [Hres _].
  assert (Hblk : has_block (λ blk, blk = single_field_calls self l i j n) tr).
  { apply has_block_fresh_trace; [exact Hdir|].
    apply (fresh_particle_lift tape self l i j _ Hv Hp).
    apply fresh_particle_single_covers; assumption. }
  split; [exact Hres|]. split; [exact Hblk|]. split; [|split].
  - eapply has_block_incl; [exact Hblk|]. left.
  - intros k Hk. eapply has_block_incl; [exact Hblk|].
    right. apply list_elem_of_fmap. exists k. split; [reflexivity|].
    apply elem_of_range, Hk.
  - intros cl f idx v Hin Hs.
    pose proof (SetUpVariables_safe tape self x) as [Hall _].
    rewrite Forall_forall in Hall. specialize (Hall cl Hin).
    destruct Hall as [->|[[_ Hf]|[Hne _]]]; [| |contradiction].
    { destruct Hs as [H|(k & _ & H)]; discriminate H. }
    destruct (fresh_call_sets self cl _ _ _ Hf Hs) as ([_ Hdom] & Hval & Hkind).
    rewrite (kind_of_single self l i j H1) in Hdom.
    destruct f, idx as [k|]; try contradiction; simpl in Hval, Hkind.
    + specialize (Hval _ eq_refl). subst v. split; [reflexivity|]. right.
      split; [reflexivity|]. destruct Hdom as (n' & Hn' & Hk).
      assert (n' = n) as -> by congruence.
      destruct Hkind as (k' & Hcl). destruct Hs as [H|(k2 & Hk2 & H)].
      * rewrite H in Hcl. discriminate Hcl.
      * injection Hk2 as <-. exists k. split; [exact Hk | exact H].
    + specialize (Hval _ eq_refl). subst v. split; [reflexivity|]. left.
      split; [reflexivity | exact Hkind].
Qed.

(** C2, on the example cell: the single-field particle (cathode, 0, 0). *)
Lemma C2_single_field_exact_witness :
  result_of (SetUpVariables ex_tape ex_fresh 0%nat) = inr tt ∧
  (∀ k, 0 ≤ k < 3 →
     SetInitialCondition (part Cathode 0 0 F_c) k (1 # 100)%Q
       ∈ trace_of (SetUpVariables ex_tape ex_fresh 0%nat)).
Proof.
  assert (Hp : is_particle ex_fresh Cathode 0 0).
  { split; [right; left | simpl; lia]. }
  assert (H1 : indvPart_type (ndD_e ex_fresh) Cathode 0 0 ∈ oneVarTypes (ndD_s ex_fresh)).
  { left. }
  pose proof (C2_single_field_exact ex_tape ex_fresh Cathode 0 0 3 0%nat
                eq_refl (ex_valid_sizes _ _) Hp H1 eq_refl) as (Hr & _ & _ & Hc & _).
  split; [exact Hr | exact Hc].
Defined.

Lemma elem_of_two_field_points (self : SimPETS) l i j n rnd1 rnd2 k :
  0 ≤ k < n →
  SetInitialCondition (part l i j F_c1) k
    (cs0 (ndD_s self) l + rnd1 !!! Z.to_nat k)%Q
    ∈ two_field_points self l i j n rnd1 rnd2 ∧
  SetInitialCondition (part l i j F_c2) k
    (cs0 (ndD_s self) l + rnd2 !!! Z.to_nat k)%Q
    ∈ two_field_points self l i j n rnd1 rnd2.
Proof.
  intros Hk. unfold two_field_points.
  split; apply list_elem_of_bind; exists k;
    (split; [|apply elem_of_range; exact Hk]).
  - left.
  - right. left.
Qed.

(** C3 (amended): in a fresh start with a valid size table and a
    generator whose samples lie in [0, 1), for a particle of the two-field
    kind with integer size [n], [SetUpVariables] returns and there are two
    sequences [rnd1], [rnd2] of length [n], built from two disjoint runs
    of [n] consecutive samples, such that: before de-meaning every scaled
    sample lies in [-0.00005, 0.00005); after de-meaning each sequence
    sums to zero and every element lies strictly between -0.0001 and
    0.0001; and the trace has, in a row, the three average guesses at
    [cs0] and then, for [k = 0 .. n-1], the initial conditions
    [c1[k] := cs0 + rnd1[k]] and [c2[k] := cs0 + rnd2[k]]. *)
Theorem C3_two_field_perturbation (tape : nat → Q) (self : SimPETS)
    (l : trode) (i j n : Z) (x : nat) :
  (∀ k, 0 <= tape k < 1)%Q →
  prevDir (ndD_s self) = "false" →
  valid_sizes self →
  is_particle self l i j →
  indvPart_type (ndD_e self) l i j ∉ oneVarTypes (ndD_s self) →
  indvPart_type (ndD_e self) l i j ∈ twoVarTypes (ndD_s self) →
  psd_num (ndD_s self) l i j = PyInt n →
  let tr := trace_of (SetUpVariables tape self x) in
  let cs0 := cs0 (ndD_s self) l in
  result_of (SetUpVariables tape self x) = inr tt ∧
  ∃ d : nat,
    let u1 := tape <$> seq d (Z.to_nat n) in
    let u2 := tape <$> seq (d + Z.to_nat n) (Z.to_nat n) in
    let rnd1 := demean (perturb u1) in
    let rnd2 := demean (perturb u2) in
    has_block (λ blk, blk = two_field_guesses self l i j ++
                            two_field_points self l i j n rnd1 rnd2) tr ∧
    length rnd1 = Z.to_nat n ∧ length rnd2 = Z.to_nat n ∧
    (Qsum rnd1 == 0)%Q ∧ (Qsum rnd2 == 0)%Q ∧
    Forall (λ r, -(1 # 20000) <= r < 1 # 20000)%Q (perturb u1) ∧
    Forall (λ r, -(1 # 20000) <= r < 1 # 20000)%Q (perturb u2) ∧
    Forall (λ r, -(1 # 10000) < r < 1 # 10000)%Q rnd1 ∧
    Forall (λ r, -(1 # 10000) < r < 1 # 10000)%Q rnd2 ∧
    (∀ k, 0 ≤ k < n →
       SetInitialCondition (part l i j F_c1) k (cs0 + rnd1 !!! Z.to_nat k)%Q ∈ tr ∧
       SetInitialCondition (part l i j F_c2) k (cs0 + rnd2 !!! Z.to_nat k)%Q ∈ tr).
Proof.
  intros Ht Hdir Hv Hp H1 H2 Hn tr c.
  destruct (SetUpVariables_fresh_result tape self x Hdir Hv) as [Hres _].
  destruct (Hv l i j Hp) as (n' & Hn' & Hpos).
  assert (n' = n) as -> by congruence.
  assert (Hblk : has_block
    (λ blk, ∃ d, blk = two_field_guesses self l i j ++
                       two_field_points self l i j n
                         (perturbation tape d (Z.to_nat n))
                         (perturbation tape (d + Z.to_nat n) (Z.to_nat n))) tr).
  { apply has_block_fresh_trace; [exact Hdir|].
    apply (fresh_particle_lift tape self l i j _ Hv Hp).
    apply fresh_particle_two_covers; assumption. }
  split; [exact Hres|].
  destruct Hblk as (pre & blk & post & Htr & d & ->). exists d.
  destruct (perturbation_facts tape d (Z.to_nat n) Ht) as (Hl1 & Hs1 & Hb1).
  destruct (perturbation_facts tape (d + Z.to_nat n) (Z.to_nat n) Ht) as (Hl2 & Hs2 & Hb2).
  unfold perturbation in *. cbv zeta.
  split; [eexists pre, _, post; split; [exact Htr | reflexivity]|].
  do 4 (split; [assumption|]).
  split; [apply perturb_bounds, tape_segment_unit, Ht|].
  split; [apply perturb_bounds, tape_segment_unit, Ht|].
  do 2 (split; [assumption|]).
  intros k Hk.
  pose proof (elem_of_two_field_points self l i j n
                (demean (perturb (tape <$> seq d (Z.to_nat n))))
                (demean (perturb (tape <$> seq (d + Z.to_nat n) (Z.to_nat n))))
                k Hk) as [Hc1 Hc2].
  subst tr. rewrite Htr.
  split; apply elem_of_app; right; apply elem_of_app; left;
    apply elem_of_app; right; assumption.
Qed.

(** C3, on the example cell: the two-field particle (cathode, 0, 1). *)
Lemma C3_two_field_perturbation_witness :
  result_of (SetUpVariables ex_tape ex_fresh 0%nat) = inr tt ∧
  ∃ d : nat,
    (Qsum (demean (perturb (ex_tape <$> seq d 3))) == 0)%Q ∧
    has_block
      (λ blk, blk = two_field_guesses ex_fresh Cathode 0 1 ++
                    two_field_points ex_fresh Cathode 0 1 3
                      (demean (perturb (ex_tape <$> seq d 3)))
                      (demean (perturb (ex_tape <$> seq (d + 3) 3))))
      (trace_of (SetUpVariables ex_tape ex_fresh 0%nat)).
Proof.
  assert (Hp : is_particle ex_fresh Cathode 0 1).
  { split; [right; left | simpl; lia]. }
  assert (H1 : indvPart_type (ndD_e ex_fresh) Cathode 0 1 ∉ oneVarTypes (ndD_s ex_fresh)).
  { apply (bool_decide_unpack _). vm_compute. exact I. }
  assert (H2 : indvPart_type (ndD_e ex_fresh) Cathode 0 1 ∈ twoVarTypes (ndD_s ex_fresh)).
  { right. left. }
  pose proof (C3_two_field_perturbation ex_tape ex_fresh Cathode 0 1 3 0%nat
                ex_tape_unit eq_refl (ex_valid_sizes _ _) Hp H1 H2 eq_refl)
    as (Hr & d & Hblk & _ & _ & Hs1 & _).
  split; [exact Hr|]. exists d. split; [exact Hs1 | exact Hblk].
Defined.

(** C3 as stated fails: on the example cell the samples 0, 0, 0.9 give
    the third point of the first field of particle (cathode, 0, 1) the
    perturbation 0.00006, above 0.00005. *)
Lemma C3_counterexample :
  (∀ k, 0 <= ex_tape k < 1)%Q ∧
  let rnd1 := demean (perturb (ex_tape <$> seq 0 3)) in
  SetInitialCondition (part Cathode 0 1 F_c1) 2
    (cs0 (ndD_s ex_fresh) Cathode + rnd1 !!! 2%nat)%Q
    ∈ trace_of (SetUpVariables ex_tape ex_fresh 0%nat) ∧
  (rnd1 !!! 2%nat == 6 # 100000)%Q ∧
  ¬ (Qabs (rnd1 !!! 2%nat) <= 5 # 100000)%Q.
Proof.
  split; [exact ex_tape_unit|]. cbv zeta. split; [|split].
  - apply list_elem_of_In. vm_compute. do 21 right. left. reflexivity.
  - vm_compute. reflexivity.
  - vm_compute. intros H. apply H. reflexivity.
Qed.

Lemma in_domain_not_dummyVar (self : SimPETS) v idx :
  in_domain self v idx → v ≠ dummyVar.
Proof. intros Hd ->. destruct idx; exact Hd. Qed.

(** C4: in a restart ([prevDir] is not "false") with a valid size table
    and a checkpoint that holds a last sample for every variable of the
    domain, [SetUpVariables] returns; every call it makes, apart from the
    final assignment of the marker, sets a variable of the domain to the
    last time sample stored under that variable's key (the last entry of
    the row of a scalar quantity, the entry at the variable's index in
    the last row of an array-shaped one); every variable of the domain
    (filling fractions, reaction rates, bulk potentials, particle
    averages and profiles, electrolyte concentrations and potentials,
    applied potential) is set so; and no random sample is drawn: the
    generator is left as it was and the outcome does not depend on it. *)
Theorem C4_restart_restores (tape : nat → Q) (self : SimPETS)
    (d : checkpoint) (x : nat) :
  prevDir (ndD_s self) ≠ "false" →
  dataPrev self = Some d →
  valid_sizes self →
  complete_checkpoint self d →
  let tr := trace_of (SetUpVariables tape self x) in
  result_of (SetUpVariables tape self x) = inr tt ∧
  state_of (SetUpVariables tape self x) = x ∧
  (∀ cl, cl ∈ tr →
     cl = AssignValue dummyVar 0%Q ∨
     ∃ v idx y, sets cl v idx y ∧ in_domain self v idx ∧
                last_sample_of d v idx y) ∧
  (∀ v idx y, in_domain self v idx → last_sample_of d v idx y →
     ∃ cl, cl ∈ tr ∧ sets cl v idx y) ∧
  (∀ tape', SetUpVariables tape' self x = SetUpVariables tape self x).
Proof.
  intros Hdir Hd Hv Hc tr.
  pose proof (proj1 (complete_checkpoint_well_formed self d) Hc) as Hwf.
  destruct (SetUpVariables_restart_result tape self d x Hdir Hd Hv Hwf)
    as (tr0 & Hrun0 & Hrun).
  subst tr. split; [rewrite Hrun; reflexivity|].
  split; [rewrite Hrun; reflexivity|]. split; [|split].
  - intros cl Hin.
    pose proof (SetUpVariables_safe tape self x) as [Hall _].
    rewrite Forall_forall in Hall.
    destruct (Hall cl Hin) as [->|[[Heq _]|(_ & d' & Hd' & Hcl)]];
      [left; reflexivity | contradiction |].
    right. assert (d' = d) as -> by congruence.
    destruct Hcl as (v & idx & y & Hs & Hdom & Hval).
    exists v, idx, y. split; [exact Hs|]. split; [exact Hdom|].
    apply (checkpoint_value_last_sample self); assumption.
  - intros v idx y Hdom Hy.
    apply (checkpoint_value_last_sample self) in Hy; [|exact Hdom].
    destruct (SetUpVariables_restart_covers self d Hwf Hv v idx Hd Hdom x)
      as [_ (pre & blk & post & Ht & xv & cl & Hval & -> & Hs)].
    assert (xv = y) as -> by congruence.
    exists cl. split; [|exact Hs].
    rewrite Hrun. rewrite Hrun0 in Ht. unfold trace_of in *. simpl in *.
    rewrite Ht. apply elem_of_app. left.
    apply elem_of_app. right. left.
  - intros tape'. rewrite !SetUpVariables_run.
    destruct (String.eqb_spec (prevDir (ndD_s self)) "false");
      [contradiction | reflexivity].
Qed.

(** C4, on the example cell restarted from the example checkpoint, whose
    series hold two time samples: the filling fraction of the anode is
    set to 0.9, the last entry of the row [0.99, 0.9] under "ffrac_a";
    the reaction rate of cathode volume 0 to 0.02, from the last row of
    [[0], [0.02]] under "R_Vp_c"; point 2 of the first field of the
    two-field particle to 0.16, from the last row [0.14, 0.15, 0.16]
    under "partTrodecvol0part1_c1"; the applied potential to 3.3. *)
Lemma C4_restart_restores_witness :
  let tr := trace_of (SetUpVariables ex_tape ex_restart 0%nat) in
  result_of (SetUpVariables ex_tape ex_restart 0%nat) = inr tt ∧
  state_of (SetUpVariables ex_tape ex_restart 0%nat) = 0%nat ∧
  (∃ cl, cl ∈ tr ∧ sets cl (ffrac Anode) None (9 # 10)) ∧
  (∃ cl, cl ∈ tr ∧ sets cl (R_Vp Cathode) (Some 0) (1 # 50)) ∧
  (∃ cl, cl ∈ tr ∧ sets cl (part Cathode 0 1 F_c1) (Some 2) (4 # 25)) ∧
  (∃ cl, cl ∈ tr ∧ sets cl phi_applied None (33 # 10)).
Proof.
  assert (Hdir : prevDir (ndD_s ex_restart) ≠ "false") by discriminate.
  assert (Hc : complete_checkpoint ex_restart ex_checkpoint).
  { apply complete_checkpoint_well_formed, ex_checkpoint_well_formed. }
  pose proof (C4_restart_restores ex_tape ex_restart ex_checkpoint 0%nat
                Hdir eq_refl (ex_valid_sizes _ _) Hc)
    as (Hr & Hx & _ & Hset & _).
  cbv zeta. split; [exact Hr|]. split; [exact Hx|].
  split; [|split; [|split]].
  - apply Hset; [left|].
    exists [[99 # 100; 9 # 10]]%Q. split; [vm_compute; reflexivity|].
    apply (last_sample_scalar [99 # 100]%Q (9 # 10)%Q []).
  - apply Hset; [split; [right; left | simpl; lia]|].
    exists [[0]; [1 # 50]]%Q. split; [vm_compute; reflexivity|].
    apply (last_sample_array [[0]]%Q [1 # 50]%Q 0 (1 # 50)%Q); [lia | reflexivity].
  - apply Hset.
    { split; [split; [right; left | simpl; lia]|].
      unfold ex_restart. rewrite ex_kind_of. simpl.
      exists 3. split; [reflexivity | lia]. }
    exists [[1 # 100; 1 # 100; 1 # 100]; [7 # 50; 3 # 20; 4 # 25]]%Q.
    split; [vm_compute; reflexivity|].
    apply (last_sample_array [[1 # 100; 1 # 100; 1 # 100]]%Q
             [7 # 50; 3 # 20; 4 # 25]%Q 2 (4 # 25)%Q); [lia | reflexivity].
  - apply Hset; [exact I|].
    exists [[0; 33 # 10]]%Q. split; [vm_compute; reflexivity|].
    apply (last_sample_scalar [0]%Q (33 # 10)%Q []).
Defined.

(** C10: for a valid configuration, in a fresh start as well as in a
    restart from a well-formed checkpoint, [SetUpVariables] returns and
    its last call assigns 0 to [dummyVar]; all the calls before it set
    initial guesses or conditions of other variables. *)
Theorem C10_dummyVar_assigned_last (tape : nat → Q) (self : SimPETS) (x : nat) :
  valid_sizes self →
  (prevDir (ndD_s self) = "false" ∨
   ∃ d, dataPrev self = Some d ∧ well_formed_checkpoint self d) →
  result_of (SetUpVariables tape self x) = inr tt ∧
  ∃ tr, trace_of (SetUpVariables tape self x) = tr ++ [AssignValue dummyVar 0%Q] ∧
        Forall (λ cl, ∃ v idx xv, sets cl v idx xv ∧ v ≠ dummyVar) tr.
Proof.
  intros Hv Hmode.
  destruct (String.eqb_spec (prevDir (ndD_s self)) "false") as [Hdir|Hdir].
  - destruct (SetUpVariables_fresh_result tape self x Hdir Hv)
      as (Hres & x' & tr & Hrun0 & Hrun).
    split; [exact Hres|]. exists tr. split; [rewrite Hrun; reflexivity|].
    pose proof (SetUpVariables_fresh_safe tape self x) as [Hall _].
    rewrite Hrun0 in Hall. unfold trace_of in Hall. simpl in Hall.
    eapply Forall_impl; [exact Hall|].
    intros cl (v & idx & xv & Hs & Hdom & _). exists v, idx, xv.
    split; [exact Hs | eapply in_domain_not_dummyVar, Hdom].
  - destruct Hmode as [Heq|(d & Hd & Hwf)]; [contradiction|].
    destruct (SetUpVariables_restart_result tape self d x Hdir Hd Hv Hwf)
      as (tr & Hrun0 & Hrun).
    split; [rewrite Hrun; reflexivity|]. exists tr.
    split; [rewrite Hrun; reflexivity|].
    pose proof (SetUpVariables_restart_safe self d Hd x) as [Hall _].
    rewrite Hrun0 in Hall. unfold trace_of in Hall. simpl in Hall.
    eapply Forall_impl; [exact Hall|].
    intros cl (v & idx & xv & Hs & Hdom & _). exists v, idx, xv.
    split; [exact Hs | eapply in_domain_not_dummyVar, Hdom].
Qed.

(** C10, on the example cell, fresh and restarted. *)
Lemma C10_dummyVar_assigned_last_witness :
  (∃ tr, trace_of (SetUpVariables ex_tape ex_fresh 0%nat)
         = tr ++ [AssignValue dummyVar 0%Q]) ∧
  (∃ tr, trace_of (SetUpVariables ex_tape ex_restart 0%nat)
         = tr ++ [AssignValue dummyVar 0%Q]).
Proof.
  split.
  - destruct (C10_dummyVar_assigned_last ex_tape ex_fresh 0%nat
                (ex_valid_sizes _ _) (or_introl eq_refl)) as (_ & tr & Htr & _).
    exists tr. exact Htr.
  - destruct (C10_dummyVar_assigned_last ex_tape ex_restart 0%nat
                (ex_valid_sizes _ _)
                (or_intror (ex_intro _ ex_checkpoint
                   (conj eq_refl ex_checkpoint_well_formed))))
      as (_ & tr & Htr & _).
    exists tr. exact Htr.
Defined.

Lemma python_error_not_AttributeError : ¬ python_error AttributeError.
Proof. intros [H|[H|[H|[key H]]]]; discriminate H. Qed.

Lemma python_error_not_spec_errors e :
  python_error e ∨ e = AttributeError →
  e ≠ UnknownSolidTypeError ∧ e ≠ PrematureInitializationError.
Proof.
  intros [[H|[H|[H|[key H]]]]|H]; subst e; split; discriminate.
Qed.

Lemma SetUpVariables_without_checkpoint (tape : nat → Q) (self : SimPETS) (x : nat) :
  prevDir (ndD_s self) ≠ "false" →
  SetUpVariables tape (with_dataPrev self None) x = (x, [], inl AttributeError).
Proof.
  intros Hdir. rewrite SetUpVariables_run.
  change (ndD_s (with_dataPrev self None)) with (ndD_s self).
  destruct (String.eqb_spec (prevDir (ndD_s self)) "false");
    [contradiction | reflexivity].
Qed.

Lemma init_mode (loadmat : string → error + checkpoint)
    (s : SystemConfig) (e : ElectrodeConfig) (ts : option float) (self : SimPETS) :
  init loadmat (Some s) (Some e) ts = inr self →
  prevDir (ndD_s self) = prevDir s ∧
  (prevDir s = "false" → dataPrev self = None) ∧
  (prevDir s ≠ "false" →
   ∃ d, dataPrev self = Some d ∧
        loadmat (osp_join (prevDir s) "output_data.mat") = inr d).
Proof.
  unfold init.
  destruct (String.eqb_spec (prevDir s) "false") as [Heq|Hne]; simpl negb; cbv iota.
  - intros H. injection H as <-. simpl.
    split; [reflexivity|]. split; [reflexivity | intros Hne; contradiction].
  - destruct (loadmat (osp_join (prevDir s) "output_data.mat")) as [err|d];
      [discriminate|].
    destruct (lookup_0_last d "current"); [discriminate|].
    destruct (lookup_0_last d "phi_applied"); [discriminate|].
    intros H. injection H as <-. simpl.
    split; [reflexivity|]. split; [intros Heq; contradiction | eauto].
Qed.

(** C1 as stated fails: with the restart-directory field equal to
    "none", [SetUpVariables] reads the checkpoint (without one it raises,
    with the example checkpoint it restores from it). *)
Lemma C1_counterexample :
  ¬ (∀ tape self x,
       ignores_checkpoint tape self x ↔ prevDir (ndD_s self) = "none").
Proof.
  intros Hclaim.
  destruct (Hclaim ex_tape ex_none 0%nat) as [_ Hnone].
  specialize (Hnone eq_refl None (Some ex_checkpoint)).
  vm_compute in Hnone. discriminate Hnone.
Qed.

(** C1 (amended): the sentinel is the word "false".  [SetUpVariables]
    runs exactly one of two branches: if [prevDir] is "false" it runs the
    fresh-start branch and the loaded checkpoint plays no part in the
    outcome; otherwise it runs the restart branch, whose outcome depends
    on the loaded checkpoint and which leaves the random generator
    untouched.  [__init__] decides with the same test whether to load the
    checkpoint. *)
Theorem C1_mode_selection (tape : nat → Q) (self : SimPETS) (x : nat) :
  (prevDir (ndD_s self) = "false" →
     ignores_checkpoint tape self x ∧
     SetUpVariables tape self x =
       (SetUpVariables_fresh tape self;; emit (AssignValue dummyVar 0%Q)) x) ∧
  (prevDir (ndD_s self) ≠ "false" →
     ¬ ignores_checkpoint tape self x ∧
     state_of (SetUpVariables tape self x) = x ∧
     SetUpVariables tape self x =
       (SetUpVariables_restart self;; emit (AssignValue dummyVar 0%Q)) x) ∧
  (∀ loadmat s e ts self',
     init loadmat (Some s) (Some e) ts = inr self' →
     prevDir (ndD_s self') = prevDir s ∧
     (prevDir s = "false" → dataPrev self' = None) ∧
     (prevDir s ≠ "false" →
      ∃ d, dataPrev self' = Some d ∧
           loadmat (osp_join (prevDir s) "output_data.mat") = inr d)).
Proof.
  split; [|split].
  - intros Hdir. split.
    + intros d1 d2. rewrite !SetUpVariables_run.
      change (ndD_s (with_dataPrev self d1)) with (ndD_s self).
      change (ndD_s (with_dataPrev self d2)) with (ndD_s self).
      rewrite Hdir, String.eqb_refl. reflexivity.
    + unfold SetUpVariables. rewrite Hdir, String.eqb_refl. reflexivity.
  - intros Hdir. split; [|split].
    + intros Hign. specialize (Hign None (Some ∅)).
      rewrite (SetUpVariables_without_checkpoint tape self x Hdir) in Hign.
      pose proof (SetUpVariables_safe tape (with_dataPrev self (Some ∅)) x) as [_ Hres].
      rewrite <- Hign in Hres. unfold result_of in Hres. simpl in Hres.
      destruct Hres as [Hpy|(_ & Hnone & _)];
        [exact (python_error_not_AttributeError Hpy) | discriminate Hnone].
    + rewrite SetUpVariables_run.
      destruct (String.eqb_spec (prevDir (ndD_s self)) "false"); [contradiction|].
      pose proof (SetUpVariables_restart_pure self x) as Hx. unfold state_of in *.
      destruct (SetUpVariables_restart self x) as [[x' tr] [err|v]]; exact Hx.
    + unfold SetUpVariables.
      destruct (String.eqb_spec (prevDir (ndD_s self)) "false");
        [contradiction | reflexivity].
  - intros loadmat s e ts self'. apply init_mode.
Qed.

(** C1, on the example cell: "false" starts afresh, a directory name and
    the word "none" both restart. *)
Lemma C1_mode_selection_witness :
  ignores_checkpoint ex_tape ex_fresh 0%nat ∧
  ¬ ignores_checkpoint ex_tape ex_restart 0%nat ∧
  ¬ ignores_checkpoint ex_tape ex_none 0%nat.
Proof.
  split; [|split].
  - destruct (C1_mode_selection ex_tape ex_fresh 0%nat) as (Hfresh & _ & _).
    apply (Hfresh eq_refl).
  - destruct (C1_mode_selection ex_tape ex_restart 0%nat) as (_ & Hrestart & _).
    apply Hrestart. discriminate.
  - destruct (C1_mode_selection ex_tape ex_none 0%nat) as (_ & Hrestart & _).
    apply Hrestart. discriminate.
Defined.

(** C7 as stated fails: the example cell has a particle (cathode, 0, 2)
    whose tag is in neither kind-set, and [SetUpVariables] returns
    normally in a fresh start and in a restart. *)
Lemma C7_counterexample :
  is_particle ex_fresh Cathode 0 2 ∧
  (indvPart_type (ndD_e ex_fresh) Cathode 0 2 ∉ oneVarTypes (ndD_s ex_fresh)) ∧
  (indvPart_type (ndD_e ex_fresh) Cathode 0 2 ∉ twoVarTypes (ndD_s ex_fresh)) ∧
  result_of (SetUpVariables ex_tape ex_fresh 0%nat) ≠ inl UnknownSolidTypeError ∧
  result_of (SetUpVariables ex_tape ex_fresh 0%nat) = inr tt ∧
  result_of (SetUpVariables ex_tape ex_restart 0%nat) = inr tt.
Proof.
  split; [split; [right; left | simpl; lia]|].
  split; [apply (bool_decide_unpack _); vm_compute; exact I|].
  split; [apply (bool_decide_unpack _); vm_compute; exact I|].
  split; [vm_compute; discriminate|].
  split; vm_compute; reflexivity.
Qed.

(** C7 (amended): a particle whose tag is in neither kind-set is skipped
    silently.  In both modes its turn issues no call, draws no sample and
    raises nothing; [SetUpVariables] never raises
    [UnknownSolidTypeError]; and no call of [SetUpVariables], even of a
    run that raises elsewhere, sets a variable of that particle. *)
Theorem C7_unknown_tag_skipped (tape : nat → Q) (self : SimPETS)
    (l : trode) (i j : Z) (x : nat) :
  indvPart_type (ndD_e self) l i j ∉ oneVarTypes (ndD_s self) →
  indvPart_type (ndD_e self) l i j ∉ twoVarTypes (ndD_s self) →
  fresh_particle tape self l i j x = (x, [], inr tt) ∧
  (∀ dPrev, restart_particle self dPrev l i j x = (x, [], inr tt)) ∧
  result_of (SetUpVariables tape self x) ≠ inl UnknownSolidTypeError ∧
  (∀ cl f idx v, cl ∈ trace_of (SetUpVariables tape self x) →
                 ¬ sets cl (part l i j f) idx v).
Proof.
  intros H1 H2. split; [apply fresh_particle_unknown; assumption|].
  split.
  { intros dPrev. unfold restart_particle.
    rewrite !bool_decide_eq_false_2 by assumption. reflexivity. }
  pose proof (SetUpVariables_safe tape self x) as [Hall Hres]. split.
  - intros Heq. rewrite Heq in Hres.
    assert (Herr : python_error UnknownSolidTypeError ∨
                   UnknownSolidTypeError = AttributeError).
    { destruct Hres as [Hpy|[Hatt _]]; [left; exact Hpy | right; exact Hatt]. }
    apply python_error_not_spec_errors in Herr as [Herr _]. apply Herr. reflexivity.
  - intros cl f idx v Hin Hs. rewrite Forall_forall in Hall.
    pose proof (kind_of_unknown self l i j H1 H2) as Hk.
    destruct (Hall cl Hin) as [->|[[_ Hf]|(_ & d & _ & Hr)]].
    + destruct Hs as [H|(k & _ & H)]; discriminate H.
    + destruct (fresh_call_sets self cl _ _ _ Hf Hs) as ([_ Hdom] & _).
      rewrite Hk in Hdom. exact Hdom.
    + destruct (restart_call_sets self d cl _ _ _ Hr Hs) as ([_ Hdom] & _).
      rewrite Hk in Hdom. exact Hdom.
Qed.

(** C7, on the example cell: the particle (cathode, 0, 2). *)
Lemma C7_unknown_tag_skipped_witness :
  fresh_particle ex_tape ex_fresh Cathode 0 2 0%nat = (0%nat, [], inr tt) ∧
  ∀ cl f idx v, cl ∈ trace_of (SetUpVariables ex_tape ex_fresh 0%nat) →
                ¬ sets cl (part Cathode 0 2 f) idx v.
Proof.
  assert (H1 : indvPart_type (ndD_e ex_fresh) Cathode 0 2 ∉ oneVarTypes (ndD_s ex_fresh)).
  { apply (bool_decide_unpack _). vm_compute. exact I. }
  assert (H2 : indvPart_type (ndD_e ex_fresh) Cathode 0 2 ∉ twoVarTypes (ndD_s ex_fresh)).
  { apply (bool_decide_unpack _). vm_compute. exact I. }
  pose proof (C7_unknown_tag_skipped ex_tape ex_fresh Cathode 0 2 0%nat H1 H2)
    as (Hf & _ & _ & Hno).
  split; [exact Hf | exact Hno].
Defined.

(** C9 as stated fails: [SetUpVariables] run first, with no domain
    allocated, returns normally on the example cell. *)
Lemma C9_counterexample :
  result_of (SetUpVariables ex_tape ex_fresh 0%nat) ≠ inl PrematureInitializationError ∧
  result_of (SetUpVariables ex_tape ex_fresh 0%nat) = inr tt.
Proof. split; [vm_compute; discriminate | vm_compute; reflexivity]. Qed.

(** C9 (amended): [SetUpVariables] has no guard on domain allocation.
    It never raises [PrematureInitializationError]; the calls it issues
    and its result are the same whether it runs first or after
    [SetUpParametersAndDomains]; run first on a fresh-start
    configuration with a valid size table, it returns normally.  Any
    failure on unallocated domains would come from the framework. *)
Theorem C9_no_allocation_guard (tape : nat → Q) (self : SimPETS) (x : nat) :
  result_of (SetUpVariables tape self x) ≠ inl PrematureInitializationError ∧
  trace_of ((SetUpParametersAndDomains self;; SetUpVariables tape self) x) =
    trace_of (SetUpParametersAndDomains self x) ++
    trace_of (SetUpVariables tape self x) ∧
  result_of ((SetUpParametersAndDomains self;; SetUpVariables tape self) x) =
    result_of (SetUpVariables tape self x) ∧
  (prevDir (ndD_s self) = "false" → valid_sizes self →
   result_of (SetUpVariables tape self x) = inr tt).
Proof.
  split; [|split; [|split]].
  - pose proof (SetUpVariables_safe tape self x) as [_ Hres]. intros Heq.
    rewrite Heq in Hres.
    assert (Herr : python_error PrematureInitializationError ∨
                   PrematureInitializationError = AttributeError).
    { destruct Hres as [Hpy|[Hatt _]]; [left; exact Hpy | right; exact Hatt]. }
    apply python_error_not_spec_errors in Herr as [_ Herr]. apply Herr. reflexivity.
  - rewrite run_bind.
    pose proof (SetUpParametersAndDomains_returns self x) as Hres.
    pose proof (SetUpParametersAndDomains_pure self x) as Hx.
    unfold trace_of, result_of, state_of in *.
    destruct (SetUpParametersAndDomains self x) as [[x1 t1] r]. simpl in *.
    subst. destruct (SetUpVariables tape self x) as [[x2 t2] r2]. reflexivity.
  - rewrite run_bind.
    pose proof (SetUpParametersAndDomains_returns self x) as Hres.
    pose proof (SetUpParametersAndDomains_pure self x) as Hx.
    unfold trace_of, result_of, state_of in *.
    destruct (SetUpParametersAndDomains self x) as [[x1 t1] r]. simpl in *.
    subst. destruct (SetUpVariables tape self x) as [[x2 t2] r2]. reflexivity.
  - intros Hdir Hv. apply (SetUpVariables_fresh_result tape self x Hdir Hv).
Qed.

(** C9, on the example cell: run first, the initializer returns, and run
    after the domain builder it appends the same calls. *)
Lemma C9_no_allocation_guard_witness :
  result_of (SetUpVariables ex_tape ex_fresh 0%nat) = inr tt ∧
  trace_of ((SetUpParametersAndDomains ex_fresh;; SetUpVariables ex_tape ex_fresh) 0%nat) =
    trace_of (SetUpParametersAndDomains ex_fresh 0%nat) ++
    trace_of (SetUpVariables ex_tape ex_fresh 0%nat).
Proof.
  destruct (C9_no_allocation_guard ex_tape ex_fresh 0%nat) as (_ & Htr & _ & Hres).
  split; [apply (Hres eq_refl (ex_valid_sizes _ _)) | exact Htr].
Defined.

(** The exceptions of the percentage: a zero horizon, or a quotient that
    is not a finite float. *)
Lemma percent_errors (ct th : float) (e : error) :
  percent ct th = inl e →
  e = ZeroDivisionError ∨ e = OverflowError ∨ e = ValueError.
Proof.
  unfold percent, py_truediv, int_of_float.
  destruct th; [left; congruence| | |];
    (destruct (float_div _ _); intros H; simplify_eq; auto).
Qed.

(** C5 as stated fails: with a zero horizon, the first integration call
    stops short (at 0.5, below the requested 1); the data of the step is
    recorded, but no progress is reported and the run raises. *)
Lemma C5_counterexample :
  SFltb (dyadic 1 (-1)) (dyadic 1 0) = true ∧
  Run ex_halting_zero_horizon ex_fresh (S754_zero false, 0%nat) =
    ((dyadic 1 (-1), 1%nat),
     [LogMessage (S754_zero false) (dyadic 1 0);
      IntegrateUntilTime (dyadic 1 0) (Some (dyadic 1 (-1)));
      ReportData (dyadic 1 (-1))],
     inl ZeroDivisionError).
Proof. split; vm_compute; reflexivity. Qed.

(** C5 (amended): in a run of the driver, once an integration call has
    returned a clock value strictly below the requested report time, no
    further integration request and no further progress message follows.
    The rest of the trace is the data-recording call of that very step
    and, if the percentage [int(100. * CurrentTime / TimeHorizon)] can be
    computed, its progress observation; the run then returns normally.
    If the percentage cannot be computed the run raises its exception
    ([ZeroDivisionError], [OverflowError] or [ValueError]) right after
    the data-recording call; the halt itself raises nothing. *)
Theorem C5_early_halt {S} (sim : DaeSimulation S) (self : SimPETS) (x : S)
    (tr1 tr2 : list call) (t reached : float) :
  trace_of (Run sim self x) =
    tr1 ++ IntegrateUntilTime t (Some reached) :: tr2 →
  SFltb reached t = true →
  Forall (λ cl, is_IntegrateUntilTime cl = false ∧ is_LogMessage cl = false) tr2 ∧
  let y := state_of (Run sim self x) in
  match percent (CurrentTime sim y) (TimeHorizon sim) with
  | inr p =>
      tr2 = [ReportData (CurrentTime sim y); SetProgress p] ∧
      result_of (Run sim self x) = inr tt
  | inl e =>
      tr2 = [ReportData (CurrentTime sim y)] ∧
      result_of (Run sim self x) = inl e ∧
      (e = ZeroDivisionError ∨ e = OverflowError ∨ e = ValueError)
  end.
Proof.
  intros Htr Hlt. unfold Run in *.
  destruct (Run_from_halts sim (tScale self) (ReportingTimes sim)
              x tr1 t reached tr2 Htr Hlt) as [Hno Hend].
  split; [exact Hno|]. cbv zeta in *.
  destruct (percent _ _) as [e|p] eqn:Hp; [|exact Hend].
  destruct Hend as [Ht2 Hres]. split; [exact Ht2|]. split; [exact Hres|].
  exact (percent_errors _ _ _ Hp).
Qed.

(** C5, on report times 1, 2, 3 with a horizon of 3 and a solver that
    stops at 1.5 in the second step: two steps, the second one recorded
    at 1.5 and reported as 50 percent; the third report time is never
    requested. *)
Lemma C5_early_halt_witness :
  requests (trace_of (Run ex_halting ex_fresh (S754_zero false, 0%nat))) =
    [dyadic 1 0; dyadic 2 0] ∧
  (∃ tr1, trace_of (Run ex_halting ex_fresh (S754_zero false, 0%nat)) =
          tr1 ++ IntegrateUntilTime (dyadic 2 0) (Some (dyadic 3 (-1))) ::
          [ReportData (dyadic 3 (-1)); SetProgress 50]) ∧
  result_of (Run ex_halting ex_fresh (S754_zero false, 0%nat)) = inr tt.
Proof.
  assert (Htr : trace_of (Run ex_halting ex_fresh (S754_zero false, 0%nat)) =
    [LogMessage (S754_zero false) (dyadic 1 0);
     IntegrateUntilTime (dyadic 1 0) (Some (dyadic 1 0)); ReportData (dyadic 1 0);
     SetProgress 33; LogMessage (dyadic 1 0) (dyadic 2 0)] ++
    IntegrateUntilTime (dyadic 2 0) (Some (dyadic 3 (-1))) ::
    [ReportData (dyadic 3 (-1)); SetProgress 50]).
  { vm_compute. reflexivity. }
  assert (Hlt : SFltb (dyadic 3 (-1)) (dyadic 2 0) = true) by (vm_compute; reflexivity).
  destruct (C5_early_halt ex_halting ex_fresh (S754_zero false, 0%nat) _ _ _ _ Htr Hlt)
    as [_ Hend].
  destruct Hend as [_ Hres].
  split; [vm_compute; reflexivity|]. split; [eexists; exact Htr | exact Hres].
Defined.




(** * Further properties of the code *)

(** ** Inversion of runs that return *)

Lemma bind_inr {X A B} (m : M X A) (k : A → M X B) x x2 t (r : B) :
  (m ≫= k) x = (x2, t, inr r) →
  ∃ x1 t1 v t2, m x = (x1, t1, inr v) ∧ k v x1 = (x2, t2, inr r) ∧ t = t1 ++ t2.
Proof.
  rewrite run_bind. destruct (m x) as [[x1 t1] [e|v]]; [discriminate|].
  destruct (k v x1) as [[x2' t2] r'] eqn:Hk. intros H. injection H as -> <- ->.
  eauto 10.
Qed.

Lemma bind_returns {X A B} (m : M X A) (k : A → M X B) x :
  returns (m ≫= k) x →
  ∃ x1 t1 v, m x = (x1, t1, inr v) ∧ returns (k v) x1.
Proof.
  intros [r Hr]. unfold result_of in Hr.
  destruct ((m ≫= k) x) as [[x2 t] r'] eqn:Hrun. simpl in Hr. subst r'.
  apply bind_inr in Hrun as (x1 & t1 & v & t2 & Hm & Hk & _).
  exists x1, t1, v. split; [exact Hm|]. exists r. rewrite Hk. reflexivity.
Qed.

Lemma seq_returns {X A} (m : M X unit) (k : M X A) x :
  returns (m;; k) x → returns m x ∧ ∃ x1, returns k x1.
Proof.
  intros (x1 & t1 & v & Hm & Hk)%bind_returns. split; [|eauto].
  exists v. rewrite Hm. reflexivity.
Qed.

(** If a loop returns, every iteration returned from the state it met. *)
Lemma for_each_returns {X A} (xs : list A) (body : A → M X unit) x y :
  returns (for_each xs body) x → y ∈ xs → ∃ x1, returns (body y) x1.
Proof.
  revert x. induction xs as [|z zs IH]; intros x Hret Hy; [inversion Hy|].
  simpl in Hret. apply bind_returns in Hret as (x1 & t1 & v & Hm & Hk).
  apply elem_of_cons in Hy as [->|Hy].
  - exists x. exists v. rewrite Hm. reflexivity.
  - eapply IH; eassumption.
Qed.

(** ** __init__ *)

Lemma lookup_0_last_inr (d : checkpoint) (key : string) (y : Q) :
  lookup_0_last d key = inr y ↔ stored_last d key None y.
Proof.
  unfold lookup_0_last, stored_last. destruct (d !! key) as [arr|].
  - destruct (at_0_last arr) as [v|] eqn:Hv.
    + apply at_0_last_sample in Hv. split.
      * intros H. injection H as <-. eauto.
      * intros (arr' & Heq & Hl). injection Heq as <-.
        apply at_0_last_sample in Hv, Hl. congruence.
    + split; [discriminate|]. intros (arr' & Heq & Hl). injection Heq as <-.
      apply at_0_last_sample in Hl. congruence.
  - split; [discriminate | intros (arr' & Heq & _); discriminate].
Qed.

Lemma lookup_0_last_inl (d : checkpoint) (key : string) (err : error) :
  lookup_0_last d key = inl err →
  (d !! key = None ∧ err = KeyError key) ∨
  (∃ arr, d !! key = Some arr ∧ (∀ y, ¬ last_sample arr None y) ∧ err = IndexError).
Proof.
  unfold lookup_0_last. destruct (d !! key) as [arr|]; [|intros H; injection H as <-; auto].
  destruct (at_0_last arr) as [v|] eqn:Hv; [discriminate|].
  intros H. injection H as <-. right. exists arr. split; [reflexivity|].
  split; [|reflexivity]. intros y Hy. apply at_0_last_sample in Hy. congruence.
Qed.

(** What a constructor that returns went through. *)
Lemma init_inr (loadmat : string → error + checkpoint)
    (s : SystemConfig) (e : ElectrodeConfig) (ts : option float) (self : SimPETS) :
  init loadmat (Some s) (Some e) ts = inr self →
  ndD_s self = set_prev s (currPrev (ndD_s self)) (phiPrev (ndD_s self)) ∧
  ndD_e self = e ∧ tScale self = ts ∧
  (prevDir s = "false" →
     currPrev (ndD_s self) = 0%Q ∧ phiPrev (ndD_s self) = 0%Q ∧
     dataPrev self = None ∧
     ∀ loadmat', init loadmat' (Some s) (Some e) ts = inr self) ∧
  (prevDir s ≠ "false" →
     ∃ d, loadmat (osp_join (prevDir s) "output_data.mat") = inr d ∧
          dataPrev self = Some d ∧
          stored_last d "current" None (currPrev (ndD_s self)) ∧
          stored_last d "phi_applied" None (phiPrev (ndD_s self))).
Proof.
  unfold init.
  destruct (String.eqb_spec (prevDir s) "false") as [Heq|Hne]; simpl negb; cbv iota.
  - intros H. injection H as <-. simpl.
    repeat split; try reflexivity; try contradiction.
  - destruct (loadmat (osp_join (prevDir s) "output_data.mat")) as [err|d];
      [discriminate|].
    destruct (lookup_0_last d "current") as [?|c] eqn:Hc; [discriminate|].
    destruct (lookup_0_last d "phi_applied") as [?|ph] eqn:Hph; [discriminate|].
    apply lookup_0_last_inr in Hc, Hph.
    intros H. injection H as <-. simpl.
    split; [reflexivity|]. split; [reflexivity|]. split; [reflexivity|].
    split; [intros Heq; contradiction|]. intros _. exists d. auto.
Qed.

(** When does the constructor return: both dictionaries are given and,
    unless [prevDir] is "false", the checkpoint file loads and holds a
    last sample under "current" and under "phi_applied". *)
Theorem init_returns_iff (loadmat : string → error + checkpoint)
    (s : option SystemConfig) (e : option ElectrodeConfig) (ts : option float) :
  (∃ self, init loadmat s e ts = inr self) ↔
  ∃ s' e', s = Some s' ∧ e = Some e' ∧
    (prevDir s' = "false" ∨
     ∃ d, loadmat (osp_join (prevDir s') "output_data.mat") = inr d ∧
          (∃ y, stored_last d "current" None y) ∧
          (∃ y, stored_last d "phi_applied" None y)).
Proof.
  split.
  - intros [self Hinit]. destruct s as [s'|]; [|discriminate].
    destruct e as [e'|]; [|discriminate]. exists s', e'.
    split; [reflexivity|]. split; [reflexivity|].
    destruct (decide (prevDir s' = "false")) as [Heq|Hne]; [left; exact Heq|].
    right. destruct (init_inr _ _ _ _ _ Hinit) as (_ & _ & _ & _ & Hrestart).
    destruct (Hrestart Hne) as (d & Hload & _ & Hc & Hph). eauto 10.
  - intros (s' & e' & -> & -> & Hmode). unfold init.
    destruct (String.eqb_spec (prevDir s') "false") as [Heq|Hne]; simpl negb; cbv iota;
      [eauto|].
    destruct Hmode as [Heq|(d & -> & [c Hc] & [ph Hph])]; [contradiction|].
    apply lookup_0_last_inr in Hc, Hph. rewrite Hc, Hph. eauto.
Qed.

(** Which exception the constructor raises: the one for missing
    dictionaries; else, in a restart only, the one of the file loader, a
    [KeyError] for a missing "current" or "phi_applied", or an
    [IndexError] for one that holds no sample. *)
Theorem init_errors (loadmat : string → error + checkpoint)
    (s : option SystemConfig) (e : option ElectrodeConfig) (ts : option float)
    (err : error) :
  init loadmat s e ts = inl err →
  ((s = None ∨ e = None) ∧ err = Exception "Need input parameter dictionaries") ∨
  ∃ s', s = Some s' ∧ prevDir s' ≠ "false" ∧
    (loadmat (osp_join (prevDir s') "output_data.mat") = inl err ∨
     ∃ d, loadmat (osp_join (prevDir s') "output_data.mat") = inr d ∧
       ((d !! "current" = None ∧ err = KeyError "current") ∨
        (∃ arr, d !! "current" = Some arr ∧ (∀ y, ¬ last_sample arr None y) ∧
                err = IndexError) ∨
        ((∃ y, stored_last d "current" None y) ∧
         d !! "phi_applied" = None ∧ err = KeyError "phi_applied") ∨
        ((∃ y, stored_last d "current" None y) ∧
         ∃ arr, d !! "phi_applied" = Some arr ∧ (∀ y, ¬ last_sample arr None y) ∧
                err = IndexError))).
Proof.
  unfold init.
  destruct s as [s'|]; [|intros H; injection H as <-; left; auto].
  destruct e as [e'|]; [|intros H; injection H as <-; left; auto].
  destruct (String.eqb_spec (prevDir s') "false") as [Heq|Hne]; simpl negb; cbv iota;
    [discriminate|].
  intros Hinit. right. exists s'. split; [reflexivity|]. split; [exact Hne|].
  destruct (loadmat (osp_join (prevDir s') "output_data.mat")) as [err'|d].
  { injection Hinit as <-. left. reflexivity. }
  right. exists d. split; [reflexivity|].
  destruct (lookup_0_last d "current") as [e1|c] eqn:Hc.
  { injection Hinit as <-.
    destruct (lookup_0_last_inl _ _ _ Hc) as [H|H]; [left; exact H | right; left; exact H]. }
  apply lookup_0_last_inr in Hc.
  destruct (lookup_0_last d "phi_applied") as [e2|ph] eqn:Hph; [|discriminate].
  injection Hinit as <-. right. right.
  destruct (lookup_0_last_inl _ _ _ Hph) as [[H1 H2]|H]; [left | right]; eauto.
Qed.

Lemma init_errors_witness :
  init ex_loadmat (Some (ex_ndD_s "elsewhere")) (Some ex_ndD_e) (Some (dyadic 1 0))
    = inl IOError ∧
  ex_loadmat (osp_join "elsewhere" "output_data.mat") = inl IOError.
Proof.
  assert (Hinit : init ex_loadmat (Some (ex_ndD_s "elsewhere")) (Some ex_ndD_e)
                    (Some (dyadic 1 0)) = inl IOError) by (vm_compute; reflexivity).
  split; [exact Hinit|].
  destruct (init_errors _ _ _ _ _ Hinit) as [[[H|H] _]|(s' & Hs & _ & [Hload|Hd])];
    try discriminate H.
  - injection Hs as <-. exact Hload.
  - exfalso. destruct Hd as (d & Hload & _). injection Hs as <-.
    vm_compute in Hload. discriminate Hload.
Defined.

(** What the constructor builds: the caller's configuration with the two
    previous-run scalars filled in, zero in a fresh start and the last
    samples stored under "current" and "phi_applied" in a restart; a
    fresh start does not open any file. *)
Theorem init_builds (loadmat : string → error + checkpoint)
    (s : SystemConfig) (e : ElectrodeConfig) (ts : option float) (self : SimPETS) :
  init loadmat (Some s) (Some e) ts = inr self →
  ndD_s self = set_prev s (currPrev (ndD_s self)) (phiPrev (ndD_s self)) ∧
  ndD_e self = e ∧ tScale self = ts ∧
  (prevDir s = "false" →
     currPrev (ndD_s self) = 0%Q ∧ phiPrev (ndD_s self) = 0%Q ∧
     dataPrev self = None ∧
     ∀ loadmat', init loadmat' (Some s) (Some e) ts = inr self) ∧
  (prevDir s ≠ "false" →
     ∃ d, loadmat (osp_join (prevDir s) "output_data.mat") = inr d ∧
          dataPrev self = Some d ∧
          stored_last d "current" None (currPrev (ndD_s self)) ∧
          stored_last d "phi_applied" None (phiPrev (ndD_s self))).
Proof. apply init_inr. Qed.

(** On the example: the checkpoint in "out/prev" stores the currents
    [0, 0.5] and the applied potentials [0, 3.3]; the constructor keeps
    0.5 and 3.3. *)
Lemma init_builds_witness :
  ∃ self,
    init ex_loadmat (Some (ex_ndD_s "out/prev")) (Some ex_ndD_e) (Some (dyadic 1 0))
      = inr self ∧
    dataPrev self = Some ex_checkpoint ∧
    currPrev (ndD_s self) = (1 # 2)%Q ∧ phiPrev (ndD_s self) = (33 # 10)%Q ∧
    stored_last ex_checkpoint "current" None (1 # 2) ∧
    stored_last ex_checkpoint "phi_applied" None (33 # 10).
Proof.
  assert (Hinit : init ex_loadmat (Some (ex_ndD_s "out/prev")) (Some ex_ndD_e)
                    (Some (dyadic 1 0)) =
    inr {| ndD_s := set_prev (ex_ndD_s "out/prev") (1 # 2) (33 # 10);
           ndD_e := ex_ndD_e; tScale := Some (dyadic 1 0);
           dataPrev := Some ex_checkpoint |}).
  { vm_compute. reflexivity. }
  eexists. split; [exact Hinit|].
  destruct (init_builds _ _ _ _ _ Hinit) as (_ & _ & _ & _ & Hrestart).
  destruct (Hrestart ltac:(discriminate)) as (d & Hload & Hd & Hcur & Hphi).
  simpl in Hd. injection Hd as <-.
  split; [reflexivity|]. split; [reflexivity|]. split; [reflexivity|].
  split; [exact Hcur | exact Hphi].
Defined.

(** ** The constructor followed by the initializer *)

Lemma dPrev_0_last_inr {X} (d : checkpoint) key (x x' : X) t v :
  dPrev_0_last d key x = (x', t, inr v) →
  x' = x ∧ t = [] ∧ d !! key ≫= at_0_last = Some v.
Proof.
  unfold dPrev_0_last. destruct (d !! key) as [arr|]; [|discriminate]. simpl.
  destruct (at_0_last arr); [|discriminate]. intros H. injection H as <- <- <-. auto.
Qed.

Lemma dPrev_last_inr {X} (d : checkpoint) key i (x x' : X) t v :
  dPrev_last d key i x = (x', t, inr v) →
  x' = x ∧ t = [] ∧ d !! key ≫= (λ arr, at_last arr i) = Some v.
Proof.
  unfold dPrev_last. destruct (d !! key) as [arr|]; [|discriminate]. simpl.
  destruct (at_last arr i); [|discriminate]. intros H. injection H as <- <- <-. auto.
Qed.

(** A restart that returns has restored the applied potential last. *)
Lemma SetUpVariables_restart_ends (self : SimPETS) d x x' tr :
  dataPrev self = Some d →
  SetUpVariables_restart self x = (x', tr, inr tt) →
  ∃ pre v, tr = pre ++ [SetInitialGuess phi_applied None v] ∧
           checkpoint_value d phi_applied None = Some v.
Proof.
  intros Hd. unfold SetUpVariables_restart. rewrite Hd. intros Hrun.
  apply bind_inr in Hrun as (x1 & t1 & d' & t2 & Hret & Hrun & ->).
  injection Hret as <- <- <-.
  apply bind_inr in Hrun as (x2 & tA & [] & t3 & _ & Hrun & ->).
  apply bind_inr in Hrun as (x3 & tS & [] & t4 & _ & Hrun & ->).
  apply bind_inr in Hrun as (x4 & tB & [] & t5 & _ & Hrun & ->).
  apply bind_inr in Hrun as (x5 & tr0 & v & t6 & Hread & Hemit & ->).
  apply dPrev_0_last_inr in Hread as (-> & -> & Hv).
  injection Hemit as <- <-.
  exists (tA ++ tS ++ tB), v. split; [|exact Hv].
  simpl. rewrite <- !app_assoc. reflexivity.
Qed.

(** An object built by the constructor never lacks its checkpoint when
    the initializer asks for it; and when a restart completes, the guess
    given to the applied potential is the value the constructor stored as
    [phiPrev]. *)
Theorem init_then_SetUpVariables (loadmat : string → error + checkpoint)
    (s : SystemConfig) (e : ElectrodeConfig) (ts : option float) (self : SimPETS)
    (tape : nat → Q) (x : nat) :
  init loadmat (Some s) (Some e) ts = inr self →
  result_of (SetUpVariables tape self x) ≠ inl AttributeError ∧
  (prevDir s ≠ "false" → returns (SetUpVariables tape self) x →
   SetInitialGuess phi_applied None (phiPrev (ndD_s self))
     ∈ trace_of (SetUpVariables tape self x)).
Proof.
  intros Hinit.
  destruct (init_inr _ _ _ _ _ Hinit) as (Hcfg & _ & _ & Hfresh & Hrestart).
  assert (Hdir : prevDir (ndD_s self) = prevDir s) by (rewrite Hcfg; reflexivity).
  split.
  - pose proof (SetUpVariables_safe tape self x) as [_ Hres]. intros Heq.
    rewrite Heq in Hres. destruct Hres as [Hpy|(_ & Hnone & Hne)].
    + exact (python_error_not_AttributeError Hpy).
    + rewrite Hdir in Hne. destruct (Hrestart Hne) as (d & _ & Hd & _). congruence.
  - intros Hne [[] Hret]. destruct (Hrestart Hne) as (d & _ & Hd & _ & Hphi).
    apply (checkpoint_value_last_sample self d phi_applied None _ I) in Hphi.
    rewrite SetUpVariables_run in Hret |- *.
    destruct (String.eqb_spec (prevDir (ndD_s self)) "false") as [Heq|_];
      [congruence|].
    destruct (SetUpVariables_restart self x) as [[x' tr] [err|[]]] eqn:Hrun;
      [discriminate Hret|].
    destruct (SetUpVariables_restart_ends self d x x' tr Hd Hrun) as (pre & v & -> & Hv).
    assert (v = phiPrev (ndD_s self)) as -> by congruence.
    unfold trace_of. simpl. apply elem_of_app. left. apply elem_of_app. right. left.
Qed.

Lemma init_then_SetUpVariables_witness :
  ∃ self,
    init ex_loadmat (Some (ex_ndD_s "out/prev")) (Some ex_ndD_e) (Some (dyadic 1 0)) = inr self ∧
    SetInitialGuess phi_applied None (33 # 10)%Q
      ∈ trace_of (SetUpVariables ex_tape self 0%nat).
Proof.
  assert (Hinit : init ex_loadmat (Some (ex_ndD_s "out/prev")) (Some ex_ndD_e) (Some (dyadic 1 0)) =
    inr {| ndD_s := set_prev (ex_ndD_s "out/prev") (1 # 2) (33 # 10);
           ndD_e := ex_ndD_e; tScale := Some (dyadic 1 0); dataPrev := Some ex_checkpoint |}).
  { vm_compute. reflexivity. }
  eexists. split; [exact Hinit|].
  destruct (init_then_SetUpVariables _ _ _ _ _ ex_tape 0%nat Hinit) as [_ Hphi].
  apply Hphi; [discriminate|]. exists tt. vm_compute. reflexivity.
Defined.

(** ** The marker and the outcome of the initializer *)

(** The marker [dummyVar] is assigned exactly when the initializer
    completes.  A run that raises has issued setter calls only. *)
Theorem dummyVar_assigned_iff_returns (tape : nat → Q) (self : SimPETS) (x : nat) :
  (AssignValue dummyVar 0%Q ∈ trace_of (SetUpVariables tape self x) ↔
   result_of (SetUpVariables tape self x) = inr tt) ∧
  (∀ v y, AssignValue v y ∈ trace_of (SetUpVariables tape self x) →
          v = dummyVar ∧ y = 0%Q).
Proof.
  pose proof (SetUpVariables_safe tape self x) as [Hall _].
  rewrite Forall_forall in Hall.
  assert (Hsetter : ∀ v y cl v' idx y', cl = AssignValue v y → ¬ sets cl v' idx y').
  { intros v y cl v' idx y' -> [H|(k & _ & H)]; discriminate H. }
  assert (Hbranch : ∀ v y,
    AssignValue v y ∈ trace_of
      ((if String.eqb (prevDir (ndD_s self)) "false"
        then SetUpVariables_fresh tape self
        else SetUpVariables_restart self) x) → False).
  { intros v y Hin.
    destruct (String.eqb_spec (prevDir (ndD_s self)) "false") as [Heq|Hne].
    - pose proof (SetUpVariables_fresh_safe tape self x) as [Hf _].
      rewrite Forall_forall in Hf.
      destruct (Hf _ Hin) as (v' & idx & y' & Hs & _).
      exact (Hsetter v y _ _ _ _ eq_refl Hs).
    - destruct (dataPrev self) as [d|] eqn:Hd.
      + pose proof (SetUpVariables_restart_safe self d Hd x) as [Hr _].
        rewrite Forall_forall in Hr.
        destruct (Hr _ Hin) as (v' & idx & y' & Hs & _).
        exact (Hsetter v y _ _ _ _ eq_refl Hs).
      + unfold SetUpVariables_restart in Hin. rewrite Hd in Hin.
        unfold trace_of in Hin. simpl in Hin. inversion Hin. }
  rewrite SetUpVariables_run. unfold trace_of, result_of in *.
  destruct ((if String.eqb (prevDir (ndD_s self)) "false"
             then SetUpVariables_fresh tape self
             else SetUpVariables_restart self) x) as [[x' tr] [err|[]]];
    simpl in *.
  - split; [split; [intros Hin; destruct (Hbranch _ _ Hin) | discriminate]|].
    intros v y Hin. destruct (Hbranch _ _ Hin).
  - split; [split; [reflexivity | intros _; apply elem_of_app; right; left]|].
    intros v y Hin. apply elem_of_app in Hin as [Hin|Hin];
      [destruct (Hbranch _ _ Hin)|].
    apply list_elem_of_singleton in Hin. injection Hin as -> ->. auto.
Qed.

(** ** The fresh start: when it returns, and what it sets *)

Lemma valid_sizes_fresh_ok (self : SimPETS) : valid_sizes self → fresh_sizes_ok self.
Proof.
  intros Hv l i j Hp. destruct (Hv l i j Hp) as (n & Hn & Hpos).
  destruct (kind_of self l i j); eauto.
Qed.

(** The outcome of one particle's turn, by kind and size. *)
Lemma fresh_particle_outcome (tape : nat → Q) (self : SimPETS) l i j d :
  match kind_of self l i j, psd_num (ndD_s self) l i j with
  | SingleField, PyInt _ => result_of (fresh_particle tape self l i j d) = inr tt
  | SingleField, PyFloat _ => result_of (fresh_particle tape self l i j d) = inl TypeError
  | TwoField, PyInt n =>
      if n <? 0 then result_of (fresh_particle tape self l i j d) = inl ValueError
      else result_of (fresh_particle tape self l i j d) = inr tt
  | TwoField, PyFloat _ => result_of (fresh_particle tape self l i j d) = inl TypeError
  | UnknownKind, _ => result_of (fresh_particle tape self l i j d) = inr tt
  end.
Proof.
  destruct (kind_of_cases self l i j) as [[H1 Hk]|[(H1 & H2 & Hk)|(H1 & H2 & Hk)]];
    rewrite Hk.
  - destruct (psd_num (ndD_s self) l i j) as [n|q] eqn:Hn.
    + rewrite (fresh_particle_single _ _ _ _ _ n) by assumption. reflexivity.
    + unfold fresh_particle. rewrite bool_decide_eq_true_2 by exact H1.
      rewrite Hn. reflexivity.
  - destruct (psd_num (ndD_s self) l i j) as [n|q] eqn:Hn.
    + destruct (n <? 0) eqn:Hneg.
      * unfold fresh_particle.
        rewrite bool_decide_eq_false_2, bool_decide_eq_true_2 by assumption.
        rewrite Hn. unfold np_random_rand. rewrite Hneg. reflexivity.
      * apply Z.ltb_ge in Hneg.
        rewrite (fresh_particle_two _ _ _ _ _ n) by assumption. reflexivity.
    + unfold fresh_particle.
      rewrite bool_decide_eq_false_2, bool_decide_eq_true_2 by assumption.
      rewrite Hn. reflexivity.
  - rewrite fresh_particle_unknown by assumption.
    destruct (psd_num (ndD_s self) l i j); reflexivity.
Qed.

Lemma fresh_particle_succeeds_ok (tape : nat → Q) (self : SimPETS) l i j :
  fresh_sizes_ok self → is_particle self l i j →
  succeeds (fresh_particle tape self l i j) (λ _, True).
Proof.
  intros Hok Hp d. specialize (Hok l i j Hp).
  pose proof (fresh_particle_outcome tape self l i j d) as Hout.
  exists tt. split; [|exact I].
  destruct (kind_of self l i j).
  - destruct Hok as (n & Hn). rewrite Hn in Hout. exact Hout.
  - destruct Hok as (n & Hn & Hpos). rewrite Hn in Hout.
    replace (n <? 0) with false in Hout by (symmetry; apply Z.ltb_ge; exact Hpos).
    exact Hout.
  - destruct (psd_num (ndD_s self) l i j); exact Hout.
Qed.

Lemma fresh_particle_returns_ok (tape : nat → Q) (self : SimPETS) l i j d :
  returns (fresh_particle tape self l i j) d →
  match kind_of self l i j with
  | SingleField => ∃ n, psd_num (ndD_s self) l i j = PyInt n
  | TwoField => ∃ n, psd_num (ndD_s self) l i j = PyInt n ∧ 0 ≤ n
  | UnknownKind => True
  end.
Proof.
  intros [v Hret].
  pose proof (fresh_particle_outcome tape self l i j d) as Hout.
  destruct (kind_of self l i j); [| |exact I];
    destruct (psd_num (ndD_s self) l i j) as [n|q]; try congruence; [eauto|].
  destruct (n <? 0) eqn:Hneg; [congruence|]. apply Z.ltb_ge in Hneg. eauto.
Qed.

Lemma fresh_particle_errors (tape : nat → Q) (self : SimPETS) l i j :
  safe (fresh_particle tape self l i j) (λ _, True)
    (λ e, e = TypeError ∨ e = ValueError) (λ _, True).
Proof.
  intros d. split; [apply Forall_forall; auto|].
  pose proof (fresh_particle_outcome tape self l i j d) as Hout.
  destruct (kind_of self l i j);
    destruct (psd_num (ndD_s self) l i j) as [n|q];
    try (destruct (n <? 0)); rewrite Hout; auto.
Qed.

Lemma SetUpVariables_fresh_errors (tape : nat → Q) (self : SimPETS) :
  safe (SetUpVariables_fresh tape self) (λ _, True)
    (λ e, e = TypeError ∨ e = ValueError) (λ _, True).
Proof.
  unfold SetUpVariables_fresh.
  repeat first
    [ exact I
    | apply safe_emit
    | apply safe_seq
    | apply safe_for; [intros ? ?|]
    | apply fresh_particle_errors
    | match goal with |- safe (if ?b then _ else _) _ _ _ => destruct b end ].
Qed.

Lemma SetUpVariables_fresh_succeeds_ok (tape : nat → Q) (self : SimPETS) :
  fresh_sizes_ok self → succeeds (SetUpVariables_fresh tape self) (λ _, True).
Proof.
  intros Hv. unfold SetUpVariables_fresh.
  run_succeeds (fresh_particle_succeeds_ok tape self).
Qed.

Lemma SetUpVariables_returns_branch (tape : nat → Q) (self : SimPETS) (x : nat) :
  returns (SetUpVariables tape self) x ↔
  returns (if String.eqb (prevDir (ndD_s self)) "false"
           then SetUpVariables_fresh tape self
           else SetUpVariables_restart self) x.
Proof.
  unfold returns. rewrite SetUpVariables_run. unfold result_of.
  destruct ((if String.eqb (prevDir (ndD_s self)) "false"
             then SetUpVariables_fresh tape self
             else SetUpVariables_restart self) x) as [[x' tr] [e|[]]]; simpl.
  - split; intros [v H]; discriminate H.
  - split; intros _; eauto.
Qed.

(** A fresh start returns exactly when the size of every single-field
    particle is an integer and the size of every two-field particle is a
    non-negative integer; otherwise it raises [TypeError] (a float size)
    or [ValueError] (a negative size handed to the random generator). *)
Theorem fresh_start_returns_iff (tape : nat → Q) (self : SimPETS) (x : nat) :
  prevDir (ndD_s self) = "false" →
  (returns (SetUpVariables tape self) x ↔ fresh_sizes_ok self) ∧
  (∀ e, result_of (SetUpVariables tape self x) = inl e →
        e = TypeError ∨ e = ValueError).
Proof.
  intros Hdir. split.
  - rewrite SetUpVariables_returns_branch, Hdir, String.eqb_refl. split.
    + intros Hret l i j (Hl & Hi & Hj). unfold SetUpVariables_fresh in Hret.
      apply seq_returns in Hret as [Hret _].
      destruct (for_each_returns _ _ _ l Hret Hl) as (x1 & Hbody).
      apply seq_returns in Hbody as [_ (x2 & Hbody)].
      destruct (for_each_returns _ _ _ i Hbody (proj2 (elem_of_range _ _) Hi))
        as (x3 & Hvol).
      apply seq_returns in Hvol as [_ (x4 & Hvol)].
      apply seq_returns in Hvol as [_ (x5 & Hvol)].
      destruct (for_each_returns _ _ _ j Hvol (proj2 (elem_of_range _ _) Hj))
        as (x6 & Hpart).
      exact (fresh_particle_returns_ok _ _ _ _ _ _ Hpart).
    + intros Hok.
      destruct (SetUpVariables_fresh_succeeds_ok tape self Hok x) as (v & Hv & _).
      exists v. exact Hv.
  - intros e. rewrite SetUpVariables_run, Hdir, String.eqb_refl.
    pose proof (SetUpVariables_fresh_errors tape self x) as [_ Hres].
    unfold result_of in *.
    destruct (SetUpVariables_fresh tape self x) as [[x' tr] [e'|[]]]; simpl in *;
      [|discriminate].
    intros H. injection H as <-. exact Hres.
Qed.

Lemma fresh_start_returns_iff_witness :
  fresh_sizes_ok ex_fresh ∧ ¬ fresh_sizes_ok ex_float_sizes ∧
  result_of (SetUpVariables ex_tape ex_float_sizes 0%nat) = inl TypeError.
Proof.
  destruct (fresh_start_returns_iff ex_tape ex_fresh 0%nat eq_refl) as [Hiff _].
  destruct (fresh_start_returns_iff ex_tape ex_float_sizes 0%nat eq_refl) as [Hiff' _].
  split; [apply Hiff; exists tt; vm_compute; reflexivity|].
  split; [|vm_compute; reflexivity].
  intros Hok. apply Hiff' in Hok as [v Hv]. vm_compute in Hv. discriminate Hv.
Defined.

Lemma covers_elem {X A} (m : M X A) (B B' : list call → Prop) :
  covers m B →
  (∀ blk, B blk → ∃ pre cl post, blk = pre ++ cl :: post ∧ B' [cl]) →
  covers m B'.
Proof.
  intros Hm HB x. destruct (Hm x) as [Hret (pre & blk & post & Ht & Hblk)].
  split; [exact Hret|].
  destruct (HB blk Hblk) as (pre' & cl & post' & -> & Hcl).
  exists (pre ++ pre'), [cl], (post' ++ post). split; [|exact Hcl].
  rewrite Ht, <- !app_assoc. reflexivity.
Qed.

Lemma writes_guess v idx y : writes v idx [SetInitialGuess v idx y].
Proof. eexists _, y. split; [reflexivity|]. left. reflexivity. Qed.

Lemma writes_condition v k y : writes v (Some k) [SetInitialCondition v k y].
Proof. eexists _, y. split; [reflexivity|]. right. eauto. Qed.

Lemma fresh_particle_writes (tape : nat → Q) (self : SimPETS) l i j f idx :
  fresh_sizes_ok self → in_domain self (part l i j f) idx →
  covers (fresh_particle tape self l i j) (writes (part l i j f) idx).
Proof.
  intros Hok [Hp Hf]. specialize (Hok l i j Hp).
  destruct (kind_of_cases self l i j) as [[H1 Hk]|[(H1 & H2 & Hk)|(H1 & H2 & Hk)]];
    rewrite Hk in Hf, Hok.
  - destruct Hok as (n & Hn).
    eapply covers_elem; [apply (fresh_particle_single_covers tape self l i j n H1 Hn)|].
    intros blk ->. unfold single_field_calls.
    destruct f, idx as [k|]; try contradiction.
    + destruct Hf as (n' & Hn' & Hk'). assert (n' = n) as -> by congruence.
      assert (Hin : SetInitialCondition (part l i j F_c) k (cs0 (ndD_s self) l)
                    ∈ (λ k, SetInitialCondition (part l i j F_c) k (cs0 (ndD_s self) l))
                        <$> range n).
      { apply list_elem_of_fmap. exists k. split; [reflexivity|].
        apply elem_of_range, Hk'. }
      apply list_elem_of_split in Hin as (pre & post & ->).
      eexists (_ :: pre), _, post. split; [reflexivity | apply writes_condition].
    + eexists [], _, _. split; [reflexivity | apply writes_guess].
  - destruct Hok as (n & Hn & Hpos).
    eapply covers_elem;
      [apply (fresh_particle_two_covers tape self l i j n H1 H2 Hn Hpos)|].
    intros blk (d & ->). unfold two_field_guesses.
    destruct f, idx as [k|]; try contradiction.
    + eexists [_; _], _, _. split; [reflexivity | apply writes_guess].
    + destruct Hf as (n' & Hn' & Hk'). assert (n' = n) as -> by congruence.
      destruct (elem_of_two_field_points self l i j n
                  (perturbation tape d (Z.to_nat n))
                  (perturbation tape (d + Z.to_nat n) (Z.to_nat n)) k Hk') as [Hin _].
      apply list_elem_of_split in Hin as (pre & post & ->).
      eexists (_ :: _ :: _ :: pre), _, post.
      split; [reflexivity | apply writes_condition].
    + destruct Hf as (n' & Hn' & Hk'). assert (n' = n) as -> by congruence.
      destruct (elem_of_two_field_points self l i j n
                  (perturbation tape d (Z.to_nat n))
                  (perturbation tape (d + Z.to_nat n) (Z.to_nat n)) k Hk') as [_ Hin].
      apply list_elem_of_split in Hin as (pre & post & ->).
      eexists (_ :: _ :: _ :: pre), _, post.
      split; [reflexivity | apply writes_condition].
    + eexists [], _, _. split; [reflexivity | apply writes_guess].
    + eexists [_], _, _. split; [reflexivity | apply writes_guess].
  - destruct f, idx; contradiction.
Qed.

Lemma SetUpVariables_fresh_writes (tape : nat → Q) (self : SimPETS) v idx :
  fresh_sizes_ok self → in_domain self v idx →
  covers (SetUpVariables_fresh tape self) (writes v idx).
Proof.
  intros Hv Hdom. unfold SetUpVariables_fresh.
  destruct v as [l|l|l|r|r| | |l i j f]; destruct idx as [k|];
    simpl in Hdom; try contradiction.
  - (* ffrac *)
    apply covers_seq_l; [|run_succeeds (fresh_particle_succeeds_ok tape self)].
    apply (covers_for _ _ l); [exact Hdom | |].
    { intros ? ?. run_succeeds (fresh_particle_succeeds_ok tape self). }
    apply covers_seq_l; [apply covers_emit, writes_guess|].
    run_succeeds (fresh_particle_succeeds_ok tape self).
  - (* R_Vp *)
    destruct Hdom as [Hl Hk].
    apply covers_seq_l; [|run_succeeds (fresh_particle_succeeds_ok tape self)].
    apply (covers_for _ _ l); [exact Hl | |].
    { intros ? ?. run_succeeds (fresh_particle_succeeds_ok tape self). }
    emit_skip.
    apply (covers_for _ _ k); [apply elem_of_range; exact Hk | |].
    { intros ? ?. run_succeeds (fresh_particle_succeeds_ok tape self). }
    apply covers_seq_l; [apply covers_emit, writes_guess|].
    run_succeeds (fresh_particle_succeeds_ok tape self).
  - (* phi_bulk *)
    destruct Hdom as [Hl Hk].
    apply covers_seq_l; [|run_succeeds (fresh_particle_succeeds_ok tape self)].
    apply (covers_for _ _ l); [exact Hl | |].
    { intros ? ?. run_succeeds (fresh_particle_succeeds_ok tape self). }
    emit_skip.
    apply (covers_for _ _ k); [apply elem_of_range; exact Hk | |].
    { intros ? ?. run_succeeds (fresh_particle_succeeds_ok tape self). }
    emit_skip.
    apply covers_seq_l; [|run_succeeds (fresh_particle_succeeds_ok tape self)].
    destruct (bool_decide (l = Anode)); apply covers_emit, writes_guess.
  - (* c_lyte *)
    destruct Hdom as [Hr Hk].
    apply covers_seq_r; [run_succeeds (fresh_particle_succeeds_ok tape self)|].
    destruct r as [|l].
    + apply covers_seq_l; [|run_succeeds (fresh_particle_succeeds_ok tape self)].
      apply (covers_for _ _ k); [apply elem_of_range; exact Hk | |].
      { intros ? ?. run_succeeds (fresh_particle_succeeds_ok tape self). }
      apply covers_seq_l; [apply covers_emit, writes_condition|].
      apply succeeds_emit. exact I.
    + apply covers_seq_r; [run_succeeds (fresh_particle_succeeds_ok tape self)|].
      apply covers_seq_l; [|apply succeeds_emit; exact I].
      apply (covers_for _ _ l); [exact Hr | |].
      { intros ? ?. run_succeeds (fresh_particle_succeeds_ok tape self). }
      apply (covers_for _ _ k); [apply elem_of_range; exact Hk | |].
      { intros ? ?. run_succeeds (fresh_particle_succeeds_ok tape self). }
      apply covers_seq_l; [apply covers_emit, writes_condition|].
      apply succeeds_emit. exact I.
  - (* phi_lyte *)
    destruct Hdom as [Hr Hk].
    apply covers_seq_r; [run_succeeds (fresh_particle_succeeds_ok tape self)|].
    destruct r as [|l].
    + apply covers_seq_l; [|run_succeeds (fresh_particle_succeeds_ok tape self)].
      apply (covers_for _ _ k); [apply elem_of_range; exact Hk | |].
      { intros ? ?. run_succeeds (fresh_particle_succeeds_ok tape self). }
      emit_skip. apply covers_emit, writes_guess.
    + apply covers_seq_r; [run_succeeds (fresh_particle_succeeds_ok tape self)|].
      apply covers_seq_l; [|apply succeeds_emit; exact I].
      apply (covers_for _ _ l); [exact Hr | |].
      { intros ? ?. run_succeeds (fresh_particle_succeeds_ok tape self). }
      apply (covers_for _ _ k); [apply elem_of_range; exact Hk | |].
      { intros ? ?. run_succeeds (fresh_particle_succeeds_ok tape self). }
      emit_skip. apply covers_emit, writes_guess.
  - (* phi_applied *)
    do 3 (apply covers_seq_r; [run_succeeds (fresh_particle_succeeds_ok tape self)|]).
    apply covers_emit, writes_guess.
  - (* a particle field, per point *)
    pose proof Hdom as [(Hl & Hi & Hj) _].
    apply covers_seq_l; [|run_succeeds (fresh_particle_succeeds_ok tape self)].
    apply (covers_for _ _ l); [exact Hl | |].
    { intros ? ?. run_succeeds (fresh_particle_succeeds_ok tape self). }
    emit_skip.
    apply (covers_for _ _ i); [apply elem_of_range; exact Hi | |].
    { intros ? ?. run_succeeds (fresh_particle_succeeds_ok tape self). }
    emit_skip.
    apply covers_seq_r; [run_succeeds (fresh_particle_succeeds_ok tape self)|].
    apply (covers_for _ _ j); [apply elem_of_range; exact Hj | |].
    { intros ? ?. run_succeeds (fresh_particle_succeeds_ok tape self). }
    apply fresh_particle_writes; assumption.
  - (* a particle average *)
    pose proof Hdom as [(Hl & Hi & Hj) _].
    apply covers_seq_l; [|run_succeeds (fresh_particle_succeeds_ok tape self)].
    apply (covers_for _ _ l); [exact Hl | |].
    { intros ? ?. run_succeeds (fresh_particle_succeeds_ok tape self). }
    emit_skip.
    apply (covers_for _ _ i); [apply elem_of_range; exact Hi | |].
    { intros ? ?. run_succeeds (fresh_particle_succeeds_ok tape self). }
    emit_skip.
    apply covers_seq_r; [run_succeeds (fresh_particle_succeeds_ok tape self)|].
    apply (covers_for _ _ j); [apply elem_of_range; exact Hj | |].
    { intros ? ?. run_succeeds (fresh_particle_succeeds_ok tape self). }
    apply fresh_particle_writes; assumption.
Qed.

(** A fresh start that can run sets every variable of the domain, with
    the setter of its kind (an initial condition for the concentrations,
    a guess for the rest) and, unless it is a perturbed per-point field,
    with its configured value: [cs0] for the filling fraction and the
    solid concentrations, 0 for the reaction rates, the anode's bulk
    potential, the electrolyte potentials and the applied potential,
    [phi_cathode] for the cathode's bulk potential, [c0] for the
    electrolyte concentrations.  Every setter call is one of these. *)
Theorem fresh_start_sets_every_variable (tape : nat → Q) (self : SimPETS) (x : nat) :
  prevDir (ndD_s self) = "false" →
  fresh_sizes_ok self →
  let tr := trace_of (SetUpVariables tape self x) in
  (∀ v idx, in_domain self v idx → ∃ cl y, cl ∈ tr ∧ sets cl v idx y) ∧
  (∀ cl v idx y, cl ∈ tr → sets cl v idx y →
     in_domain self v idx ∧
     (∀ y0, fresh_value self v = Some y0 → y = y0) ∧
     (if is_differential v then ∃ k, cl = SetInitialCondition v k y
      else cl = SetInitialGuess v idx y)).
Proof.
  intros Hdir Hok tr. split.
  - intros v idx Hdom.
    destruct (SetUpVariables_fresh_writes tape self v idx Hok Hdom x)
      as [_ (pre & blk & post & Ht & cl & y & -> & Hs)].
    exists cl, y. split; [|exact Hs].
    apply elem_of_fresh_trace; [exact Hdir|]. rewrite Ht.
    apply elem_of_app. right. left.
  - intros cl v idx y Hin Hs.
    pose proof (SetUpVariables_safe tape self x) as [Hall _].
    rewrite Forall_forall in Hall.
    destruct (Hall cl Hin) as [->|[[_ Hf]|[Hne _]]]; [| |contradiction].
    + destruct Hs as [H|(k & _ & H)]; discriminate H.
    + exact (fresh_call_sets self cl v idx y Hf Hs).
Qed.

Lemma fresh_start_sets_every_variable_witness :
  (∃ cl y, cl ∈ trace_of (SetUpVariables ex_tape ex_fresh 0%nat) ∧
           sets cl (phi_bulk Cathode) (Some 0) y) ∧
  ∀ cl idx y, cl ∈ trace_of (SetUpVariables ex_tape ex_fresh 0%nat) →
              sets cl (phi_bulk Cathode) idx y → y = (17 # 5)%Q.
Proof.
  destruct (fresh_start_sets_every_variable ex_tape ex_fresh 0%nat eq_refl
              (valid_sizes_fresh_ok _ (ex_valid_sizes _ _))) as [Hcov Hval].
  split.
  - apply Hcov. simpl. split; [right; left | cbn; lia].
  - intros cl idx y Hin Hs. destruct (Hval cl _ idx y Hin Hs) as (_ & Hy & _).
    apply Hy. reflexivity.
Defined.

(** ** The restart: when it returns, and how it fails *)

Lemma read_0_last_returns {X A} (d : checkpoint) key (k : Q → M X A) x :
  returns (dPrev_0_last d key ≫= k) x →
  is_Some (d !! key ≫= at_0_last) ∧ ∃ v, returns (k v) x.
Proof.
  intros (x1 & t1 & v & Hread & Hk)%bind_returns.
  apply dPrev_0_last_inr in Hread as (-> & _ & Hv). split; eauto.
Qed.

Lemma read_last_returns {X A} (d : checkpoint) key i (k : Q → M X A) x :
  returns (dPrev_last d key i ≫= k) x →
  is_Some (d !! key ≫= (λ arr, at_last arr i)) ∧ ∃ v, returns (k v) x.
Proof.
  intros (x1 & t1 & v & Hread & Hk)%bind_returns.
  apply dPrev_last_inr in Hread as (-> & _ & Hv). split; eauto.
Qed.

Lemma py_range_returns {X A} (n : pynum) (k : list Z → M X A) x :
  returns (py_range n ≫= k) x → ∃ z, n = PyInt z ∧ returns (k (range z)) x.
Proof.
  intros (x1 & t1 & v & Hread & Hk)%bind_returns.
  destruct n as [z|q]; [|discriminate]. injection Hread as <- _ <-. eauto.
Qed.

(** What a particle's turn has read when it returns. *)
Lemma restart_particle_returns (self : SimPETS) d l i j x f idx :
  returns (restart_particle self d l i j) x →
  match kind_of self l i j with
  | UnknownKind => True
  | _ => ∃ n, psd_num (ndD_s self) l i j = PyInt n
  end ∧
  (in_domain self (part l i j f) idx →
   is_Some (checkpoint_value d (part l i j f) idx)).
Proof.
  intros Hret. unfold restart_particle in Hret.
  destruct (kind_of_cases self l i j) as [[H1 Hk]|[(H1 & H2 & Hk)|(H1 & H2 & Hk)]];
    rewrite Hk.
  - rewrite bool_decide_eq_true_2 in Hret by exact H1.
    apply read_0_last_returns in Hret as [Hcbar (v & Hret)].
    apply seq_returns in Hret as [_ (x1 & Hret)].
    apply py_range_returns in Hret as (n & Hn & Hret).
    split; [eauto|]. intros [_ Hdom]. rewrite Hk in Hdom.
    destruct f, idx as [k|]; try contradiction; [|exact Hcbar].
    destruct Hdom as (n' & Hn' & Hk'). assert (n' = n) as -> by congruence.
    destruct (for_each_returns _ _ _ k Hret (proj2 (elem_of_range _ _) Hk'))
      as (x2 & Hpt).
    apply read_last_returns in Hpt as [Hc _]. exact Hc.
  - rewrite bool_decide_eq_false_2, bool_decide_eq_true_2 in Hret by assumption.
    apply read_0_last_returns in Hret as [Hc1bar (v1 & Hret)].
    apply seq_returns in Hret as [_ (x1 & Hret)].
    apply read_0_last_returns in Hret as [Hc2bar (v2 & Hret)].
    apply seq_returns in Hret as [_ (x2 & Hret)].
    apply read_0_last_returns in Hret as [Hcbar (v3 & Hret)].
    apply seq_returns in Hret as [_ (x3 & Hret)].
    apply py_range_returns in Hret as (n & Hn & Hret).
    split; [eauto|]. intros [_ Hdom]. rewrite Hk in Hdom.
    destruct f, idx as [k|]; try contradiction;
      try assumption;
      destruct Hdom as (n' & Hn' & Hk'); assert (n' = n) as -> by congruence;
      destruct (for_each_returns _ _ _ k Hret (proj2 (elem_of_range _ _) Hk'))
        as (x4 & Hpt);
      apply read_last_returns in Hpt as [Hc1 (w & Hpt)].
    + exact Hc1.
    + apply seq_returns in Hpt as [_ (x5 & Hpt)].
      apply read_last_returns in Hpt as [Hc2 _]. exact Hc2.
  - split; [exact I|]. intros [_ Hdom]. rewrite Hk in Hdom.
    destruct f, idx; contradiction.
Qed.

Lemma SetUpVariables_restart_returns (self : SimPETS) (x : nat) :
  returns (SetUpVariables_restart self) x →
  ∃ d, dataPrev self = Some d ∧ restart_sizes_ok self ∧
       well_formed_checkpoint self d.
Proof.
  unfold SetUpVariables_restart. intros Hret.
  destruct (dataPrev self) as [d|];
    [|destruct Hret as [v Hv]; discriminate Hv].
  exists d. split; [reflexivity|].
  apply bind_returns in Hret as (x0 & t0 & d' & Hd & Hret).
  injection Hd as <- _ <-.
  apply seq_returns in Hret as [HA (x1 & Hret)].
  apply seq_returns in Hret as [HS (x2 & Hret)].
  apply seq_returns in Hret as [HB (x3 & Hret)].
  apply read_0_last_returns in Hret as [Hphi _].
  assert (Hpart : ∀ l i j, is_particle self l i j →
            ∃ x', returns (restart_particle self d l i j) x').
  { intros l i j (Hl & Hi & Hj).
    destruct (for_each_returns _ _ _ l HA Hl) as (y1 & Hbody).
    apply read_0_last_returns in Hbody as [_ (v & Hbody)].
    apply seq_returns in Hbody as [_ (y2 & Hbody)].
    destruct (for_each_returns _ _ _ i Hbody (proj2 (elem_of_range _ _) Hi))
      as (y3 & Hvol).
    apply read_last_returns in Hvol as [_ (v1 & Hvol)].
    apply seq_returns in Hvol as [_ (y4 & Hvol)].
    apply read_last_returns in Hvol as [_ (v2 & Hvol)].
    apply seq_returns in Hvol as [_ (y5 & Hvol)].
    exact (for_each_returns _ _ _ j Hvol (proj2 (elem_of_range _ _) Hj)). }
  split.
  { intros l i j Hp. destruct (Hpart l i j Hp) as (x' & Hr).
    destruct (restart_particle_returns self d l i j x' F_c None Hr) as [Hsz _].
    destruct (kind_of self l i j); exact Hsz. }
  intros v idx Hdom.
  destruct v as [l|l|l|r|r| | |l i j f]; destruct idx as [k|];
    simpl in Hdom; try contradiction.
  - destruct (for_each_returns _ _ _ l HA Hdom) as (y1 & Hbody).
    apply read_0_last_returns in Hbody as [Hff _]. exact Hff.
  - destruct Hdom as [Hl Hk].
    destruct (for_each_returns _ _ _ l HA Hl) as (y1 & Hbody).
    apply read_0_last_returns in Hbody as [_ (v & Hbody)].
    apply seq_returns in Hbody as [_ (y2 & Hbody)].
    destruct (for_each_returns _ _ _ k Hbody (proj2 (elem_of_range _ _) Hk))
      as (y3 & Hvol).
    apply read_last_returns in Hvol as [Hr _]. exact Hr.
  - destruct Hdom as [Hl Hk].
    destruct (for_each_returns _ _ _ l HA Hl) as (y1 & Hbody).
    apply read_0_last_returns in Hbody as [_ (v & Hbody)].
    apply seq_returns in Hbody as [_ (y2 & Hbody)].
    destruct (for_each_returns _ _ _ k Hbody (proj2 (elem_of_range _ _) Hk))
      as (y3 & Hvol).
    apply read_last_returns in Hvol as [_ (v1 & Hvol)].
    apply seq_returns in Hvol as [_ (y4 & Hvol)].
    apply read_last_returns in Hvol as [Hb _]. exact Hb.
  - destruct Hdom as [Hr Hk]. destruct r as [|l].
    + destruct (for_each_returns _ _ _ k HS (proj2 (elem_of_range _ _) Hk))
        as (y1 & Hvol).
      apply read_last_returns in Hvol as [Hc _]. exact Hc.
    + destruct (for_each_returns _ _ _ l HB Hr) as (y1 & Hbody).
      destruct (for_each_returns _ _ _ k Hbody (proj2 (elem_of_range _ _) Hk))
        as (y2 & Hvol).
      apply read_last_returns in Hvol as [Hc _]. exact Hc.
  - destruct Hdom as [Hr Hk]. destruct r as [|l].
    + destruct (for_each_returns _ _ _ k HS (proj2 (elem_of_range _ _) Hk))
        as (y1 & Hvol).
      apply read_last_returns in Hvol as [_ (v1 & Hvol)].
      apply seq_returns in Hvol as [_ (y2 & Hvol)].
      apply read_last_returns in Hvol as [Hc _]. exact Hc.
    + destruct (for_each_returns _ _ _ l HB Hr) as (y1 & Hbody).
      destruct (for_each_returns _ _ _ k Hbody (proj2 (elem_of_range _ _) Hk))
        as (y2 & Hvol).
      apply read_last_returns in Hvol as [_ (v1 & Hvol)].
      apply seq_returns in Hvol as [_ (y3 & Hvol)].
      apply read_last_returns in Hvol as [Hc _]. exact Hc.
  - exact Hphi.
  - pose proof Hdom as [Hp _]. destruct (Hpart l i j Hp) as (x' & Hr).
    apply (restart_particle_returns self d l i j x' f (Some k) Hr). split; apply Hdom.
  - pose proof Hdom as [Hp _]. destruct (Hpart l i j Hp) as (x' & Hr).
    apply (restart_particle_returns self d l i j x' f None Hr). split; apply Hdom.
Qed.

Lemma restart_particle_succeeds_ok (self : SimPETS) d l i j :
  well_formed_checkpoint self d → restart_sizes_ok self →
  is_particle self l i j →
  succeeds (restart_particle self d l i j) (λ _, True).
Proof.
  intros Hwf Hok Hp. specialize (Hok l i j Hp). unfold restart_particle.
  destruct (kind_of_cases self l i j) as [[H1 Hk]|[(H1 & H2 & Hk)|(H1 & H2 & Hk)]];
    rewrite Hk in Hok.
  - destruct Hok as (n & Hn). rewrite bool_decide_eq_true_2 by exact H1.
    read_ok Hwf (part l i j F_cbar) (@None Z).
    { simpl. rewrite Hk. auto. }
    emit_ok. eapply succeeds_bind; [apply (py_range_succeeds _ n Hn)|].
    intros ks ->. exact (single_points_succeed self d l i j Hwf Hp n Hk Hn).
  - destruct Hok as (n & Hn).
    rewrite bool_decide_eq_false_2, bool_decide_eq_true_2 by assumption.
    read_ok Hwf (part l i j F_c1bar) (@None Z).
    { simpl. rewrite Hk. auto. }
    emit_ok. read_ok Hwf (part l i j F_c2bar) (@None Z).
    { simpl. rewrite Hk. auto. }
    emit_ok. read_ok Hwf (part l i j F_cbar) (@None Z).
    { simpl. rewrite Hk. auto. }
    emit_ok. eapply succeeds_bind; [apply (py_range_succeeds _ n Hn)|].
    intros ks ->. exact (two_points_succeed self d l i j Hwf Hp n Hk Hn).
  - rewrite !bool_decide_eq_false_2 by assumption. apply succeeds_ret. exact I.
Qed.

Lemma SetUpVariables_restart_succeeds_ok (self : SimPETS) d :
  dataPrev self = Some d → restart_sizes_ok self →
  well_formed_checkpoint self d →
  succeeds (SetUpVariables_restart self) (λ _, True).
Proof.
  intros Hd Hok Hwf. unfold SetUpVariables_restart. rewrite Hd.
  eapply succeeds_bind; [apply (succeeds_ret d (λ d', d' = d)); reflexivity|].
  intros ? ->.
  repeat first
    [ exact I
    | apply succeeds_emit
    | apply succeeds_ret
    | apply succeeds_seq
    | apply succeeds_for; [intros ? ?|]
    | read_next read_ok Hwf; [domain_side|]
    | apply restart_particle_succeeds_ok; [exact Hwf | exact Hok | particle_side] ].
Qed.

(** A restart returns exactly when a checkpoint was loaded, the size of
    every particle of a known kind is an integer, and the checkpoint has
    a last sample for every variable of the domain. *)
Theorem restart_returns_iff (tape : nat → Q) (self : SimPETS) (x : nat) :
  prevDir (ndD_s self) ≠ "false" →
  (returns (SetUpVariables tape self) x ↔
   ∃ d, dataPrev self = Some d ∧ restart_sizes_ok self ∧
        complete_checkpoint self d).
Proof.
  intros Hdir. rewrite SetUpVariables_returns_branch.
  destruct (String.eqb_spec (prevDir (ndD_s self)) "false") as [Heq|_];
    [contradiction|].
  split.
  { intros Hret. apply SetUpVariables_restart_returns in Hret as (d & Hd & Hok & Hwf).
    exists d. split; [exact Hd|]. split; [exact Hok|].
    apply complete_checkpoint_well_formed, Hwf. }
  intros (d & Hd & Hok & Hwf). apply complete_checkpoint_well_formed in Hwf.
  destruct (SetUpVariables_restart_succeeds_ok self d Hd Hok Hwf x) as (v & Hv & _).
  exists v. exact Hv.
Qed.

Lemma restart_returns_iff_witness :
  (∃ d, dataPrev ex_restart = Some d ∧ restart_sizes_ok ex_restart ∧
        complete_checkpoint ex_restart d) ∧
  ¬ returns (SetUpVariables ex_tape ex_none) 0%nat.
Proof.
  split.
  - apply (restart_returns_iff ex_tape ex_restart 0%nat); [discriminate|].
    exists tt. vm_compute. reflexivity.
  - intros Hret.
    apply (restart_returns_iff ex_tape ex_none 0%nat) in Hret as (d & Hd & _);
      [discriminate Hd | discriminate].
Defined.

Lemma dPrev_0_last_errors {X} (d : checkpoint) key :
  safe (dPrev_0_last (X := X) d key) (λ _, True) (restart_error d) (λ _, True).
Proof.
  unfold dPrev_0_last. destruct (d !! key) as [arr|] eqn:Hkey.
  - destruct (at_0_last arr).
    + apply safe_ret. exact I.
    + apply safe_raise. right. left. split; [reflexivity|]. exists key. rewrite Hkey. eauto.
  - apply safe_raise. right. right. eauto.
Qed.

Lemma dPrev_last_errors {X} (d : checkpoint) key i :
  safe (dPrev_last (X := X) d key i) (λ _, True) (restart_error d) (λ _, True).
Proof.
  unfold dPrev_last. destruct (d !! key) as [arr|] eqn:Hkey.
  - destruct (at_last arr i).
    + apply safe_ret. exact I.
    + apply safe_raise. right. left. split; [reflexivity|]. exists key. rewrite Hkey. eauto.
  - apply safe_raise. right. right. eauto.
Qed.

Lemma py_range_errors {X} (d : checkpoint) (n : pynum) :
  safe (py_range (X := X) n) (λ _, True) (restart_error d) (λ _, True).
Proof.
  destruct n; [apply safe_ret; exact I | apply safe_raise; left; reflexivity].
Qed.

Ltac restart_errors_tac :=
  repeat first
    [ exact I
    | apply safe_emit
    | apply safe_ret
    | apply safe_seq
    | apply safe_for; [intros ? ?|]
    | eapply safe_bind; [apply dPrev_0_last_errors|]; intros ? _
    | eapply safe_bind; [apply dPrev_last_errors|]; intros ? _
    | eapply safe_bind; [apply py_range_errors|]; intros ? _
    | match goal with |- safe (if ?b then _ else _) _ _ _ => destruct b end ].

Lemma restart_particle_errors (self : SimPETS) d l i j :
  safe (restart_particle self d l i j) (λ _, True) (restart_error d) (λ _, True).
Proof. unfold restart_particle. restart_errors_tac. Qed.

Lemma SetUpVariables_restart_errors (self : SimPETS) d :
  dataPrev self = Some d →
  safe (SetUpVariables_restart self) (λ _, True) (restart_error d) (λ _, True).
Proof.
  intros Hd. unfold SetUpVariables_restart. rewrite Hd.
  eapply safe_bind; [apply (safe_ret d _ _ (λ d', d' = d)); reflexivity|].
  intros ? ->.
  repeat first [apply restart_particle_errors | progress restart_errors_tac].
Qed.

(** How a restart fails.  Without a loaded checkpoint it raises
    [AttributeError] before any call.  With one, it raises [TypeError]
    (a float size), [IndexError] (an array of the checkpoint is too
    small) or [KeyError] naming a key the checkpoint lacks; it never
    raises [ValueError].  In every case the random generator is left
    as it was. *)
Theorem restart_errors (tape : nat → Q) (self : SimPETS) (x : nat) (e : error) :
  prevDir (ndD_s self) ≠ "false" →
  result_of (SetUpVariables tape self x) = inl e →
  state_of (SetUpVariables tape self x) = x ∧
  ((dataPrev self = None ∧ e = AttributeError ∧
    trace_of (SetUpVariables tape self x) = []) ∨
   (∃ d, dataPrev self = Some d ∧ restart_error d e)).
Proof.
  intros Hdir. rewrite SetUpVariables_run.
  destruct (String.eqb_spec (prevDir (ndD_s self)) "false") as [Heq|_];
    [contradiction|].
  pose proof (SetUpVariables_restart_pure self x) as Hx.
  destruct (dataPrev self) as [d|] eqn:Hd.
  - pose proof (SetUpVariables_restart_errors self d Hd x) as [_ Hres].
    unfold result_of, state_of, trace_of in *.
    destruct (SetUpVariables_restart self x) as [[x' tr] [e'|[]]]; simpl in *;
      [|discriminate].
    intros H. injection H as <-. split; [exact Hx|]. right. eauto.
  - unfold SetUpVariables_restart. rewrite Hd. simpl.
    intros H. injection H as <-. split; [reflexivity|]. left. auto.
Qed.

Lemma restart_errors_witness :
  result_of (SetUpVariables ex_tape (with_dataPrev ex_restart (Some ∅)) 0%nat)
    = inl (KeyError "ffrac_a") ∧
  restart_error ∅ (KeyError "ffrac_a").
Proof.
  assert (Hres : result_of
            (SetUpVariables ex_tape (with_dataPrev ex_restart (Some ∅)) 0%nat)
            = inl (KeyError "ffrac_a")) by (vm_compute; reflexivity).
  split; [exact Hres|].
  destruct (restart_errors ex_tape (with_dataPrev ex_restart (Some ∅)) 0%nat _
              ltac:(discriminate) Hres) as [_ [(Hnone & _)|(d & Hd & He)]].
  - discriminate Hnone.
  - injection Hd as <-. exact He.
Defined.

(** A restart never touches the random generator, whether it returns or
    raises. *)
Lemma SetUpVariables_restart_state (tape : nat → Q) (self : SimPETS) (x : nat) :
  prevDir (ndD_s self) ≠ "false" →
  state_of (SetUpVariables tape self x) = x.
Proof.
  intros Hdir. rewrite SetUpVariables_run.
  destruct (String.eqb_spec (prevDir (ndD_s self)) "false") as [Heq|_];
    [contradiction|].
  pose proof (SetUpVariables_restart_pure self x) as Hp. unfold state_of in *.
  destruct (SetUpVariables_restart self x) as [[x1 t1] [e|v]]; exact Hp.
Qed.

(** A restart does not use the configured initial values nor the random
    generator: changing [cs0], [c0], [phi_cathode] or the samples changes
    nothing in what it does, and it consumes no sample, also when it
    raises. *)
Theorem restart_ignores_initial_values (tape tape' : nat → Q) (self : SimPETS)
    (cs : trode → Q) (c phi : Q) (x : nat) :
  prevDir (ndD_s self) ≠ "false" →
  SetUpVariables tape' (with_initial_values self cs c phi) x =
  SetUpVariables tape self x ∧
  state_of (SetUpVariables tape self x) = x.
Proof.
  intros Hdir. split; [|apply SetUpVariables_restart_state, Hdir].
  rewrite !SetUpVariables_run.
  change (prevDir (ndD_s (with_initial_values self cs c phi)))
    with (prevDir (ndD_s self)).
  destruct (String.eqb_spec (prevDir (ndD_s self)) "false") as [Heq|_];
    [contradiction | reflexivity].
Qed.

Lemma restart_ignores_initial_values_witness :
  SetUpVariables (λ _, 1 # 2)%Q (with_initial_values ex_restart (λ _, 1 # 3) 2 0)%Q 0%nat =
  SetUpVariables ex_tape ex_restart 0%nat ∧
  state_of (SetUpVariables ex_tape ex_restart 0%nat) = 0%nat.
Proof.
  apply (restart_ignores_initial_values ex_tape). discriminate.
Defined.

(** ** The initializer against the domain builder *)

(** Every index the initializer writes at lies inside the array the
    domain builder creates for it: a point [k] of a particle is below
    the size of that particle's array, and a volume [i] of the separator
    or of an electrode is below the size of that region's cell array.
    This holds for every run, also one that raises. *)
Theorem indices_within_allocated_arrays {X} (tape : nat → Q) (self : SimPETS)
    (x : nat) (y : X) (cl : call) (v : var) (k : Z) (val : Q) :
  cl ∈ trace_of (SetUpVariables tape self x) →
  sets cl v (Some k) val →
  ∃ d n, domain_of v = Some d ∧
         CreateArray d n ∈ trace_of (SetUpParametersAndDomains self y) ∧
         0 ≤ k < n.
Proof.
  intros Hin Hs.
  pose proof (SetUpVariables_safe tape self x) as [Hall _].
  rewrite Forall_forall in Hall.
  assert (Hdom : in_domain self v (Some k)).
  { destruct (Hall cl Hin) as [->|[[_ Hf]|(_ & d & _ & Hr)]].
    - destruct Hs as [H|(k' & _ & H)]; discriminate H.
    - apply (fresh_call_sets self cl v (Some k) val Hf Hs).
    - apply (restart_call_sets self d cl v (Some k) val Hr Hs). }
  assert (Hbuilt : ∀ d n, allocated self d n →
            CreateArray d n ∈ trace_of (SetUpParametersAndDomains self y)).
  { intros d n Hd. apply covers_call, SetUpParametersAndDomains_covers, Hd. }
  assert (Hcell : ∀ r, is_volume self r k →
            ∃ d n, Some (DmnCell r) = Some d ∧
                   CreateArray d n ∈ trace_of (SetUpParametersAndDomains self y) ∧
                   0 ≤ k < n).
  { intros r [Hr Hk]. exists (DmnCell r), (Nvol (ndD_s self) r).
    split; [reflexivity|]. split; [|exact Hk]. apply Hbuilt.
    destruct r as [|l]; simpl; [split; [lia | reflexivity] | auto]. }
  destruct v as [l|l|l|r|r| | |l i j f]; simpl in Hdom; try contradiction;
    try (apply Hcell; exact Hdom).
  destruct Hdom as [Hp Hf].
  assert (Hpt : is_point self l i j k).
  { destruct (kind_of self l i j), f; try contradiction; exact Hf. }
  destruct Hpt as (n & Hn & Hk).
  exists (PartDmn l i j), n. split; [reflexivity|]. split; [|exact Hk].
  apply Hbuilt. simpl. rewrite Hn. auto.
Qed.

Lemma indices_within_allocated_arrays_witness :
  ∃ d n, domain_of (part Cathode 0 1 F_c2) = Some d ∧
         CreateArray d n ∈ trace_of (SetUpParametersAndDomains ex_fresh tt) ∧
         0 ≤ 2 < n.
Proof.
  apply (indices_within_allocated_arrays ex_tape ex_fresh 0%nat tt
           (SetInitialCondition (part Cathode 0 1 F_c2) 2
              (cs0 (ndD_s ex_fresh) Cathode +
               demean (perturb (ex_tape <$> seq 3 3)) !!! 2%nat)%Q)
           (part Cathode 0 1 F_c2) 2
           (cs0 (ndD_s ex_fresh) Cathode +
            demean (perturb (ex_tape <$> seq 3 3)) !!! 2%nat)%Q).
  - apply list_elem_of_In. vm_compute. do 22 right. left. reflexivity.
  - right. eauto.
Defined.

(** ** The driver: every run, also one that halts or fails *)

Section driver_runs.
Context {S : Type} (sim : DaeSimulation S) (ts : float).

Lemma step_calls_projections (t : float) (x : S) (time : float) (x' : S) (p : Z)
    (t2 : list call) :
  requests (step_calls sim ts t x time x' p ++ t2) = t :: requests t2 ∧
  length (filter (λ cl, is_LogMessage cl = true) (step_calls sim ts t x time x' p ++ t2))
    = Datatypes.S (length (filter (λ cl, is_LogMessage cl = true) t2)) ∧
  length (filter (λ cl, is_ReportData cl = true) (step_calls sim ts t x time x' p ++ t2))
    = Datatypes.S (length (filter (λ cl, is_ReportData cl = true) t2)) ∧
  length (filter (λ cl, is_SetProgress cl = true) (step_calls sim ts t x time x' p ++ t2))
    = Datatypes.S (length (filter (λ cl, is_SetProgress cl = true) t2)).
Proof. repeat split. Qed.

Lemma Run_from_requests (times : list float) :
  ∀ x, let tr := trace_of (Run_from sim (Some ts) times x) in
    requests tr `prefix_of` times ∧
    length (filter (λ cl, is_LogMessage cl = true) tr) = length (requests tr) ∧
    (length (filter (λ cl, is_ReportData cl = true) tr) ≤ length (requests tr))%nat ∧
    (length (filter (λ cl, is_SetProgress cl = true) tr)
       ≤ length (filter (λ cl, is_ReportData cl = true) tr))%nat.
Proof.
  induction times as [|t rest IH]; intros x; cbv zeta.
  { split; [apply prefix_nil|]. split; [reflexivity|]. split; reflexivity. }
  rewrite Run_from_cons.
  destruct (integrate sim t x) as [e|[time x']].
  { unfold trace_of, requests. simpl.
    split; [apply prefix_cons, prefix_nil|]. split; [reflexivity|]. split; lia. }
  destruct (percent (CurrentTime sim x') (TimeHorizon sim)) as [e|p].
  { unfold trace_of, requests. simpl.
    split; [apply prefix_cons, prefix_nil|]. split; [reflexivity|]. split; lia. }
  destruct (SFltb time t).
  { change (trace_of (x', step_calls sim ts t x time x' p, inr ()))
      with (step_calls sim ts t x time x' p).
    rewrite <- (app_nil_r (step_calls sim ts t x time x' p)).
    destruct (step_calls_projections t x time x' p []) as (-> & -> & -> & ->).
    split; [apply prefix_cons, prefix_nil|]. split; [reflexivity|].
    split; simpl; lia. }
  specialize (IH x'). cbv zeta in IH.
  destruct (Run_from sim (Some ts) rest x') as [[x2 t2] r].
  change (trace_of (x2, step_calls sim ts t x time x' p ++ t2, r))
    with (step_calls sim ts t x time x' p ++ t2).
  change (trace_of (x2, t2, r)) with t2 in IH.
  destruct (step_calls_projections t x time x' p t2) as (-> & -> & -> & ->).
  destruct IH as (Hpre & Hlog & Hrep & Hprog).
  split; [apply prefix_cons, Hpre|]. split; [simpl; lia|]. split; simpl; lia.
Qed.

Lemma Run_from_solver_error (times : list float) :
  ∀ x tr1 t tr2,
    trace_of (Run_from sim (Some ts) times x) =
      tr1 ++ IntegrateUntilTime t None :: tr2 →
    tr2 = [] ∧
    ∃ e y, integrate sim t y = inl e ∧
           result_of (Run_from sim (Some ts) times x) = inl e.
Proof.
  induction times as [|t' rest IH]; intros x tr1 t tr2 Htr.
  { destruct tr1; discriminate Htr. }
  rewrite Run_from_cons in Htr |- *.
  destruct (integrate sim t' x) as [e|[time x']] eqn:Hint.
  { unfold trace_of in Htr. simpl in Htr.
    destruct tr1 as [|? [|? [|? ?]]]; simplify_eq/=. eauto. }
  destruct (percent (CurrentTime sim x') (TimeHorizon sim)) as [e|p].
  { unfold trace_of, recorded_calls in Htr. simpl in Htr.
    destruct tr1 as [|? [|? [|? [|? ?]]]]; simplify_eq/=. }
  destruct (SFltb time t').
  { unfold trace_of, step_calls, recorded_calls in Htr. simpl in Htr.
    destruct tr1 as [|? [|? [|? [|? [|? ?]]]]]; simplify_eq/=. }
  specialize (IH x').
  destruct (Run_from sim (Some ts) rest x') as [[x2 t2] r].
  unfold trace_of, result_of, step_calls, recorded_calls in *. simpl in *.
  destruct tr1 as [|? [|? [|? [|? tr1]]]]; simplify_eq/=.
  eapply IH. reflexivity.
Qed.

(** Where an exception of the loop comes from: the solver, or the
    percentage. *)
Lemma Run_from_errors (times : list float) :
  ∀ x e, result_of (Run_from sim (Some ts) times x) = inl e →
    (∃ t y, t ∈ times ∧ integrate sim t y = inl e) ∨
    ((e = ZeroDivisionError ∨ e = OverflowError ∨ e = ValueError) ∧
     ∃ y, percent (CurrentTime sim y) (TimeHorizon sim) = inl e ∧
          ReportData (CurrentTime sim y) ∈ trace_of (Run_from sim (Some ts) times x)).
Proof.
  induction times as [|t rest IH]; intros x e Hres; [discriminate Hres|].
  rewrite Run_from_cons in Hres |- *.
  destruct (integrate sim t x) as [e'|[time x']] eqn:Hint.
  { injection Hres as ->. left. exists t, x. split; [left | exact Hint]. }
  destruct (percent (CurrentTime sim x') (TimeHorizon sim)) as [e'|p] eqn:Hp.
  { injection Hres as ->. right. split; [exact (percent_errors _ _ _ Hp)|].
    exists x'. split; [exact Hp|]. unfold trace_of, recorded_calls. simpl.
    do 2 right. left. }
  destruct (SFltb time t); [discriminate Hres|].
  specialize (IH x' e).
  destruct (Run_from sim (Some ts) rest x') as [[x2 t2] r].
  unfold result_of, trace_of in *. simpl in *.
  destruct (IH Hres) as [(t' & y & Ht' & Hy)|(He & y & Hy & Hin)].
  - left. exists t', y. split; [right; exact Ht' | exact Hy].
  - right. split; [exact He|]. exists y. split; [exact Hy|].
    do 4 right. exact Hin.
Qed.
End driver_runs.

(** In every run of the driver, also one that halts early or fails, the
    integration requests follow the report times in order and without a
    gap (they are a prefix of the sequence); each request is announced by
    exactly one message; data is recorded at most once per request and
    progress is observed at most once per record. *)
Theorem Run_requests_prefix {S} (sim : DaeSimulation S) (self : SimPETS) (x : S) :
  let tr := trace_of (Run sim self x) in
  requests tr `prefix_of` ReportingTimes sim ∧
  length (filter (λ cl, is_LogMessage cl = true) tr) = length (requests tr) ∧
  (length (filter (λ cl, is_ReportData cl = true) tr) ≤ length (requests tr))%nat ∧
  (length (filter (λ cl, is_SetProgress cl = true) tr)
     ≤ length (filter (λ cl, is_ReportData cl = true) tr))%nat.
Proof.
  unfold Run. destruct (tScale self) as [ts|]; [apply Run_from_requests|].
  destruct (ReportingTimes sim) as [|t rest]; cbv zeta;
    (split; [apply prefix_nil|]; split; [reflexivity|]; split; reflexivity).
Qed.

(** A failure of the solver is not caught: the integration request on
    which the solver raised is the last call of the run, nothing is
    recorded for it, and the run raises the solver's exception. *)
Theorem Run_solver_error {S} (sim : DaeSimulation S) (self : SimPETS) (x : S)
    (tr1 tr2 : list call) (t : float) :
  trace_of (Run sim self x) = tr1 ++ IntegrateUntilTime t None :: tr2 →
  tr2 = [] ∧
  ∃ e y, integrate sim t y = inl e ∧ result_of (Run sim self x) = inl e.
Proof.
  unfold Run. destruct (tScale self) as [ts|]; [apply Run_from_solver_error|].
  intros Htr. destruct (ReportingTimes sim); destruct tr1; discriminate Htr.
Qed.

Lemma Run_solver_error_witness :
  result_of (Run ex_failing ex_fresh (S754_zero false, 0%nat)) = inl SolverError ∧
  requests (trace_of (Run ex_failing ex_fresh (S754_zero false, 0%nat))) =
    [dyadic 1 0; dyadic 2 0].
Proof.
  assert (Htr : trace_of (Run ex_failing ex_fresh (S754_zero false, 0%nat)) =
    [LogMessage (S754_zero false) (dyadic 1 0);
     IntegrateUntilTime (dyadic 1 0) (Some (dyadic 1 0)); ReportData (dyadic 1 0);
     SetProgress 33; LogMessage (dyadic 1 0) (dyadic 2 0)] ++
    IntegrateUntilTime (dyadic 2 0) None :: []).
  { vm_compute. reflexivity. }
  destruct (Run_solver_error ex_failing ex_fresh (S754_zero false, 0%nat) _ _ _ Htr)
    as (_ & e & y & Hint & Hres).
  assert (e = SolverError) as ->.
  { simpl in Hint. destruct (y.2 =? 1)%nat; [congruence | discriminate Hint]. }
  split; [exact Hres | vm_compute; reflexivity].
Defined.

(** A simulation built without a time scale ([tScale] left at the
    constructor's default [None]) cannot be run over any report time: the
    first message cannot be formatted, and [Run] raises [TypeError]
    before it calls anything, the solver untouched.  Without report
    times it returns at once. *)
Theorem Run_without_tScale {S} (sim : DaeSimulation S) (self : SimPETS) (x : S) :
  tScale self = None →
  Run sim self x =
    (x, [], if bool_decide (ReportingTimes sim = []) then inr tt else inl TypeError).
Proof.
  intros Hts. unfold Run. rewrite Hts.
  destruct (ReportingTimes sim) as [|t rest]; reflexivity.
Qed.

Lemma Run_without_tScale_witness :
  Run ex_reaching ex_no_tScale (S754_zero false, 0%nat) =
    ((S754_zero false, 0%nat), [], inl TypeError).
Proof.
  apply (Run_without_tScale ex_reaching ex_no_tScale (S754_zero false, 0%nat)).
  reflexivity.
Defined.

(** The exceptions of the driver.  When [Run] raises, then either the
    time scale is missing ([TypeError], nothing called), or the solver
    raised that exception at one of the report times, or the percentage
    of some recorded step could not be computed ([ZeroDivisionError] for
    a zero horizon, [OverflowError] or [ValueError] for a quotient that
    is infinite or not a number). *)
Theorem Run_errors {S} (sim : DaeSimulation S) (self : SimPETS) (x : S) (e : error) :
  result_of (Run sim self x) = inl e →
  (tScale self = None ∧ e = TypeError ∧ trace_of (Run sim self x) = []) ∨
  (∃ t y, t ∈ ReportingTimes sim ∧ integrate sim t y = inl e) ∨
  ((e = ZeroDivisionError ∨ e = OverflowError ∨ e = ValueError) ∧
   ∃ y, percent (CurrentTime sim y) (TimeHorizon sim) = inl e ∧
        ReportData (CurrentTime sim y) ∈ trace_of (Run sim self x)).
Proof.
  unfold Run. destruct (tScale self) as [ts|].
  - intros Hres. right. apply (Run_from_errors sim ts _ x e Hres).
  - destruct (ReportingTimes sim) as [|t rest]; [discriminate|].
    rewrite Run_from_None. intros Hres. injection Hres as <-. left. auto.
Qed.

Lemma Run_errors_witness :
  result_of (Run ex_large_times ex_fresh (S754_zero false, 0%nat)) = inl OverflowError ∧
  ∃ y, percent (CurrentTime ex_large_times y) (TimeHorizon ex_large_times)
         = inl OverflowError ∧
       ReportData (CurrentTime ex_large_times y)
         ∈ trace_of (Run ex_large_times ex_fresh (S754_zero false, 0%nat)).
Proof.
  assert (Hres : result_of (Run ex_large_times ex_fresh (S754_zero false, 0%nat))
                 = inl OverflowError) by (vm_compute; reflexivity).
  split; [exact Hres|].
  destruct (Run_errors ex_large_times ex_fresh (S754_zero false, 0%nat) _ Hres)
    as [(Hts & _)|[(t & y & _ & Hint)|(_ & Hy)]];
    [discriminate Hts | discriminate Hint | exact Hy].
Defined.



(** ** No target is written twice *)

Section distinct_rules.
Context {X : Type}.

Lemma distinct_ret {A} (v : A) T : distinct (mret v : M X A) T.
Proof. intros x. split; constructor. Qed.

Lemma distinct_raise {A} e T : distinct (raise e : M X A) T.
Proof. intros x. split; constructor. Qed.

Lemma distinct_emit cl (T : target → Prop) :
  T (target_of cl) → distinct (emit cl : M X unit) T.
Proof.
  intros Ht x. unfold trace_of. simpl. split.
  - apply NoDup_singleton.
  - repeat constructor. exact Ht.
Qed.

Lemma distinct_bind {A B} (m : M X A) (k : A → M X B) (T T1 T2 : target → Prop) :
  distinct m T1 → (∀ v, distinct (k v) T2) →
  (∀ t, T1 t → T2 t → False) →
  (∀ t, T1 t → T t) → (∀ t, T2 t → T t) →
  distinct (m ≫= k) T.
Proof.
  intros Hm Hk Hdisj H1 H2 x. specialize (Hm x). rewrite run_bind.
  unfold trace_of in *.
  destruct (m x) as [[x1 t1] [e|v]]; simpl in *.
  { destruct Hm as [Hnd Hall]. split; [exact Hnd|].
    eapply Forall_impl; [exact Hall | exact H1]. }
  specialize (Hk v x1). unfold trace_of in Hk.
  destruct (k v x1) as [[x2 t2] r]; simpl in *.
  destruct Hm as [Hnd1 Hall1]. destruct Hk as [Hnd2 Hall2].
  rewrite fmap_app. split.
  - apply NoDup_app. split; [exact Hnd1|]. split; [|exact Hnd2].
    intros t Hin1 Hin2. rewrite Forall_forall in Hall1, Hall2. eauto.
  - apply Forall_app. split; eapply Forall_impl; eauto.
Qed.

Lemma distinct_seq {A} (m : M X unit) (k : M X A) (T T1 T2 : target → Prop) :
  distinct m T1 → distinct k T2 →
  (∀ t, T1 t → T2 t → False) →
  (∀ t, T1 t → T t) → (∀ t, T2 t → T t) →
  distinct (m;; k) T.
Proof. intros Hm Hk. apply distinct_bind; [exact Hm | intros _; exact Hk]. Qed.

Lemma distinct_emit_then {A} cl (k : M X A) (T T2 : target → Prop) :
  distinct k T2 → ¬ T2 (target_of cl) → T (target_of cl) →
  (∀ t, T2 t → T t) →
  distinct (emit cl;; k) T.
Proof.
  intros Hk Hnot Hin Hsub.
  apply (distinct_seq _ _ T (λ t, t = target_of cl) T2);
    [apply distinct_emit; reflexivity | exact Hk | | | exact Hsub].
  - intros t -> Ht. exact (Hnot Ht).
  - intros t ->. exact Hin.
Qed.

Lemma distinct_silent_bind {A B} (m : M X A) (k : A → M X B) T :
  silent m → (∀ v, distinct (k v) T) → distinct (m ≫= k) T.
Proof.
  intros Hm Hk x. specialize (Hm x). rewrite run_bind. unfold trace_of in *.
  destruct (m x) as [[x1 t1] [e|v]]; simpl in *; subst t1.
  { split; constructor. }
  specialize (Hk v x1). unfold trace_of in Hk.
  destruct (k v x1) as [[x2 t2] r]; simpl in *. exact Hk.
Qed.

(** A loop over distinct elements whose iterations write to disjoint
    sets of targets. *)
Lemma distinct_for {A} (xs : list A) (body : A → M X unit)
    (T : target → Prop) (Ty : A → target → Prop) :
  NoDup xs →
  (∀ y, y ∈ xs → distinct (body y) (Ty y)) →
  (∀ y y' t, Ty y t → Ty y' t → y = y') →
  (∀ y t, y ∈ xs → Ty y t → T t) →
  distinct (for_each xs body) T.
Proof.
  intros Hnd Hbody Hinj Hsub.
  enough (Hgen : distinct (for_each xs body) (λ t, ∃ y, y ∈ xs ∧ Ty y t)).
  { intros x. destruct (Hgen x) as [H1 H2]. split; [exact H1|].
    eapply Forall_impl; [exact H2|]. intros t (y & Hy & Ht). eauto. }
  clear Hsub T. induction Hnd as [|z zs Hz Hnd IH]; simpl.
  { apply distinct_ret. }
  apply (distinct_seq _ _ _ (Ty z) (λ t, ∃ y, y ∈ zs ∧ Ty y t)).
  - apply Hbody. left.
  - apply IH. intros y Hy. apply Hbody. right. exact Hy.
  - intros t Ht (y & Hy & Ht'). assert (z = y) as -> by eauto. contradiction.
  - intros t Ht. exists z. split; [left | exact Ht].
  - intros t (y & Hy & Ht). exists y. split; [right; exact Hy | exact Ht].
Qed.

Lemma silent_py_range (n : pynum) : silent (py_range (X := X) n).
Proof. intros x. destruct n; reflexivity. Qed.

Lemma silent_getitem (xs : list Q) (k : Z) : silent (getitem (X := X) xs k).
Proof. intros x. unfold getitem. destruct (xs !! Z.to_nat k); reflexivity. Qed.

Lemma silent_dPrev_0_last (d : checkpoint) key : silent (dPrev_0_last (X := X) d key).
Proof.
  intros x. unfold dPrev_0_last. destruct (d !! key) as [arr|]; [|reflexivity].
  destruct (at_0_last arr); reflexivity.
Qed.

Lemma silent_dPrev_last (d : checkpoint) key i : silent (dPrev_last (X := X) d key i).
Proof.
  intros x. unfold dPrev_last. destruct (d !! key) as [arr|]; [|reflexivity].
  destruct (at_last arr i); reflexivity.
Qed.

(** The loop over the points of a particle runs over a [range]. *)
Lemma distinct_py_range {B} (n : pynum) (k : list Z → M X B) T :
  (∀ z, distinct (k (range z)) T) → distinct (py_range n ≫= k) T.
Proof.
  intros Hk. destruct n as [z|q].
  - intros x. rewrite run_bind. simpl. specialize (Hk z x).
    unfold trace_of in *. destruct (k (range z) x) as [[x2 t2] r]. exact Hk.
  - intros x. split; constructor.
Qed.
End distinct_rules.

Lemma silent_np_random_rand (tape : nat → Q) (n : pynum) :
  silent (np_random_rand tape n).
Proof.
  intros x. destruct n as [z|q]; [|reflexivity]. simpl.
  destruct (z <? 0); reflexivity.
Qed.

Lemma NoDup_range (n : Z) : NoDup (range n).
Proof. apply NoDup_seqZ. Qed.

(** *** The domain builder *)

Lemma SetUpParametersAndDomains_distinct {X} (self : SimPETS) :
  NoDup (trodes (ndD_s self)) →
  distinct (SetUpParametersAndDomains (X := X) self) (λ _, True).
Proof.
  intros Hnd. unfold SetUpParametersAndDomains.
  apply (distinct_seq _ _ _ (λ t, t = T_domain (DmnCell Sep))
           (λ t, ∃ l, domain_in_trode l t)); [| | | auto | auto].
  - destruct (1 <=? Nvol (ndD_s self) Sep);
      [apply distinct_emit; reflexivity | apply distinct_ret].
  - apply (distinct_for _ _ _ domain_in_trode); [exact Hnd | | | eauto].
    + intros l _.
      apply (distinct_emit_then _ _ _
               (λ t, t = T_domain (DmnPart l) ∨ ∃ i, domain_in_volume l i t)).
      * apply (distinct_emit_then _ _ _ (λ t, ∃ i, domain_in_volume l i t));
          [| intros [i []] | left; reflexivity | auto].
        apply (distinct_for _ _ _ (domain_in_volume l));
          [apply NoDup_range | | | eauto].
        -- intros i _.
           apply (distinct_for _ _ _ (λ j t, t = T_domain (PartDmn l i j)));
             [apply NoDup_range | | |].
           ++ intros j _. apply distinct_emit. reflexivity.
           ++ intros j j' t -> H. injection H as ->. reflexivity.
           ++ intros j t _ ->. simpl. auto.
        -- intros i i' [| [[|]| |]|]; simpl; try contradiction.
           intros [_ <-] [_ <-]. reflexivity.
      * intros [H|[i []]]. discriminate H.
      * reflexivity.
      * intros t [->|[i Hi]]; [reflexivity|].
        destruct t as [| [[|]| |]|]; simpl in *; try contradiction. apply Hi.
    + intros l l' [| [[|]| |]|]; simpl; try contradiction; congruence.
  - intros t -> [l []].
Qed.

(** No array is created twice: when the electrodes of [trodes] are
    distinct, the domain builder creates each array exactly once. *)
Theorem arrays_created_once {X} (self : SimPETS) (x : X) (d : domain) (n : Z) :
  NoDup (trodes (ndD_s self)) →
  to_allocate self d n →
  ∃ pre post,
    trace_of (SetUpParametersAndDomains self x) = pre ++ CreateArray d n :: post ∧
    (∀ cl, cl ∈ pre ++ post → target_of cl ≠ T_domain d) ∧
    NoDup (target_of <$> trace_of (SetUpParametersAndDomains self x)).
Proof.
  intros Hnd Hd. apply to_allocate_allocated in Hd.
  destruct (SetUpParametersAndDomains_distinct (X := X) self Hnd x) as [Hdist _].
  pose proof (covers_call _ _ x (SetUpParametersAndDomains_covers self d n Hd)) as Hin.
  apply list_elem_of_split in Hin as (pre & post & Htr).
  exists pre, post. split; [exact Htr|]. split; [|exact Hdist].
  rewrite Htr, fmap_app, fmap_cons in Hdist. simpl in Hdist.
  apply NoDup_app in Hdist as (_ & Hpre & Hpost).
  apply NoDup_cons in Hpost as [Hpost _].
  intros cl Hcl Heq. apply elem_of_app in Hcl as [Hcl|Hcl].
  - apply (Hpre (T_domain d)); [|left].
    rewrite <- Heq. apply list_elem_of_fmap_2, Hcl.
  - apply Hpost. rewrite <- Heq. apply list_elem_of_fmap_2, Hcl.
Qed.

Lemma arrays_created_once_witness :
  NoDup (target_of <$> trace_of (SetUpParametersAndDomains ex_fresh tt)).
Proof.
  assert (Hnd : NoDup (trodes (ndD_s ex_fresh))).
  { repeat constructor; [|inversion 1]. intros H.
    apply elem_of_cons in H as [H|H]; [discriminate H | inversion H]. }
  assert (Hd : to_allocate ex_fresh (DmnPart Cathode) 3).
  { simpl. split; [right; left | reflexivity]. }
  destruct (arrays_created_once ex_fresh tt _ _ Hnd Hd) as (_ & _ & _ & _ & H).
  exact H.
Defined.

(** *** The initializer *)

Ltac target_cases :=
  unfold not; intros;
  repeat match goal with
         | H : ∃ _, _ |- _ => destruct H
         | H : _ ∨ _ |- _ => destruct H
         | H : _ ∧ _ |- _ => destruct H
         end;
  subst;
  repeat match goal with
         | t : target |- _ =>
             destruct t as [[| | | | | | |? ? ? []] [|]|[[|]| |]|]
         end;
  simpl in *; rewrite ?elem_of_cons, ?elem_of_nil in *;
  try solve [intuition (try discriminate; try congruence)].

Ltac skip_reads :=
  repeat (apply distinct_silent_bind;
          [ first [ apply silent_dPrev_0_last | apply silent_dPrev_last
                  | apply silent_getitem | apply silent_np_random_rand ]
          | intros ? ]).

Ltac emit_then T2 :=
  skip_reads; apply (distinct_emit_then _ _ _ T2);
  [ | solve [target_cases] | solve [target_cases]
    | first [ solve [target_cases]
            | solve [intros ? ?; right; assumption]
            | solve [intros ? ?; left; assumption] ] ].

Ltac emit_last := skip_reads; apply distinct_emit; solve [target_cases].

Ltac points_loop Ty :=
  skip_reads; apply distinct_py_range; intros ?;
  apply (distinct_for _ _ _ Ty);
  [ apply NoDup_range | intros ? _ | solve [target_cases] | solve [target_cases] ].

Lemma fresh_particle_distinct (tape : nat → Q) (self : SimPETS) l i j :
  distinct (fresh_particle tape self l i j) (target_in_particle l i j).
Proof.
  unfold fresh_particle.
  destruct (bool_decide _); [|destruct (bool_decide _); [|apply distinct_ret]].
  - emit_then (target_fields l i j [F_c]).
    points_loop (target_point l i j [F_c]). emit_last.
  - emit_then (target_fields l i j [F_c2bar; F_cbar; F_c1; F_c2]).
    emit_then (target_fields l i j [F_cbar; F_c1; F_c2]).
    emit_then (target_fields l i j [F_c1; F_c2]).
    points_loop (target_point l i j [F_c1; F_c2]).
    emit_then (target_point l i j [F_c2] y). emit_last.
Qed.

Lemma restart_particle_distinct (self : SimPETS) d l i j :
  distinct (restart_particle self d l i j) (target_in_particle l i j).
Proof.
  unfold restart_particle.
  destruct (bool_decide _); [|destruct (bool_decide _); [|apply distinct_ret]].
  - emit_then (target_fields l i j [F_c]).
    points_loop (target_point l i j [F_c]). emit_last.
  - emit_then (target_fields l i j [F_c2bar; F_cbar; F_c1; F_c2]).
    emit_then (target_fields l i j [F_cbar; F_c1; F_c2]).
    emit_then (target_fields l i j [F_c1; F_c2]).
    points_loop (target_point l i j [F_c1; F_c2]).
    emit_then (target_point l i j [F_c2] y). emit_last.
Qed.

Ltac volumes_loop Ty :=
  apply (distinct_for _ _ _ Ty);
  [ apply NoDup_range | | solve [target_cases] | intros ? ? _ ?; eauto ].

(** The electrolyte of the separator and of the electrodes, and the
    applied potential: the part of both branches after the solids. *)
Ltac electrolyte_part Hnd :=
  apply (distinct_seq _ _ _ (λ t, ∃ i, target_lyte Sep i t)
           (λ t, (∃ l i, target_lyte (Trode l) i t) ∨ t = T_var phi_applied None));
  [ volumes_loop (target_lyte Sep);
    (let i := fresh "i" in
     intros i _; emit_then (λ t, t = T_var (phi_lyte Sep) (Some i)); emit_last)
  | apply (distinct_seq _ _ _ (λ t, ∃ l i, target_lyte (Trode l) i t)
             (λ t, t = T_var phi_applied None));
    [ apply (distinct_for _ _ _ (λ l t, ∃ i, target_lyte (Trode l) i t));
      [ exact Hnd
      | let l := fresh "l" in
        let i := fresh "i" in
        intros l _; volumes_loop (target_lyte (Trode l));
        intros i _;
        emit_then (λ t, t = T_var (phi_lyte (Trode l)) (Some i)); emit_last
      | solve [target_cases]
      | intros ? ? _ ?; eauto ]
    | emit_last
    | solve [target_cases]
    | intros ? ?; left; assumption
    | intros ? ?; right; assumption ]
  | solve [target_cases]
  | let H := fresh in intros ? [? H]; left; eauto
  | let H := fresh in
    intros ? [H| ->]; [left; destruct H as (? & ? & ?); eauto | right; reflexivity] ].

Lemma SetUpVariables_fresh_distinct (tape : nat → Q) (self : SimPETS) :
  NoDup (trodes (ndD_s self)) →
  distinct (SetUpVariables_fresh tape self)
    (λ t, (∃ l, target_in_trode l t) ∨ (∃ r i, target_lyte r i t) ∨
          t = T_var phi_applied None).
Proof.
  intros Hnd. unfold SetUpVariables_fresh.
  apply (distinct_seq _ _ _ (λ t, ∃ l, target_in_trode l t)
           (λ t, (∃ r i, target_lyte r i t) ∨ t = T_var phi_applied None));
    [ | | solve [target_cases] | intros ? ?; left; assumption
      | intros ? ?; right; assumption ].
  - apply (distinct_for _ _ _ target_in_trode);
      [exact Hnd | | solve [target_cases] | intros ? ? _ ?; eauto].
    intros l _. emit_then (λ t, ∃ i, target_in_volume l i t).
    volumes_loop (target_in_volume l). intros i _.
    emit_then (λ t, t = T_var (phi_bulk l) (Some i) ∨
                    ∃ j, target_in_particle l i j t).
    destruct (bool_decide (l = Anode));
      emit_then (λ t, ∃ j, target_in_particle l i j t);
      (volumes_loop (target_in_particle l i); intros j _;
       apply fresh_particle_distinct).
  - electrolyte_part Hnd.
Qed.

Lemma SetUpVariables_restart_distinct (self : SimPETS) :
  NoDup (trodes (ndD_s self)) →
  distinct (SetUpVariables_restart self)
    (λ t, (∃ l, target_in_trode l t) ∨ (∃ r i, target_lyte r i t) ∨
          t = T_var phi_applied None).
Proof.
  intros Hnd. unfold SetUpVariables_restart.
  apply distinct_silent_bind.
  { intros x. destruct (dataPrev self); reflexivity. }
  intros dPrev.
  apply (distinct_seq _ _ _ (λ t, ∃ l, target_in_trode l t)
           (λ t, (∃ r i, target_lyte r i t) ∨ t = T_var phi_applied None));
    [ | | solve [target_cases] | intros ? ?; left; assumption
      | intros ? ?; right; assumption ].
  - apply (distinct_for _ _ _ target_in_trode);
      [exact Hnd | | solve [target_cases] | intros ? ? _ ?; eauto].
    intros l _. emit_then (λ t, ∃ i, target_in_volume l i t).
    volumes_loop (target_in_volume l). intros i _.
    emit_then (λ t, t = T_var (phi_bulk l) (Some i) ∨
                    ∃ j, target_in_particle l i j t).
    emit_then (λ t, ∃ j, target_in_particle l i j t).
    volumes_loop (target_in_particle l i). intros j _.
    apply restart_particle_distinct.
  - electrolyte_part Hnd.
Qed.

Lemma SetUpVariables_distinct (tape : nat → Q) (self : SimPETS) :
  NoDup (trodes (ndD_s self)) →
  distinct (SetUpVariables tape self) (λ _, True).
Proof.
  intros Hnd. unfold SetUpVariables.
  apply (distinct_seq _ _ _
           (λ t, (∃ l, target_in_trode l t) ∨ (∃ r i, target_lyte r i t) ∨
                 t = T_var phi_applied None)
           (λ t, t = T_var dummyVar None)); [| | | auto | auto].
  - destruct (String.eqb (prevDir (ndD_s self)) "false");
      [apply SetUpVariables_fresh_distinct | apply SetUpVariables_restart_distinct];
      exact Hnd.
  - apply distinct_emit. reflexivity.
  - target_cases.
Qed.

Lemma NoDup_fmap_eq {A B} (f : A → B) (l : list A) (a b : A) :
  NoDup (f <$> l) → a ∈ l → b ∈ l → f a = f b → a = b.
Proof.
  induction l as [|c l IH]; intros Hnd Ha Hb Hf; [inversion Ha|].
  rewrite fmap_cons in Hnd. apply NoDup_cons in Hnd as [Hc Hnd].
  apply elem_of_cons in Ha as [->|Ha]; apply elem_of_cons in Hb as [->|Hb].
  - reflexivity.
  - exfalso. apply Hc. rewrite Hf. apply list_elem_of_fmap_2, Hb.
  - exfalso. apply Hc. rewrite <- Hf. apply list_elem_of_fmap_2, Ha.
  - apply IH; assumption.
Qed.

Lemma sets_target cl v idx y : sets cl v idx y → target_of cl = T_var v idx.
Proof. intros [->|(k & -> & ->)]; reflexivity. Qed.

(** No variable is initialised twice: when the electrodes of [trodes]
    are distinct, a run of the initializer, fresh or restarted, complete
    or interrupted by an exception, never sets the same variable at the
    same index by two calls. *)
Theorem variables_set_once (tape : nat → Q) (self : SimPETS) (x : nat)
    (cl1 cl2 : call) (v : var) (idx : option Z) (y1 y2 : Q) :
  NoDup (trodes (ndD_s self)) →
  cl1 ∈ trace_of (SetUpVariables tape self x) →
  cl2 ∈ trace_of (SetUpVariables tape self x) →
  sets cl1 v idx y1 → sets cl2 v idx y2 →
  cl1 = cl2 ∧ y1 = y2 ∧
  NoDup (target_of <$> trace_of (SetUpVariables tape self x)).
Proof.
  intros Hnd H1 H2 Hs1 Hs2.
  destruct (SetUpVariables_distinct tape self Hnd x) as [Hdist _].
  assert (cl1 = cl2) as <-.
  { apply (NoDup_fmap_eq target_of _ _ _ Hdist H1 H2).
    rewrite (sets_target _ _ _ _ Hs1), (sets_target _ _ _ _ Hs2). reflexivity. }
  split; [reflexivity|]. split; [|exact Hdist].
  destruct (sets_inj _ _ _ _ _ _ _ Hs1 Hs2) as (_ & _ & Hy). exact Hy.
Qed.

Lemma variables_set_once_witness :
  NoDup (target_of <$> trace_of (SetUpVariables ex_tape ex_fresh 0%nat)).
Proof.
  assert (Hnd : NoDup (trodes (ndD_s ex_fresh))).
  { repeat constructor; [|inversion 1]. intros H.
    apply elem_of_cons in H as [H|H]; [discriminate H | inversion H]. }
  assert (Hin : SetInitialGuess phi_applied None 0%Q
                ∈ trace_of (SetUpVariables ex_tape ex_fresh 0%nat)).
  { apply list_elem_of_In. vm_compute.
    repeat (first [left; reflexivity | right]). }
  assert (Hs : sets (SetInitialGuess phi_applied None 0%Q) phi_applied None 0%Q).
  { left. reflexivity. }
  destruct (variables_set_once ex_tape ex_fresh 0%nat _ _ _ _ _ _ Hnd Hin Hin Hs Hs)
    as (_ & _ & H).
  exact H.
Defined.

(** ** The random generator in a fresh start *)

Lemma draws_emit cl : draws (emit cl) 0.
Proof. intros x. split; [unfold state_of; simpl; lia | exists tt; reflexivity]. Qed.

Lemma draws_ret {A} (v : A) : draws (mret v) 0.
Proof. intros x. split; [unfold state_of; simpl; lia | exists v; reflexivity]. Qed.

Lemma draws_bind {A B} (m : M nat A) (k : A → M nat B) n1 n2 :
  draws m n1 → (∀ v, draws (k v) n2) → draws (m ≫= k) (n1 + n2).
Proof.
  intros Hm Hk x. destruct (Hm x) as [Hs [v Hv]].
  unfold returns. rewrite run_bind. unfold state_of, result_of in *.
  destruct (m x) as [[x1 t1] r]. simpl in *. subst r x1.
  destruct (Hk v (x + n1)%nat) as [Hs2 [w Hw]]. unfold state_of, result_of in *.
  destruct (k v (x + n1)%nat) as [[x2 t2] r]. simpl in *. subst.
  split; [lia | exists w; reflexivity].
Qed.

Lemma draws_emit_then {A} cl (k : M nat A) n : draws k n → draws (emit cl;; k) n.
Proof. intros Hk. apply (draws_bind _ _ 0 n); [apply draws_emit | intros _; exact Hk]. Qed.

Lemma draws_for {A} (xs : list A) (body : A → M nat unit) (f : A → nat) :
  (∀ y, y ∈ xs → draws (body y) (f y)) →
  draws (for_each xs body) (sum_list (f <$> xs)).
Proof.
  induction xs as [|y ys IH]; intros Hbody; [apply draws_ret|].
  simpl. apply draws_bind; [apply Hbody; left|].
  intros _. apply IH. intros; apply Hbody; right; assumption.
Qed.

Lemma draws_for_none {A} (xs : list A) (body : A → M nat unit) :
  (∀ y, y ∈ xs → draws (body y) 0) → draws (for_each xs body) 0.
Proof.
  intros Hbody. pose proof (draws_for xs body (λ _, 0%nat) Hbody) as H.
  replace (sum_list ((λ _, 0%nat) <$> xs)) with 0%nat in H; [exact H|].
  clear. induction xs as [|y ys IH]; [reflexivity | exact IH].
Qed.

Lemma sum_list_bind {A} (xs : list A) (g : A → list nat) :
  sum_list (xs ≫= g) = sum_list ((λ y, sum_list (g y)) <$> xs).
Proof.
  induction xs as [|y ys IH]; [reflexivity|].
  simpl. rewrite sum_list_with_app. f_equal. exact IH.
Qed.

Lemma fresh_particle_draws (tape : nat → Q) (self : SimPETS) l i j :
  fresh_sizes_ok self → is_particle self l i j →
  draws (fresh_particle tape self l i j) (samples_of self l i j).
Proof.
  intros Hok Hp x. specialize (Hok l i j Hp). unfold samples_of, returns.
  destruct (kind_of_cases self l i j) as [[H1 Hk]|[(H1 & H2 & Hk)|(H1 & H2 & Hk)]];
    rewrite Hk in *.
  - destruct Hok as [n Hn].
    rewrite (fresh_particle_single _ _ _ _ _ n) by assumption.
    split; [unfold state_of; simpl; lia | exists tt; reflexivity].
  - destruct Hok as (n & Hn & Hpos).
    rewrite (fresh_particle_two _ _ _ _ _ n), Hn by assumption.
    split; [unfold state_of; simpl; lia | exists tt; reflexivity].
  - rewrite fresh_particle_unknown by assumption.
    split; [unfold state_of; simpl; lia | exists tt; reflexivity].
Qed.

Lemma SetUpVariables_fresh_draws (tape : nat → Q) (self : SimPETS) :
  fresh_sizes_ok self →
  draws (SetUpVariables_fresh tape self) (samples_drawn self).
Proof.
  intros Hok. unfold SetUpVariables_fresh, samples_drawn.
  replace (sum_list _) with
    (sum_list ((λ l, sum_list
       (i ← range (Nvol (ndD_s self) (Trode l));
        j ← range (Npart (ndD_s self) l); [samples_of self l i j]))
       <$> trodes (ndD_s self)) + 0)%nat
    by (rewrite sum_list_bind; lia).
  apply draws_bind.
  - apply draws_for. intros l Hl. apply draws_emit_then.
    rewrite sum_list_bind. apply draws_for. intros i Hi%elem_of_range.
    apply draws_emit_then.
    destruct (bool_decide (l = Anode)); apply draws_emit_then;
      (rewrite sum_list_bind;
       replace ((λ j, sum_list [samples_of self l i j]) <$> range (Npart (ndD_s self) l))
         with (samples_of self l i <$> range (Npart (ndD_s self) l))
         by (apply list_fmap_ext; intros; simpl; lia);
       apply draws_for; intros j Hj%elem_of_range;
       apply fresh_particle_draws; [exact Hok | repeat split; tauto || lia]).
  - intros _. apply (draws_bind _ _ 0 0).
    { apply draws_for_none. intros i _. apply draws_emit_then, draws_emit. }
    intros _. apply (draws_bind _ _ 0 0); [|intros _; apply draws_emit].
    apply draws_for_none. intros l _. apply draws_for_none. intros i _.
    apply draws_emit_then, draws_emit.
Qed.

(** In a fresh start with sizes it can work with, the initializer takes
    from the random generator exactly two samples per point of every
    particle of the two-field kind, and none for any other particle. *)
Theorem fresh_start_samples_drawn (tape : nat → Q) (self : SimPETS) (x : nat) :
  prevDir (ndD_s self) = "false" → fresh_sizes_ok self →
  state_of (SetUpVariables tape self x) = (x + samples_drawn self)%nat.
Proof.
  intros Hdir Hok. rewrite SetUpVariables_run, Hdir, String.eqb_refl.
  destruct (SetUpVariables_fresh_draws tape self Hok x) as [Hs [v Hv]].
  unfold state_of, result_of in *.
  destruct (SetUpVariables_fresh tape self x) as [[x1 t1] r]. simpl in *.
  subst r. exact Hs.
Qed.

Lemma fresh_start_samples_drawn_witness :
  state_of (SetUpVariables ex_tape ex_fresh 5%nat) = 11%nat.
Proof.
  apply (fresh_start_samples_drawn ex_tape ex_fresh 5%nat eq_refl).
  apply valid_sizes_fresh_ok, ex_valid_sizes.
Defined.

(** ** A two-field particle with a single point *)

Lemma perturbation_single (tape : nat → Q) (d : nat) (c : Q) :
  (c + perturbation tape d 1 !!! 0%nat == c)%Q.
Proof.
  unfold perturbation, demean, perturb, np_mean. simpl.
  set (u := (epsrnd * (tape d - (1 # 2)))%Q). field.
Qed.

(** With a single point the perturbation is lost: in a fresh start with
    a valid size table and distinct electrodes, a two-field particle of
    size 1 gets an initial condition for both of its fields at point 0,
    and whatever call sets one of these fields there carries the
    configured [cs0] (the one sample, less its own mean). *)
Theorem one_point_two_field_unperturbed (tape : nat → Q) (self : SimPETS)
    (l : trode) (i j : Z) (x : nat) :
  prevDir (ndD_s self) = "false" →
  valid_sizes self →
  NoDup (trodes (ndD_s self)) →
  is_particle self l i j →
  kind_of self l i j = TwoField →
  psd_num (ndD_s self) l i j = PyInt 1 →
  let tr := trace_of (SetUpVariables tape self x) in
  ∀ f, f ∈ [F_c1; F_c2] →
    (∃ y, SetInitialCondition (part l i j f) 0 y ∈ tr) ∧
    (∀ cl y, cl ∈ tr → sets cl (part l i j f) (Some 0) y →
             (y == cs0 (ndD_s self) l)%Q).
Proof.
  intros Hdir Hv Hnd Hp Hk Hn tr f Hf.
  destruct (kind_of_cases self l i j) as [[_ Hk']|[(H1 & H2 & _)|(_ & _ & Hk')]];
    [congruence | | congruence].
  assert (Hblk : has_block
    (λ blk, ∃ d, blk = two_field_guesses self l i j ++
                       two_field_points self l i j 1
                         (perturbation tape d (Z.to_nat 1))
                         (perturbation tape (d + Z.to_nat 1) (Z.to_nat 1))) tr).
  { apply has_block_fresh_trace; [exact Hdir|].
    apply (fresh_particle_lift tape self l i j _ Hv Hp).
    apply fresh_particle_two_covers; [assumption..|lia]. }
  destruct Hblk as (pre & blk & post & Htr & d & ->).
  set (y1 := (cs0 (ndD_s self) l + perturbation tape d 1 !!! 0%nat)%Q).
  set (y2 := (cs0 (ndD_s self) l + perturbation tape (d + 1) 1 !!! 0%nat)%Q).
  assert (Hin : ∃ y, (y == cs0 (ndD_s self) l)%Q ∧
                     SetInitialCondition (part l i j f) 0 y ∈ tr).
  { apply elem_of_cons in Hf as [->|Hf];
      [|apply list_elem_of_singleton in Hf as ->].
    - exists y1. split; [apply perturbation_single|].
      fold tr in Htr. rewrite Htr.
      apply elem_of_app; right; apply elem_of_app; left.
      apply elem_of_app; right. left.
    - exists y2. split; [apply perturbation_single|].
      fold tr in Htr. rewrite Htr.
      apply elem_of_app; right; apply elem_of_app; left.
      apply elem_of_app; right. right. left. }
  destruct Hin as (y0 & Hy0 & Hin). split; [exists y0; exact Hin|].
  intros cl y Hcl Hs.
  destruct (SetUpVariables_distinct tape self Hnd x) as [Hdist _].
  assert (Hs0 : sets (SetInitialCondition (part l i j f) 0 y0)
                  (part l i j f) (Some 0) y0).
  { right. exists 0. split; reflexivity. }
  assert (Heq : cl = SetInitialCondition (part l i j f) 0 y0).
  { apply (NoDup_fmap_eq target_of _ _ _ Hdist Hcl Hin).
    rewrite (sets_target _ _ _ _ Hs), (sets_target _ _ _ _ Hs0). reflexivity. }
  subst cl. destruct (sets_inj _ _ _ _ _ _ _ Hs Hs0) as (_ & _ & Hy).
  rewrite Hy. exact Hy0.
Qed.

Lemma one_point_two_field_unperturbed_witness :
  (∃ y, SetInitialCondition (part Cathode 0 1 F_c1) 0 y
        ∈ trace_of (SetUpVariables ex_tape ex_one_point 0%nat)) ∧
  (∀ cl y, cl ∈ trace_of (SetUpVariables ex_tape ex_one_point 0%nat) →
           sets cl (part Cathode 0 1 F_c1) (Some 0) y → (y == 1 # 100)%Q).
Proof.
  assert (Hv : valid_sizes ex_one_point).
  { intros l i j _. exists 1. split; [reflexivity | lia]. }
  assert (Hnd : NoDup (trodes (ndD_s ex_one_point))).
  { repeat constructor; [|inversion 1]. intros H.
    apply elem_of_cons in H as [H|H]; [discriminate H | inversion H]. }
  assert (Hp : is_particle ex_one_point Cathode 0 1).
  { split; [right; left | simpl; lia]. }
  apply (one_point_two_field_unperturbed ex_tape ex_one_point Cathode 0 1 0%nat
           eq_refl Hv Hnd Hp eq_refl eq_refl F_c1).
  left.
Defined.
